(** * ClaudeScope usage sync

    A shallow embedding of [scripts/hooks/sync-usage.js], and of the
    price-list functions of [scripts/sync-pricing.js].

    The script walks the session logs of an AI coding assistant, prices the
    token usage of every session against a rate table and uploads one record
    per session, remembering in a local ledger which sessions are done.

    How the program is modelled:
    - Numbers are JavaScript Numbers, i.e. IEEE 754 binary64 values: they are
      Rocq's primitive floats, whose operations are the same correctly
      rounded ones, so every definition below evaluates to the very value
      Node computes.
    - JSON values are typed: an object is a record with one optional field
      per property the script reads; a token count that is present is a
      Number, a timestamp, a request id or a model name is a String.
    - A [Map], and a plain object used as one, is the list of its entries in
      insertion order.  The pricing table and the per-model tables are only
      ever read at family keys, which are own properties.  The ledger is read
      at session ids, which are file names: there a lookup also finds the
      properties every object inherits ([constructor], [toString], ...), and
      an assignment to [__proto__] may be lost.
    - The log directory is an input value and is only read.  The one file the
      script writes is the ledger, an object that maps a session id to the
      epoch milliseconds of its sync; a missing or unparsable ledger is read
      as the empty object.
    - [Date.now()] is the [clock] of the world, and the remote store is an
      oracle that accepts or rejects each request. *)

From Stdlib Require Import ZArith Lia Bool List Ascii String Floats.
From Stdlib Require Uint63.
From stdpp Require Import base option strings gmap.
Import ListNotations.

Set Warnings "-inexact-float".
Local Open Scope string_scope.

(** ** JavaScript primitives used by the script *)

Module JS.

(** [ToBoolean] on a Number: [0], [-0] and [NaN] are falsy. *)
Definition truthy (x : float) : bool :=
  negb (PrimFloat.is_nan x || PrimFloat.is_zero x).

(** [x || 0] where [x] is a Number property that may be absent. *)
Definition or0 (x : option float) : float :=
  match x with
  | Some v => if truthy v then v else 0%float
  | None => 0%float
  end.

(** [s || d] where [s] is a String property that may be absent: the empty
    string is falsy. *)
Definition or_str (s : option string) (d : string) : string :=
  match s with
  | Some (String c r) => String c r
  | _ => d
  end.

(** [Math.max(a, b)]: NaN is contagious and [+0] is larger than [-0]. *)
Definition Math_max (a b : float) : float :=
  if PrimFloat.is_nan a || PrimFloat.is_nan b then PrimFloat.nan
  else if (a <? b)%float then b
  else if (b <? a)%float then a
  else if PrimFloat.get_sign a then b else a.

(** The Number of an integer of magnitude below 2^63 (exact up to 2^53,
    which is all [Math_round] asks of it). *)
Definition of_int (z : Z) : float :=
  if (z <? 0)%Z then (- PrimFloat.of_uint63 (Uint63.of_Z (- z)))%float
  else PrimFloat.of_uint63 (Uint63.of_Z z).

(** [Math.round(x)]: the integral Number closest to [x], the one towards
    +infinity in a tie; NaN, infinities, zeros and integral values are
    returned as they are, and a result of zero keeps the sign of [x]. *)
Definition Math_round (x : float) : float :=
  match Prim2SF x with
  | S754_finite s m e =>
      if (0 <=? e)%Z then x
      else
        let n := Z.shiftr (2 * (if s then Z.neg m else Z.pos m) + 2 ^ (- e))
                          (1 - e) in
        if (n =? 0)%Z then (if s then PrimFloat.neg_zero else PrimFloat.zero)
        else of_int n
  | _ => x
  end.

(** [s.includes(needle)] *)
Fixpoint includes (needle s : string) : bool :=
  String.prefix needle s ||
  match s with
  | EmptyString => false
  | String _ s' => includes needle s'
  end.

End JS.

(** ** Pricing table (USD per 1M tokens) *)

Record rates := mkRates {
  input : float;
  output : float;
  cache_read : float;
  cache_write : float
}.

Definition PRICING : list (string * rates) :=
  [ ("claude-opus-4.6", mkRates 5 25 0.5 6.25);
    ("claude-opus-4", mkRates 15 75 1.5 18.75);
    ("claude-sonnet-4", mkRates 3 15 0.3 3.75);
    ("claude-haiku-4.5", mkRates 0.8 4 0.08 1);
    ("default", mkRates 5 25 0.5 6.25) ].

(** [obj[key]] on the own properties of an object, [None] for [undefined]. *)
Fixpoint prop {A} (obj : list (string * A)) (key : string) : option A :=
  match obj with
  | [] => None
  | (k, v) :: rest => if String.eqb k key then Some v else prop rest key
  end.

Definition PRICING_default : rates := mkRates 5 25 0.5 6.25.

(** ** Model family resolver *)

Definition getModelFamily (modelString : string) : string :=
  if JS.includes "opus-4-6" modelString then "claude-opus-4.6"
  else if JS.includes "opus" modelString then "claude-opus-4"
  else if JS.includes "haiku" modelString then "claude-haiku-4.5"
  else if JS.includes "sonnet" modelString then "claude-sonnet-4"
  else "default".

(** ** Cost calculator *)

(** The [usage] object of a log entry; every field is optional. *)
Record Usage := mkUsage {
  input_tokens : option float;
  output_tokens : option float;
  cache_creation_input_tokens : option float;
  cache_read_input_tokens : option float
}.

Definition normalInput (u : Usage) : float :=
  (JS.or0 (input_tokens u) - JS.or0 (cache_read_input_tokens u)
   - JS.or0 (cache_creation_input_tokens u))%float.

Definition calculateCost (u : Usage) (modelFamily : string) : float :=
  let p := default PRICING_default (prop PRICING modelFamily) in
  let cost :=
    (JS.Math_max 0 (normalInput u) / 1e6 * input p
     + JS.or0 (cache_creation_input_tokens u) / 1e6 * cache_write p
     + JS.or0 (cache_read_input_tokens u) / 1e6 * cache_read p
     + JS.or0 (output_tokens u) / 1e6 * output p)%float in
  (JS.Math_round (cost * 1e6) / 1e6)%float.

(** ** Session parser *)

(** [entry.message] (and [entry.data.message.message]). *)
Record Message := mkMessage {
  usage : option Usage;
  model : option string
}.

(** [entry.data.message] of the agent format. *)
Record Nested := mkNested {
  nested_requestId : option string;
  nested_message : option Message
}.

Record Data := mkData { data_message : option Nested }.

(** One line of a session log after [JSON.parse]. *)
Record Entry := mkEntry {
  timestamp : option string;
  requestId : option string;
  message : option Message;
  data : option Data
}.

(** What [requestMap] stores per request id. *)
Record Request := mkRequest {
  req_usage : Usage;
  req_model : string
}.

(** A JavaScript [Map] (and the own string keys of a plain object): keys in
    insertion order, [set] on a present key replaces the value in place. *)
Fixpoint Map_set {V} (m : list (string * V)) (k : string) (v : V)
  : list (string * V) :=
  match m with
  | [] => [(k, v)]
  | (k', v') :: rest =>
      if String.eqb k' k then (k', v) :: rest else (k', v') :: Map_set rest k v
  end.

Definition Map_values {V} (m : list (string * V)) : list V := map snd m.

(** Optional chaining [o?.f] on a property that may be absent. *)
Definition chain {A B} (o : option A) (f : A -> option B) : option B :=
  match o with
  | Some a => f a
  | None => None
  end.

Notation "o ?. f" := (chain o f) (at level 50, left associativity).

(** Truthiness of an optional String property. *)
Definition truthy_str (s : option string) : option string :=
  match s with
  | Some (String c r) => Some (String c r)
  | _ => None
  end.

Record ParseState := mkParseState {
  requestMap : list (string * Request);
  st_sessionStart : option string;
  st_sessionEnd : option string
}.

(** The body of the line loop; [None] is a line on which [JSON.parse]
    throws, which the [catch] swallows. *)
Definition parseLine (st : ParseState) (line : option Entry) : ParseState :=
  match line with
  | None => st
  | Some entry =>
      let '(sessionStart, sessionEnd) :=
        match truthy_str (timestamp entry) with
        | Some ts =>
            (match st_sessionStart st with
             | None => Some ts
             | Some s0 => Some s0
             end, Some ts)
        | None => (st_sessionStart st, st_sessionEnd st)
        end in
      let m1 :=
        match message entry ?. usage, truthy_str (requestId entry) with
        | Some u, Some rid =>
            Map_set (requestMap st) rid
              (mkRequest u (JS.or_str (message entry ?. model) "unknown"))
        | _, _ => requestMap st
        end in
      let nested := data entry ?. data_message ?. nested_message in
      let nestedReqId := data entry ?. data_message ?. nested_requestId in
      let m2 :=
        match nested ?. usage, truthy_str nestedReqId with
        | Some u, Some rid =>
            Map_set m1 rid (mkRequest u (JS.or_str (nested ?. model) "unknown"))
        | _, _ => m1
        end in
      mkParseState m2 sessionStart sessionEnd
  end.

(** [o.f + x] where the property may be [undefined] ([undefined + x] is NaN). *)
Definition num (x : option float) : float := default PrimFloat.nan x.

Record Aggregate := mkAggregate {
  totalUsage : Usage;
  totalCost : float;
  primaryModel : string;
  modelCount : list (string * nat);
  modelCost : list (string * float);
  sessionStart : option string;
  sessionEnd : option string
}.

Record Totals := mkTotals {
  acc_usage : Usage;
  acc_cost : float;
  acc_count : list (string * nat);
  acc_modelCost : list (string * float)
}.

Definition Totals_init : Totals :=
  mkTotals (mkUsage (Some 0%float) (Some 0%float) (Some 0%float) (Some 0%float))
           0%float [] [].

(** The body of the loop over [requestMap.values()]. *)
Definition addRequest (t : Totals) (r : Request) : Totals :=
  let u := req_usage r in
  let tu := acc_usage t in
  let tu' :=
    mkUsage
      (Some (num (input_tokens tu) + JS.or0 (input_tokens u))%float)
      (Some (num (output_tokens tu) + JS.or0 (output_tokens u))%float)
      (Some (num (cache_creation_input_tokens tu)
             + JS.or0 (cache_creation_input_tokens u))%float)
      (Some (num (cache_read_input_tokens tu)
             + JS.or0 (cache_read_input_tokens u))%float) in
  let family := getModelFamily (req_model r) in
  let reqCost :=
    calculateCost
      (mkUsage (Some (JS.or0 (input_tokens u)))
               (Some (JS.or0 (output_tokens u)))
               (Some (JS.or0 (cache_creation_input_tokens u)))
               (Some (JS.or0 (cache_read_input_tokens u))))
      family in
  mkTotals tu'
           (acc_cost t + reqCost)%float
           (Map_set (acc_count t) family
                    (default 0 (prop (acc_count t) family) + 1))
           (Map_set (acc_modelCost t) family
                    (JS.or0 (prop (acc_modelCost t) family) + reqCost)%float).

(** [Array.prototype.sort] with the comparator [(a, b) => b[1] - a[1]]: a
    stable sort by decreasing count. *)
Fixpoint sort_insert (x : string * nat) (sorted : list (string * nat))
  : list (string * nat) :=
  match sorted with
  | [] => [x]
  | y :: rest =>
      if (snd x <? snd y)%nat then y :: sort_insert x rest else x :: y :: rest
  end.

Definition sortByCountDesc (l : list (string * nat)) : list (string * nat) :=
  foldr sort_insert [] l.

Definition aggregate (st : ParseState) : Aggregate :=
  let t := foldl addRequest Totals_init (Map_values (requestMap st)) in
  mkAggregate (acc_usage t) (acc_cost t)
    (JS.or_str (option_map fst (head (sortByCountDesc (acc_count t))))
               "unknown")
    (acc_count t) (acc_modelCost t)
    (st_sessionStart st) (st_sessionEnd st).

(** [parseSessionFile] on the lines of the file. *)
Definition parseSessionFile (lines : list (option Entry)) : Aggregate :=
  aggregate (foldl parseLine (mkParseState [] None None) lines).

(** ** Project name of a log directory *)

(** [encoded.split("-").pop()]: what follows the last dash. *)
Fixpoint lastDashSegment (acc s : string) : string :=
  match s with
  | EmptyString => acc
  | String c r =>
      if Ascii.eqb c "-"%char then lastDashSegment "" r
      else lastDashSegment (acc ++ String c "") r
  end.

(** [extractProjectName] on [dirPath.split(path.sep)]. *)
Fixpoint extractProjectName (parts : list string) : string :=
  match parts with
  | [] => "unknown"
  | p :: rest =>
      if String.eqb p "projects" then
        match rest with
        | encoded :: _ =>
            match lastDashSegment "" encoded with
            | EmptyString => encoded
            | lastSegment => lastSegment
            end
        | [] => "unknown"
        end
      else extractProjectName rest
  end.

(** ** The log directory, the ledger and the remote store *)

(** [fs.statSync(filePath)], with the two times as [toISOString()] gives
    them. *)
Record Stat := mkStat { birthtime : string; mtime : string }.

(** A file of a project directory: its name, [fs.statSync] of it, and its
    content as [content.trim().split("\n")] with [JSON.parse] applied to
    every line ([None] where it throws). *)
Record File := mkFile {
  file_name : string;
  file_stat : Stat;
  file_lines : list (option Entry)
}.

(** An entry of the projects directory. *)
Record DirEntry := mkDirEntry {
  dir_name : string;
  isDirectory : bool;
  dir_files : list File
}.

Module Upload.
(** The body of the POST to [/rest/v1/usage_records]. *)
Record t := mk {
  machine_id : string;
  session_id : string;
  model : string;
  project_slug : string;
  input_tokens : option float;
  output_tokens : option float;
  cache_write_tokens : option float;
  cache_read_tokens : option float;
  cost_usd : float;
  session_start : string;
  session_end : string
}.
End Upload.

(** What the script can change: the ledger file [~/.claude/.usage-synced.json]
    (the object it holds, empty when the file is missing or corrupt, mapping a
    session id to the epoch milliseconds of its sync) and the requests sent to
    the remote store.  [clock] is what [Date.now()] returns, a positive number
    of milliseconds. *)
Record World := mkWorld {
  ledger_file : gmap string Z;
  posts : list Upload.t;
  clock : positive
}.

Inductive outcome := Returned | Thrown.

Definition endsWith (s suffix : string) : bool :=
  (String.length suffix <=? String.length s)%nat &&
  String.eqb
    (substring (String.length s - String.length suffix)
               (String.length suffix) s)
    suffix.

(** [path.basename(file, ext)] for a file name without directory part. *)
Definition basename (file ext : string) : string :=
  if endsWith file ext
  then substring 0 (String.length file - String.length ext) file
  else file.

(** [x === 0] on a Number property. *)
Definition is_zero_number (x : option float) : bool :=
  match x with
  | Some v => (v =? 0)%float
  | None => false
  end.

(** The locals of [syncAll] together with the world it acts on. *)
Record RunState := mkRunState {
  world : World;
  uploaded : nat;
  skipped : nat;
  grandTotal : float
}.

Section Driver.

(** [process.argv.includes("--dry-run")] and [CONFIG.MACHINE_ID]. *)
Variable DRY_RUN : bool.
Variable MACHINE_ID : string.
(** [os.homedir().split(path.sep)] *)
Variable homedir : list string.
(** Whether the remote store answers a request with [res.ok], given the
    requests it has received so far; a rejected [fetch] counts as not ok. *)
Variable remote_ok : list Upload.t -> Upload.t -> bool.

Definition getAlreadySynced (w : World) : gmap string Z := ledger_file w.

(** The names every object inherits from [Object.prototype], as
    [Object.getOwnPropertyNames(Object.prototype)] gives them.  Each holds a
    function, and [__proto__] the prototype itself: read through an object
    without an own property of that name, the value is truthy. *)
Definition Object_prototype : list string :=
  ["constructor"; "__defineGetter__"; "__defineSetter__"; "hasOwnProperty";
   "__lookupGetter__"; "__lookupSetter__"; "isPrototypeOf";
   "propertyIsEnumerable"; "toString"; "valueOf"; "__proto__";
   "toLocaleString"].

(** [synced[sessionId]] as a condition, [synced] being the plain object the
    ledger file holds: the own entry when there is one, a stored time of 0
    being falsy, and else the property the object inherits under that name,
    if any. *)
Definition isSynced (synced : gmap string Z) (sessionId : string) : bool :=
  match synced !! sessionId with
  | Some t => negb (t =? 0)%Z
  | None => existsb (String.eqb sessionId) Object_prototype
  end.

(** [synced[sessionId] = now]: the own entry is set, or created.  The one
    exception is the name [__proto__] on an object without an own entry of
    that name: the assignment reaches the setter every object inherits,
    which ignores a Number. *)
Definition assign (synced : gmap string Z) (sessionId : string) (now : Z)
    : gmap string Z :=
  match synced !! sessionId with
  | Some _ => <[sessionId := now]> synced
  | None =>
      if String.eqb sessionId "__proto__" then synced
      else <[sessionId := now]> synced
  end.

Definition markSynced (sessionId : string) (w : World) : World :=
  mkWorld (assign (ledger_file w) sessionId (Z.pos (clock w))) (posts w)
          (clock w).

Definition uploadRecord (record : Upload.t) (w : World) : outcome * World :=
  let w' := mkWorld (ledger_file w) (posts w ++ [record]) (clock w) in
  if remote_ok (posts w) record then (Returned, w') else (Thrown, w').

Definition projectParts (projectDir : string) : list string :=
  homedir ++ [".claude"; "projects"; projectDir].

(** [totalUsage.input_tokens === 0 && totalUsage.output_tokens === 0] *)
Definition emptySession (a : Aggregate) : bool :=
  is_zero_number (input_tokens (totalUsage a)) &&
  is_zero_number (output_tokens (totalUsage a)).

(** The [record] object built for a session file. *)
Definition buildRecord (projectDir : string) (file : File) : Upload.t :=
  let a := parseSessionFile (file_lines file) in
  let stat := file_stat file in
  Upload.mk MACHINE_ID (basename (file_name file) ".jsonl")
    (JS.or_str (Some (primaryModel a)) "unknown")
    (extractProjectName (projectParts projectDir))
    (input_tokens (totalUsage a))
    (output_tokens (totalUsage a))
    (cache_creation_input_tokens (totalUsage a))
    (cache_read_input_tokens (totalUsage a))
    (totalCost a)
    (JS.or_str (sessionStart a) (birthtime stat))
    (JS.or_str (sessionEnd a) (mtime stat)).

(** The body of the loop over the files of one project directory. *)
Definition syncFile (synced : gmap string Z) (projectDir : string)
    (st : RunState) (file : File) : RunState :=
  let sessionId := basename (file_name file) ".jsonl" in
  if isSynced synced sessionId then
    mkRunState (world st) (uploaded st) (S (skipped st)) (grandTotal st)
  else
    let a := parseSessionFile (file_lines file) in
    if emptySession a then
      mkRunState
        (if DRY_RUN then world st else markSynced sessionId (world st))
        (uploaded st) (S (skipped st)) (grandTotal st)
    else
      let cost := totalCost a in
      let grandTotal' := (grandTotal st + cost)%float in
      let record := buildRecord projectDir file in
      if DRY_RUN then
        mkRunState (world st) (S (uploaded st)) (skipped st) grandTotal'
      else
        match uploadRecord record (world st) with
        | (Returned, w') =>
            mkRunState (markSynced sessionId w') (S (uploaded st))
                       (skipped st) grandTotal'
        | (Thrown, w') =>
            mkRunState w' (uploaded st) (skipped st) grandTotal'
        end.

(** [readdirSync(fullProjectDir).filter((f) => f.endsWith(".jsonl"))] *)
Definition sessionFiles (d : DirEntry) : list File :=
  List.filter (fun f => endsWith (file_name f) ".jsonl") (dir_files d).

Definition syncDir (synced : gmap string Z) (st : RunState) (d : DirEntry)
  : RunState :=
  if isDirectory d then
    foldl (syncFile synced (dir_name d)) st (sessionFiles d)
  else st.

(** [syncAll]; [projects] is [None] when the projects directory does not
    exist. *)
Definition syncAll (projects : option (list DirEntry)) (w : World) : RunState :=
  match projects with
  | None => mkRunState w 0 0 0%float
  | Some projectDirs =>
      let synced := getAlreadySynced w in
      foldl (syncDir synced) (mkRunState w 0 0 0%float) projectDirs
  end.

End Driver.

(** ** The top level of the script *)

(** [process.env], the three variables the script reads. *)
Record Env := mkEnv {
  CLAUDESCOPE_SUPABASE_URL : option string;
  CLAUDESCOPE_SUPABASE_KEY : option string;
  CLAUDESCOPE_MACHINE_ID : option string
}.

Module CONFIG.
Record t := mk {
  SUPABASE_URL : string;
  SUPABASE_SERVICE_KEY : string;
  MACHINE_ID : string
}.
End CONFIG.

(** The [CONFIG] object as the script initialises it. *)
Definition initialConfig (env : Env) : CONFIG.t :=
  CONFIG.mk (JS.or_str (CLAUDESCOPE_SUPABASE_URL env) "")
            (JS.or_str (CLAUDESCOPE_SUPABASE_KEY env) "")
            (JS.or_str (CLAUDESCOPE_MACHINE_ID env) "").

(** [!s] on a String. *)
Definition falsy_str (s : string) : bool :=
  match s with
  | EmptyString => true
  | String _ _ => false
  end.

(** How the script ends: [process.exit(code)] before anything is read, or
    [syncAll] ran to its end. *)
Inductive ending := Exited (code : nat) | Ran (r : RunState).

(** The top level of the script.  [remote url key] is the remote store as
    reached with that URL and that service key. *)
Definition main (DRY_RUN : bool) (env : Env) (homedir : list string)
    (remote : string -> string -> list Upload.t -> Upload.t -> bool)
    (projects : option (list DirEntry)) (w : World) : ending :=
  let config := initialConfig env in
  let url := CONFIG.SUPABASE_URL config in
  let key := CONFIG.SUPABASE_SERVICE_KEY config in
  if DRY_RUN then
    let machine := if falsy_str (CONFIG.MACHINE_ID config) then "dry-run"
                   else CONFIG.MACHINE_ID config in
    Ran (syncAll true machine homedir (remote url key) projects w)
  else if falsy_str url || falsy_str key ||
          falsy_str (CONFIG.MACHINE_ID config) then Exited 1
  else Ran (syncAll false (CONFIG.MACHINE_ID config) homedir (remote url key)
                    projects w).

(** * The pricing sync, [scripts/sync-pricing.js] *)

Module SyncPricing.

(** A value of LiteLLM's price list, with the properties the script reads;
    a property that is [null] is read like an absent one. *)
Record Val := mkVal {
  litellm_provider : option string;
  mode : option string;
  input_cost_per_token : option float;
  output_cost_per_token : option float;
  cache_read_input_token_cost : option float;
  cache_creation_input_token_cost : option float
}.

(** [x != null] *)
Definition notNull {A} (x : option A) : bool :=
  match x with
  | Some _ => true
  | None => false
  end.

(** [x === s] on a String property. *)
Definition is_str (x : option string) (s : string) : bool :=
  match x with
  | Some v => String.eqb v s
  | None => false
  end.

Definition isDirectClaudeModel (key : string) (val : Val) : bool :=
  is_str (litellm_provider val) "anthropic" &&
  String.prefix "claude-" key &&
  is_str (mode val) "chat" &&
  notNull (input_cost_per_token val) &&
  notNull (output_cost_per_token val) &&
  negb (endsWith key "-latest") &&
  negb (String.prefix "claude-4-" key) &&
  negb (String.prefix "claude-3-7-" key).

Definition toPerMillion (perToken : option float) : float :=
  match perToken with
  | None => 0
  | Some p => (JS.Math_round (p * 1e6 * 10000) / 10000)%float
  end.

(** [\d] *)
Definition isDigit (c : ascii) : bool :=
  (48 <=? nat_of_ascii c)%nat && (nat_of_ascii c <=? 57)%nat.

(** The whole of [s] matches [-\d{8}]. *)
Definition isDateSuffix (s : string) : bool :=
  match s with
  | String c d =>
      Ascii.eqb c "-" && (String.length d =? 8)%nat &&
      forallb isDigit (list_ascii_of_string d)
  | EmptyString => false
  end.

(** [s.replace(/-\d{8}$/, "")] *)
Fixpoint stripDate (s : string) : string :=
  if isDateSuffix s then ""
  else match s with
       | EmptyString => ""
       | String c r => String c (stripDate r)
       end.

(** [s.replace(/-(\d)-(\d)/, "-$1.$2")]: the leftmost match only. *)
Fixpoint dotVersion (s : string) : string :=
  match s with
  | EmptyString => ""
  | String c r =>
      match r with
      | String a (String c' (String b rest)) =>
          if Ascii.eqb c "-" && isDigit a && Ascii.eqb c' "-" && isDigit b
          then String "-" (String a (String "." (String b rest)))
          else String c (dotVersion r)
      | _ => String c (dotVersion r)
      end
  end.

Definition getModelFamily (key : string) : string :=
  dotVersion (stripDate key).

(** A row for the [model_pricing] table. *)
Record Model := mkModel {
  model_family : string;
  input_per_m : float;
  output_per_m : float;
  cache_read_per_m : float;
  cache_write_per_m : float
}.

Definition modelOf (key : string) (val : Val) : Model :=
  mkModel (getModelFamily key)
          (toPerMillion (input_cost_per_token val))
          (toPerMillion (output_cost_per_token val))
          (toPerMillion (cache_read_input_token_cost val))
          (toPerMillion (cache_creation_input_token_cost val)).

(** The body of the loop over [Object.entries(data)]; the state is the set
    [seen] and the array [models]. *)
Definition fetchStep (st : gset string * list Model) (entry : string * Val)
    : gset string * list Model :=
  let '(key, val) := entry in
  if negb (isDirectClaudeModel key val) then st
  else
    let family := getModelFamily key in
    if bool_decide (family ∈ fst st) then st
    else ({[ family ]} ∪ fst st, (snd st ++ [modelOf key val])%list).

(** [fetchPricing] on the answer of LiteLLM: [None] when the response is
    not ok, else the entries of the price list as [Object.entries] yields
    them.  The result is [None] when the function throws. *)
Definition fetchPricing (response : option (list (string * Val)))
    : option (list Model) :=
  match response with
  | None => None
  | Some data => Some (snd (foldl fetchStep (∅, []) data))
  end.

End SyncPricing.

(** * Definitions used by the properties *)

(** ** The resolver and the formula, as the specification words them *)

(** The canonical family keys. *)
Inductive Family := Opus46 | Opus4 | Haiku45 | Sonnet4 | DefaultFamily.

Definition family_key (f : Family) : string :=
  match f with
  | Opus46 => "claude-opus-4.6"
  | Opus4 => "claude-opus-4"
  | Haiku45 => "claude-haiku-4.5"
  | Sonnet4 => "claude-sonnet-4"
  | DefaultFamily => "default"
  end.

(** The resolver as the specification words it: a priority list of
    (substring, family) pairs, the first pattern contained in the model
    string wins and a string containing none of them is "default". *)
Definition family_patterns : list (string * Family) :=
  [ ("opus-4-6", Opus46); ("opus", Opus4); ("haiku", Haiku45);
    ("sonnet", Sonnet4) ].

Fixpoint first_match (patterns : list (string * Family)) (s : string)
    : Family :=
  match patterns with
  | [] => DefaultFamily
  | (needle, f) :: rest =>
      if JS.includes needle s then f else first_match rest s
  end.

(** The formula of the specification, on Numbers. *)
Definition costFormula (inputTokens outputTokens cacheWriteTokens
                          cacheReadTokens : float) (rate : rates) : float :=
  (JS.Math_max 0 (inputTokens - cacheReadTokens - cacheWriteTokens) / 1e6
     * input rate
   + cacheWriteTokens / 1e6 * cache_write rate
   + cacheReadTokens / 1e6 * cache_read rate
   + outputTokens / 1e6 * output rate)%float.

(** Rounding to 6 decimal places. *)
Definition round6 (x : float) : float := (JS.Math_round (x * 1e6) / 1e6)%float.

(** The rate row of a family. *)
Definition rateOf (f : Family) : rates :=
  match f with
  | Opus46 => mkRates 5 25 0.5 6.25
  | Opus4 => mkRates 15 75 1.5 18.75
  | Sonnet4 => mkRates 3 15 0.3 3.75
  | Haiku45 => mkRates 0.8 4 0.08 1
  | DefaultFamily => mkRates 5 25 0.5 6.25
  end.

(** ** The writes to the request map *)

(** The [requestMap.set] calls one line makes, in order: the direct shape
    first, the nested shape second. *)
Definition lineEvents (line : option Entry) : list (string * Request) :=
  match line with
  | None => []
  | Some entry =>
      match message entry ?. usage, truthy_str (requestId entry) with
      | Some u, Some rid =>
          [(rid, mkRequest u (JS.or_str (message entry ?. model) "unknown"))]
      | _, _ => []
      end ++
      let nested := data entry ?. data_message ?. nested_message in
      match nested ?. usage,
            truthy_str (data entry ?. data_message ?. nested_requestId) with
      | Some u, Some rid =>
          [(rid, mkRequest u (JS.or_str (nested ?. model) "unknown"))]
      | _, _ => []
      end
  end%list.

Definition setEvents (lines : list (option Entry)) : list (string * Request) :=
  flat_map lineEvents lines.

(** Keep-last-write as the specification words it: the request ids in the
    order in which they first appear, and for an id the usage of the last
    event that carries it. *)
Fixpoint firstIds {V} (evs : list (string * V)) : list string :=
  match evs with
  | [] => []
  | (k, _) :: rest =>
      k :: List.filter (fun k' => negb (String.eqb k k')) (firstIds rest)
  end.

Fixpoint lastOf {V} (id : string) (evs : list (string * V)) : option V :=
  match evs with
  | [] => None
  | (k, v) :: rest =>
      match lastOf id rest with
      | Some r => Some r
      | None => if String.eqb k id then Some v else None
      end
  end.

Definition setAll {V} (m : list (string * V)) (evs : list (string * V)) :=
  foldl (fun m kv => Map_set m (fst kv) (snd kv)) m evs.

(** A log line of the direct shape. *)
Definition directEntry (ts : option string) (rid : string) (u : Usage)
    (m : option string) : Entry :=
  mkEntry ts (Some rid) (Some (mkMessage (Some u) m)) None.

(** ** Sample data *)

Definition sampleStat : Stat :=
  mkStat "2026-01-05T09:00:00.000Z" "2026-01-05T10:30:00.000Z".

Definition sonnetEntry (rid : string) (u : Usage) : Entry :=
  directEntry (Some "2026-01-05T09:15:00.000Z") rid u
              (Some "claude-sonnet-4-20250514").

(** A session with one billed request. *)
Definition busyFile : File :=
  mkFile "3f2a9c1e.jsonl" sampleStat
    [Some (sonnetEntry "req_01"
             (mkUsage (Some 1000%float) (Some 500%float) (Some 200%float)
                      (Some 100%float)))].

(** A session with a timestamp and no usage at all. *)
Definition idleFile : File :=
  mkFile "7b44d0aa.jsonl" sampleStat
    [Some (mkEntry (Some "2026-01-05T09:20:00.000Z") None None None)].

(** A session whose only tokens are cache reads. *)
Definition cacheOnlyFile (cacheRead : float) : File :=
  mkFile "c0ffee00.jsonl" sampleStat
    [Some (sonnetEntry "req_01" (mkUsage None None None (Some cacheRead)))].

Definition sampleTree : list DirEntry :=
  [mkDirEntry "-home-dev-work-claudescope" true [busyFile; idleFile]].

Definition freshWorld : World := mkWorld ∅ [] 1767603600000%positive.

Definition accepting (history : list Upload.t) (r : Upload.t) : bool := true.
Definition rejecting (history : list Upload.t) (r : Upload.t) : bool := false.

(** ** Binary64: signs and token counts *)

Definition SFnonneg (x : spec_float) : bool :=
  match x with
  | S754_zero _ => true
  | S754_infinity s | S754_finite s _ _ => negb s
  | S754_nan => false
  end.

(** The result of rounding a non-negative mantissa carries the given sign. *)
Definition has_sign (s : bool) (x : spec_float) : Prop :=
  match x with
  | S754_zero s' | S754_infinity s' | S754_finite s' _ _ => s' = s
  | S754_nan => False
  end.

(** A finite non-negative Number: what a token count is. *)
Definition tokenCount (v : float) : bool :=
  (0 <=? v)%float && negb (PrimFloat.is_infinity v).

Definition SFcount (x : spec_float) : bool :=
  match x with
  | S754_zero _ | S754_finite false _ _ => true
  | _ => false
  end.

Definition countField (o : option float) : bool :=
  match o with
  | Some v => tokenCount v
  | None => true
  end.

Definition nonneg (x : float) : Prop := SFnonneg (Prim2SF x) = true.

(** A positive finite Number, as the rates and [1e6] are. *)
Definition posFinite (c : float) : bool :=
  match Prim2SF c with
  | S754_finite false _ _ => true
  | _ => false
  end.

(** The token counts of a usage object are finite and non-negative (an
    absent count is read as 0). *)
Definition tokenCounts (u : Usage) : bool :=
  countField (input_tokens u) && countField (output_tokens u) &&
  countField (cache_creation_input_tokens u) &&
  countField (cache_read_input_tokens u).

(** The input-token component of the cost. *)
Definition inputComponent (u : Usage) (p : rates) : float :=
  (JS.Math_max 0 (normalInput u) / 1e6 * input p)%float.

(** ** Binary64: rounding *)

Local Open Scope Z_scope.

(** The round bit and the sticky bit that place [N / D] between two
    integers: exact, below, at or above the half. *)
Definition loc_bits (N D : Z) : bool * bool :=
  let r := N mod D in
  if r =? 0 then (false, false)
  else match 2 * r ?= D with
       | Lt => (false, true)
       | Eq => (true, false)
       | Gt => (true, true)
       end.

(** The record holds the quotient of [N] by [D] and the place of the
    remainder. *)
Definition located (N D : Z) (mrs : shr_record) : Prop :=
  shr_m mrs = N / D /\ (shr_r mrs, shr_s mrs) = loc_bits N D.

(** The integer nearest to [N / D], the even one in a tie. *)
Definition rne (N D : Z) : Z :=
  let q := N / D in
  let r := N mod D in
  if r =? 0 then q
  else match 2 * r ?= D with
       | Lt => q
       | Eq => if Z.even q then q else q + 1
       | Gt => q + 1
       end.

(** The float of a mantissa and an exponent, with overflow to infinity. *)
Definition build (s : bool) (m e : Z) : spec_float :=
  match m with
  | Z0 => S754_zero s
  | Z.pos p => if e <=? emax - prec then S754_finite s p e else S754_infinity s
  | Z.neg _ => S754_nan
  end.

(** The rounding of [N / D * 2 ^ e] that [binary_round_aux] computes from
    the quotient and the place of the remainder. *)
Definition bra (s : bool) (N D e : Z) : spec_float :=
  let n := Z.max 0 (fexp prec emax (Zdigits2 (N / D) + e) - e) in
  let m1 := rne N (D * 2 ^ n) in
  let e1 := e + n in
  let n2 := Z.max 0 (fexp prec emax (Zdigits2 m1 + e1) - e1) in
  build s (m1 / 2 ^ n2) (e1 + n2).

(** The quotient [N / D] is at least as precise as the format asks at
    exponent [e]. *)
Definition enough (N D e : Z) : Prop :=
  e <= fexp prec emax (Zdigits2 (N / D) + e).

(** The exponent the rounding happens at. *)
Definition target (N D e : Z) : Z := fexp prec emax (Zdigits2 (N / D) + e).

(** A mantissa of at most 53 digits, or 2^53 after a carry, at exponent [et]. *)
Definition canon (s : bool) (m et : Z) : spec_float :=
  if m <? 2 ^ 53 then build s m et else build s (2 ^ 52) (et + 1).

(** The float nearest to [z] units of 2^-1074. *)
Definition RNZ (z : Z) : spec_float :=
  binary_normalize prec emax z (-1074) false.

(** The value of a finite float in units of 2^-1074. *)
Definition units (x : spec_float) : Z :=
  match x with
  | S754_finite s m e => cond_Zopp s (Z.pos m * 2 ^ (e + 1074))
  | _ => 0
  end.

(** Zeros and finite floats. *)
Definition SFfin (x : spec_float) : bool :=
  match x with
  | S754_zero _ | S754_finite _ _ _ => true
  | _ => false
  end.

(** The same number: equal, or two zeros. *)
Definition SFeqv (a b : spec_float) : Prop :=
  a = b \/ (exists s s', a = S754_zero s /\ b = S754_zero s').

(** The exponent at which [SFdiv] computes the quotient of the mantissas. *)
Definition div_exp (m1 : positive) (e1 : Z) (m2 : positive) (e2 : Z) : Z :=
  Z.min (fexp prec emax (Zdigits2 (Z.pos m1) + e1 - (Zdigits2 (Z.pos m2) + e2)))
        (e1 - e2).

Definition SFmax0 (x : spec_float) : spec_float :=
  if SFltb (S754_zero false) x then x else S754_zero false.

(** The integer nearest to [u] units, the upper one in a tie, in units. *)
Definition round_units (u : Z) : Z := (2 * u + 2 ^ 1074) / 2 ^ 1075 * 2 ^ 1074.

Definition SFround (x : spec_float) : spec_float :=
  match x with
  | S754_finite false m e =>
      if 0 <=? e then x else RNZ (round_units (units x))
  | _ => x
  end.

Local Close Scope Z_scope.

(** ** Order and exact values of Numbers *)

(** [a <= b] on Numbers. *)
Definition le (a b : float) : Prop := (a <=? b)%float = true.

(** The usage object with one count replaced. *)
Definition withInput (u : Usage) (v : float) : Usage :=
  mkUsage (Some v) (output_tokens u) (cache_creation_input_tokens u)
          (cache_read_input_tokens u).

Definition withOutput (u : Usage) (v : float) : Usage :=
  mkUsage (input_tokens u) (Some v) (cache_creation_input_tokens u)
          (cache_read_input_tokens u).

Definition withCacheWrite (u : Usage) (v : float) : Usage :=
  mkUsage (input_tokens u) (output_tokens u) (Some v)
          (cache_read_input_tokens u).

Definition withCacheRead (u : Usage) (v : float) : Usage :=
  mkUsage (input_tokens u) (output_tokens u) (cache_creation_input_tokens u)
          (Some v).

(** The exact value of a finite Number, in units of 2^-1074. *)
Definition exact (x : float) : Z := units (Prim2SF x).

(** The Number [x] is the whole number [K], below 2^40. *)
Definition wholeCount (x : float) (K : Z) : Prop :=
  (0 <= K < 2 ^ 40)%Z /\ exact x = (K * 2 ^ 1074)%Z.

(** ** Cache-read tokens that cost nothing *)

(** The least number of cache-read tokens that cost something on their
    own at the rates of a family. *)
Definition paidCacheReads (f : Family) : float :=
  match f with
  | Haiku45 => 7
  | Sonnet4 => 2
  | Opus46 | Opus4 | DefaultFamily => 1
  end.

(** The largest number of cache-read tokens that cost nothing on their
    own. *)
Definition freeCacheReads (f : Family) : float :=
  match f with
  | Haiku45 => 6
  | Sonnet4 => 1
  | Opus46 | Opus4 | DefaultFamily => 0
  end.

(** ** What a log contributes *)

(** The truthy timestamp of a line, when it parses and has one. *)
Definition timestampOf (line : option Entry) : option string :=
  line ?. (fun entry => truthy_str (timestamp entry)).

(** The truthy timestamps of a log, in the order of its lines. *)
Definition timestamps (lines : list (option Entry)) : list string :=
  omap timestampOf lines.

(** Whether [JSON.parse] accepts the line. *)
Definition parses (line : option Entry) : bool :=
  match line with
  | Some _ => true
  | None => false
  end.

(** The requests of a family among the deduplicated requests. *)
Definition requestsOf (family : string) (rs : list Request) : list Request :=
  List.filter (fun r => String.eqb (getModelFamily (req_model r)) family) rs.

(** The running sum [total += usage.field || 0] over the requests. *)
Definition sumOf (field : Usage -> option float) (total : float)
    (rs : list Request) : float :=
  foldl (fun acc r => (acc + JS.or0 (field (req_usage r)))%float) total rs.

(** The running sum [totalCost += reqCost], each request priced on its own
    usage at the rates of its own model's family. *)
Definition costOf (total : float) (rs : list Request) : float :=
  foldl (fun acc r =>
           (acc + calculateCost (req_usage r)
                                (getModelFamily (req_model r)))%float)
        total rs.

(** The deduplicated requests of a log, in the order [requestMap.values()]
    yields them. *)
Definition requestsOfLog (lines : list (option Entry)) : list Request :=
  Map_values (requestMap (foldl parseLine (mkParseState [] None None) lines)).

(** A zero of either sign. *)
Definition SFzero (x : spec_float) : bool :=
  match x with
  | S754_zero _ => true
  | _ => false
  end.

(** ** What a run visits and sends *)

(** The session files of a directory that a run neither finds in the ledger
    it read nor classifies as empty. *)
Definition pending (synced : gmap string Z) (d : DirEntry) : list File :=
  List.filter
    (fun f => negb (isSynced synced (basename (file_name f) ".jsonl")) &&
              negb (emptySession (parseSessionFile (file_lines f))))
    (sessionFiles d).

(** The records of the pending files of the tree, directory by directory. *)
Definition pendingRecords (MACHINE_ID : string) (homedir : list string)
    (synced : gmap string Z) (projects : list DirEntry) : list Upload.t :=
  flat_map
    (fun d => if isDirectory d
              then map (buildRecord MACHINE_ID homedir (dir_name d))
                       (pending synced d)
              else [])
    projects.

(** The number of session files a run visits. *)
Definition sessionCount (projects : list DirEntry) : nat :=
  list_sum (map (fun d => if isDirectory d then length (sessionFiles d)
                          else 0)
                projects).

(** The running sum [grandTotal += cost] over records. *)
Definition sumCost (total : float) (records : list Upload.t) : float :=
  foldl (fun acc r => (acc + Upload.cost_usd r)%float) total records.

(** What the locals and the world of a run are after some files, against
    what they were before: [n] files visited, [recs] the records of the
    pending ones among them. *)
Definition advanced (remote_ok : list Upload.t -> Upload.t -> bool)
    (dry : bool) (st st' : RunState) (n : nat) (recs : list Upload.t)
    : Prop :=
  skipped st' + length recs = skipped st + n /\
  grandTotal st' = sumCost (grandTotal st) recs /\
  (if dry
   then uploaded st' = uploaded st + length recs /\ world st' = world st
   else posts (world st') = (posts (world st) ++ recs)%list /\
        uploaded st <= uploaded st' <= uploaded st + length recs /\
        ((forall history r, remote_ok history r = true) ->
         uploaded st' = uploaded st + length recs) /\
        ((forall history r, remote_ok history r = false) ->
         uploaded st' = uploaded st)).

(** ** The price list *)

(** The entries of the price list that the filter accepts, each with the
    family and the row made of it. *)
Definition acceptedRows (data : list (string * SyncPricing.Val))
    : list (string * SyncPricing.Model) :=
  map (fun kv => (SyncPricing.getModelFamily (fst kv),
                  SyncPricing.modelOf (fst kv) (snd kv)))
      (List.filter (fun kv => SyncPricing.isDirectClaudeModel (fst kv) (snd kv))
                   data).

(** Eight digits. *)
Definition isDate (d : string) : bool :=
  (String.length d =? 8)%nat &&
  forallb SyncPricing.isDigit (list_ascii_of_string d).

(** A match of [-(\d)-(\d)] starts at the head of [s]. *)
Definition versionHere (s : string) : bool :=
  match s with
  | String c (String a (String c' (String b _))) =>
      Ascii.eqb c "-" && SyncPricing.isDigit a && Ascii.eqb c' "-" &&
      SyncPricing.isDigit b
  | _ => false
  end.

(** * Properties *)

(** ** The model family resolver *)

Lemma prefix_app (n t : string) : String.prefix n (n ++ t) = true.
Proof.
  induction n as [|c n IH]; simpl.
  - now destruct t.
  - destruct (Ascii.ascii_dec c c); [exact IH | congruence].
Qed.

Lemma prefix_inv (n s : string) :
  String.prefix n s = true -> exists t, s = n ++ t.
Proof.
  revert s; induction n as [|c n IH]; intros s H.
  - now exists s.
  - destruct s as [|d s]; simpl in H; [discriminate|].
    destruct (Ascii.ascii_dec c d) as [->|]; [|discriminate].
    destruct (IH _ H) as [t ->]. now exists t.
Qed.

(** [includes] is substring containment. *)
Lemma includes_spec (n s : string) :
  JS.includes n s = true <-> exists a b, s = a ++ n ++ b.
Proof.
  split.
  - induction s as [|c s IH]; cbn [JS.includes]; intros H.
    + rewrite orb_false_r in H. destruct (prefix_inv _ _ H) as [t ->].
      now exists "", t.
    + apply orb_true_iff in H as [H|H].
      * destruct (prefix_inv _ _ H) as [t ->]. now exists "", t.
      * destruct (IH H) as (a & b & ->). now exists (String c a), b.
  - intros (a & b & ->). induction a as [|c a IH].
    + change ("" ++ n ++ b) with (n ++ b).
      destruct (n ++ b) eqn:E; cbn [JS.includes]; rewrite <- E;
        now rewrite prefix_app.
    + change (String c a ++ n ++ b) with (String c (a ++ n ++ b)).
      cbn [JS.includes]. rewrite IH. apply orb_true_r.
Qed.

Lemma family_key_inj (f g : Family) : family_key f = family_key g -> f = g.
Proof.
  destruct f, g; simpl; intros H; first [reflexivity | discriminate H].
Qed.

Lemma getModelFamily_first_match (s : string) :
  getModelFamily s = family_key (first_match family_patterns s).
Proof.
  unfold getModelFamily, family_patterns, first_match.
  repeat destruct (JS.includes _ s); reflexivity.
Qed.

(** C6. The resolver is total: every model string resolves to exactly one of
    the five family keys, namely the family of the first pattern, in the
    order opus-4-6, opus, haiku, sonnet, that the string contains, and to
    "default" when it contains none; a string containing "opus-4-6" resolves
    to claude-opus-4.6 although it also contains "opus". *)
Theorem getModelFamily_total_first_match :
  (forall s : string,
      (exists f : Family,
          getModelFamily s = family_key f /\
          forall g : Family, getModelFamily s = family_key g -> g = f) /\
      getModelFamily s = family_key (first_match family_patterns s)) /\
  (forall a b : string,
      getModelFamily (a ++ "opus-4-6" ++ b) = "claude-opus-4.6") /\
  (forall s : string,
      (forall needle f, In (needle, f) family_patterns ->
                        ~ exists a b, s = a ++ needle ++ b) ->
      getModelFamily s = "default").
Proof.
  split; [|split].
  - intros s. split; [|apply getModelFamily_first_match].
    exists (first_match family_patterns s). split.
    + apply getModelFamily_first_match.
    + intros g Hg. rewrite getModelFamily_first_match in Hg.
      symmetry. now apply family_key_inj.
  - intros a b. unfold getModelFamily.
    now replace (JS.includes "opus-4-6" (a ++ "opus-4-6" ++ b)) with true
      by (symmetry; apply includes_spec; eauto).
  - intros s H. unfold getModelFamily.
    assert (Hn : forall needle f, In (needle, f) family_patterns ->
                                  JS.includes needle s = false).
    { intros needle f Hin.
      destruct (JS.includes needle s) eqn:E; [|reflexivity].
      exfalso. apply (H _ _ Hin). now apply includes_spec. }
    rewrite (Hn "opus-4-6" Opus46), (Hn "opus" Opus4), (Hn "haiku" Haiku45),
      (Hn "sonnet" Sonnet4); simpl; auto 10.
Qed.

(** ** The cost calculator *)

Lemma PRICING_family (f : Family) :
  default PRICING_default (prop PRICING (family_key f)) = rateOf f.
Proof. now destruct f. Qed.

(** ** The ingestion driver *)

Section DriverFacts.

Variable MACHINE_ID : string.
Variable homedir : list string.
Variable remote_ok : list Upload.t -> Upload.t -> bool.

Local Abbreviation syncFile' dry := (syncFile dry MACHINE_ID homedir remote_ok).
Local Abbreviation syncDir' dry := (syncDir dry MACHINE_ID homedir remote_ok).
Local Abbreviation syncAll' dry := (syncAll dry MACHINE_ID homedir remote_ok).
Local Abbreviation record_of := (buildRecord MACHINE_ID homedir).
Local Abbreviation sid_of f := (basename (file_name f) ".jsonl").

(** *** Invariants of the two loops *)

(** A property of the run state that every file step preserves holds after
    a directory and after the whole run. *)
Lemma foldl_syncFile_inv dry synced dir (P : RunState -> Prop) files :
  (forall st f, In f files -> P st -> P (syncFile' dry synced dir st f)) ->
  forall st, P st -> P (foldl (syncFile' dry synced dir) st files).
Proof.
  induction files as [|f files IH]; intros Hstep st Hst; simpl; [exact Hst|].
  apply IH.
  - intros st' f' Hin. apply Hstep. now right.
  - apply Hstep; [now left | exact Hst].
Qed.

Lemma syncDir_inv dry synced (P : RunState -> Prop) d :
  (forall st f, isDirectory d = true -> In f (sessionFiles d) -> P st ->
                P (syncFile' dry synced (dir_name d) st f)) ->
  forall st, P st -> P (syncDir' dry synced st d).
Proof.
  intros Hstep st Hst. unfold syncDir.
  destruct (isDirectory d) eqn:Hd; [|exact Hst].
  apply foldl_syncFile_inv; auto.
Qed.

Lemma syncAll_inv dry (P : RunState -> Prop) projects w :
  (forall d st f, In d projects -> isDirectory d = true ->
                  In f (sessionFiles d) -> P st ->
                  P (syncFile' dry (ledger_file w) (dir_name d) st f)) ->
  P (mkRunState w 0 0 0%float) ->
  P (syncAll' dry (Some projects) w).
Proof.
  unfold syncAll, getAlreadySynced.
  generalize (mkRunState w 0 0 0%float) as st.
  induction projects as [|d ds IH]; intros st Hstep Hst; simpl; [exact Hst|].
  apply IH.
  - intros d' st' f Hin. apply Hstep. now right.
  - apply syncDir_inv; [|exact Hst]. intros st' f Hd Hf. apply Hstep; auto.
    now left.
Qed.

(** *** Single steps *)

Lemma syncFile_skip dry synced dir st f :
  isSynced synced (sid_of f) = true ->
  world (syncFile' dry synced dir st f) = world st.
Proof. unfold syncFile. now intros ->. Qed.

Lemma syncFile_dry synced dir st f :
  world (syncFile' true synced dir st f) = world st.
Proof.
  unfold syncFile. destruct (isSynced _ _); [reflexivity|].
  now destruct (emptySession _).
Qed.

Lemma syncFile_empty synced dir st f :
  isSynced synced (sid_of f) = false ->
  emptySession (parseSessionFile (file_lines f)) = true ->
  world (syncFile' false synced dir st f) = markSynced (sid_of f) (world st).
Proof. unfold syncFile. now intros -> ->. Qed.

Lemma syncFile_upload synced dir st f :
  isSynced synced (sid_of f) = false ->
  emptySession (parseSessionFile (file_lines f)) = false ->
  world (syncFile' false synced dir st f) =
  let w := world st in
  let w' := mkWorld (ledger_file w) (posts w ++ [record_of dir f]) (clock w) in
  if remote_ok (posts w) (record_of dir f)
  then markSynced (sid_of f) w' else w'.
Proof.
  unfold syncFile, uploadRecord. intros -> ->. simpl.
  now destruct (remote_ok _ _).
Qed.

(** What an assignment leaves in the object. *)
Lemma assign_other synced sid sid' now :
  sid <> sid' -> assign synced sid' now !! sid = synced !! sid.
Proof.
  intros Hne. unfold assign.
  destruct (synced !! sid'); [now rewrite lookup_insert_ne|].
  destruct (String.eqb sid' "__proto__"); [reflexivity|].
  now rewrite lookup_insert_ne.
Qed.

Lemma assign_own synced sid now :
  sid <> "__proto__" \/ is_Some (synced !! sid) ->
  assign synced sid now = <[sid := now]> synced.
Proof.
  intros H. unfold assign. destruct (synced !! sid) as [t|]; [reflexivity|].
  destruct (String.eqb_spec sid "__proto__") as [->|_]; [|reflexivity].
  destruct H as [H|[t H]]; [now elim H | discriminate].
Qed.

Lemma assign_keeps synced sid sid' now :
  is_Some (synced !! sid) -> is_Some (assign synced sid' now !! sid).
Proof.
  intros H. destruct (decide (sid' = sid)) as [->|Hne].
  - rewrite assign_own by now right. rewrite lookup_insert_eq. eauto.
  - now rewrite assign_other.
Qed.

Lemma isSynced_assign synced sid (now : positive) :
  isSynced (assign synced sid (Z.pos now)) sid = true.
Proof.
  unfold isSynced, assign. destruct (synced !! sid) as [t|] eqn:E.
  - now rewrite lookup_insert_eq.
  - destruct (String.eqb_spec sid "__proto__") as [->|_].
    + now rewrite E.
    + now rewrite lookup_insert_eq.
Qed.

Lemma isSynced_markSynced sid w :
  isSynced (ledger_file (markSynced sid w)) sid = true.
Proof. apply isSynced_assign. Qed.

Lemma isSynced_markSynced_mono sid sid' w :
  isSynced (ledger_file w) sid = true ->
  isSynced (ledger_file (markSynced sid' w)) sid = true.
Proof.
  intros H. destruct (decide (sid' = sid)) as [->|Hne].
  - apply isSynced_markSynced.
  - unfold isSynced, markSynced in *. cbn [ledger_file].
    now rewrite assign_other.
Qed.

(** Once a session counts as synced in the ledger file it stays so. *)
Lemma syncFile_ledger_mono dry synced dir st f sid :
  isSynced (ledger_file (world st)) sid = true ->
  isSynced (ledger_file (world (syncFile' dry synced dir st f))) sid = true.
Proof.
  intros H. unfold syncFile, uploadRecord.
  destruct (isSynced synced _); [exact H|].
  destruct (emptySession _).
  - destruct dry; cbn [world]; [exact H|]. now apply isSynced_markSynced_mono.
  - destruct dry; cbn [world]; [exact H|].
    destruct (remote_ok _ _); cbn [world]; [|exact H].
    apply isSynced_markSynced_mono. exact H.
Qed.

(** A step that holds for one element of a fold carries to the end of the
    fold when the later steps keep it. *)
Lemma foldl_reaches {A B} (step : A -> B -> A) (Inv Q : A -> Prop) l x :
  In x l ->
  (forall a b, In b l -> Inv a -> Inv (step a b)) ->
  (forall a, Inv a -> Q (step a x)) ->
  (forall a b, In b l -> Q a -> Q (step a b)) ->
  forall a, Inv a -> Q (foldl step a l).
Proof.
  induction l as [|b l IH]; intros Hin HInv Hx HQ a Ha; [destruct Hin|].
  simpl. destruct Hin as [->|Hin].
  - assert (Hq : Q (step a x)) by auto.
    revert Hq. generalize (step a x) as a'.
    assert (HQ' : forall a b, In b l -> Q a -> Q (step a b))
      by (intros; apply HQ; [now right | assumption]).
    clear -HQ'. induction l as [|c l IHl]; intros a' Hq; simpl; [exact Hq|].
    apply IHl.
    + intros a0 b0 Hb. apply HQ'. now right.
    + apply HQ'; [now left | exact Hq].
  - apply IH; auto.
    + intros a0 b0 Hb. apply HInv. now right.
    + intros a0 b0 Hb. apply HQ. now right.
    + apply HInv; [now left | exact Ha].
Qed.

(** In a real run, a file that is skipped, empty, or uploaded with success
    leaves its session synced in the ledger file, provided the ledger file
    still holds what the run read at its start. *)
Lemma syncFile_marks synced dir st f :
  (forall sid, isSynced synced sid = true ->
               isSynced (ledger_file (world st)) sid = true) ->
  emptySession (parseSessionFile (file_lines f)) = true \/
  remote_ok (posts (world st)) (record_of dir f) = true ->
  isSynced (ledger_file (world (syncFile' false synced dir st f))) (sid_of f)
  = true.
Proof.
  intros Hsub Hok.
  destruct (isSynced synced (sid_of f)) eqn:Hs.
  - rewrite syncFile_skip by exact Hs. now apply Hsub.
  - destruct (emptySession (parseSessionFile (file_lines f))) eqn:He.
    + rewrite syncFile_empty by assumption. apply isSynced_markSynced.
    + destruct Hok as [Hok|Hok]; [discriminate|].
      rewrite syncFile_upload by assumption. cbv zeta. rewrite Hok.
      apply isSynced_markSynced.
Qed.

(** What a whole real run leaves in the ledger file for a session file of
    the tree whose step marks it. *)
Lemma syncAll_marks projects w d f :
  In d projects -> isDirectory d = true -> In f (sessionFiles d) ->
  (forall st, emptySession (parseSessionFile (file_lines f)) = true \/
              remote_ok (posts (world st)) (record_of (dir_name d) f) = true) ->
  isSynced (ledger_file (world (syncAll' false (Some projects) w))) (sid_of f)
  = true.
Proof.
  intros Hd Hdir Hf Hok. unfold syncAll, getAlreadySynced.
  set (Inv := fun st : RunState =>
    forall sid, isSynced (ledger_file w) sid = true ->
                isSynced (ledger_file (world st)) sid = true).
  set (Q := fun st : RunState =>
    isSynced (ledger_file (world st)) (sid_of f) = true).
  apply (foldl_reaches _ Inv Q projects d Hd).
  - intros st d' _ HI. apply syncDir_inv; [|exact HI].
    intros st' f' _ _ HI' sid Hsid. apply syncFile_ledger_mono. now apply HI'.
  - intros st HI. unfold syncDir. rewrite Hdir.
    apply (foldl_reaches _ Inv Q (sessionFiles d) f Hf).
    + intros st' f' _ HI' sid Hsid. apply syncFile_ledger_mono. now apply HI'.
    + intros st' HI'. apply syncFile_marks; [exact HI' | apply Hok].
    + intros st' f' _ HQ. now apply syncFile_ledger_mono.
    + exact HI.
  - intros st d' _ HQ. apply syncDir_inv; [|exact HQ].
    intros st' f' _ _ HQ'. now apply syncFile_ledger_mono.
  - intros sid Hsid. exact Hsid.
Qed.

(** *** What a step and a run do to the ledger and the remote store *)

(** C9. In dry-run mode no step of the driver changes the ledger file or
    sends a request, whether the session is empty or not, and so a whole
    dry run leaves the ledger file and the remote store as they were. *)
Theorem dry_run_touches_nothing :
  (forall synced dir st f,
      world (syncFile true MACHINE_ID homedir remote_ok synced dir st f)
      = world st) /\
  (forall projects w,
      world (syncAll true MACHINE_ID homedir remote_ok projects w) = w).
Proof.
  split; [intros; apply syncFile_dry|].
  intros [projects|] w; [|reflexivity].
  apply (syncAll_inv true (fun st => world st = w)); [|reflexivity].
  intros d st f _ _ _ <-. apply syncFile_dry.
Qed.

End DriverFacts.

(** C1. A session that the ledger read at the start of a run holds is
    skipped: the run sends no request for it and leaves its ledger entry as it
    was.  Consequently, after a real run in which every upload succeeded, a
    second run over the same log directory sends no request at all. *)
Theorem synced_sessions_are_skipped :
  forall (MACHINE_ID : string) (homedir : list string)
         (remote_ok : list Upload.t -> Upload.t -> bool),
  (forall dry projects w sid,
      isSynced (ledger_file w) sid = true ->
      let r := syncAll dry MACHINE_ID homedir remote_ok projects w in
      ledger_file (world r) !! sid = ledger_file w !! sid /\
      exists sent, posts (world r) = (posts w ++ sent)%list /\
                   Forall (fun rec => Upload.session_id rec <> sid) sent) /\
  (forall projects w,
      (forall history rec, remote_ok history rec = true) ->
      let r1 := syncAll false MACHINE_ID homedir remote_ok (Some projects) w in
      forall dry' machine' home' remote' w2,
        ledger_file w2 = ledger_file (world r1) ->
        world (syncAll dry' machine' home' remote' (Some projects) w2) = w2).
Proof.
  intros MACHINE_ID homedir remote_ok. split.
  - intros dry [projects|] w sid Hsid; cbv zeta.
    2:{ split; [reflexivity|]. exists []. now rewrite app_nil_r. }
    apply (syncAll_inv MACHINE_ID homedir remote_ok dry (fun st =>
      ledger_file (world st) !! sid = ledger_file w !! sid /\
      exists sent, posts (world st) = (posts w ++ sent)%list /\
                   Forall (fun rec => Upload.session_id rec <> sid) sent)).
    2:{ split; [reflexivity|]. exists []. now rewrite app_nil_r. }
    intros d st f _ _ _ [Hl (sent & Hp & Hall)].
    destruct (decide (basename (file_name f) ".jsonl" = sid)) as [Heq|Hne].
    { rewrite syncFile_skip by now rewrite Heq. eauto. }
    unfold syncFile, uploadRecord.
    destruct (isSynced (ledger_file w) (basename (file_name f) ".jsonl"));
      [cbn [world]; eauto|].
    destruct (emptySession _).
    + destruct dry; cbn [world]; [eauto|]. split; [|eauto].
      unfold markSynced; cbn [ledger_file].
      now rewrite assign_other by congruence.
    + destruct dry; cbn [world]; [eauto|].
      set (record := buildRecord MACHINE_ID homedir (dir_name d) f).
      assert (Hall' : Forall (fun rec => Upload.session_id rec <> sid)
                             (sent ++ [record])%list).
      { apply Forall_app. split; [exact Hall|]. now repeat constructor. }
      destruct (remote_ok _ _); cbn [world].
      * unfold markSynced; cbn [ledger_file posts].
        rewrite assign_other by congruence.
        split; [exact Hl|]. exists (sent ++ [record])%list.
        now rewrite Hp, app_assoc.
      * cbn [ledger_file posts]. split; [exact Hl|].
        exists (sent ++ [record])%list. now rewrite Hp, app_assoc.
  - intros projects w Hok r1 dry' machine' home' remote' w2 Hw2.
    apply (syncAll_inv machine' home' remote' dry' (fun st => world st = w2));
      [|reflexivity].
    intros d st f Hd Hdir Hf <-. apply syncFile_skip.
    rewrite Hw2. subst r1. apply syncAll_marks with d; auto.
Qed.

(** ** The session parser *)

Lemma requestMap_parseLine st line :
  requestMap (parseLine st line) = setAll (requestMap st) (lineEvents line).
Proof.
  destruct line as [entry|]; [|reflexivity].
  unfold parseLine, lineEvents, setAll.
  destruct (truthy_str (timestamp entry)); cbn [requestMap];
    destruct (message entry ?. usage), (truthy_str (requestId entry));
    destruct (data entry ?. data_message ?. nested_message ?. usage),
      (truthy_str (data entry ?. data_message ?. nested_requestId));
    reflexivity.
Qed.

Lemma setAll_app {V} (m : list (string * V)) e1 e2 :
  setAll m (e1 ++ e2) = setAll (setAll m e1) e2.
Proof. apply foldl_app. Qed.

Lemma requestMap_lines lines st :
  requestMap (foldl parseLine st lines) =
  setAll (requestMap st) (setEvents lines).
Proof.
  revert st; induction lines as [|l lines IH]; intros st; [reflexivity|].
  simpl. rewrite IH, requestMap_parseLine. symmetry. apply setAll_app.
Qed.

Lemma prop_Map_set {V} (m : list (string * V)) k v id :
  prop (Map_set m k v) id = if String.eqb k id then Some v else prop m id.
Proof.
  induction m as [|[k' v'] m IH]; simpl.
  - reflexivity.
  - destruct (String.eqb_spec k' k) as [->|Hk]; simpl.
    + now destruct (String.eqb k id).
    + rewrite IH. destruct (String.eqb_spec k' id) as [->|]; [|reflexivity].
      destruct (String.eqb_spec k id); congruence.
Qed.

Lemma keys_Map_set {V} (m : list (string * V)) k v :
  map fst (Map_set m k v) =
  (map fst m ++ if existsb (String.eqb k) (map fst m) then [] else [k])%list.
Proof.
  induction m as [|[k' v'] m IH]; simpl; [reflexivity|].
  rewrite (String.eqb_sym k k').
  destruct (String.eqb k' k); simpl.
  - now rewrite app_nil_r.
  - now rewrite IH.
Qed.

Lemma lastOf_snoc {V} (evs : list (string * V)) k v id :
  lastOf id (evs ++ [(k, v)]) =
  if String.eqb k id then Some v else lastOf id evs.
Proof.
  induction evs as [|[k' v'] evs IH]; simpl; [reflexivity|].
  rewrite IH. now destruct (String.eqb k id).
Qed.

Lemma existsb_filter_ne k k0 (l : list string) :
  k <> k0 ->
  existsb (String.eqb k) (List.filter (fun k' => negb (String.eqb k0 k')) l) =
  existsb (String.eqb k) l.
Proof.
  intros Hne. induction l as [|x l IH]; simpl; [reflexivity|].
  destruct (String.eqb_spec k0 x) as [<-|Hx]; simpl.
  - rewrite IH. destruct (String.eqb_spec k k0); [congruence|reflexivity].
  - now rewrite IH.
Qed.

Lemma firstIds_snoc {V} (evs : list (string * V)) k v :
  firstIds (evs ++ [(k, v)]) =
  (firstIds evs ++
   if existsb (String.eqb k) (firstIds evs) then [] else [k])%list.
Proof.
  induction evs as [|[k0 v0] evs IH]; simpl; [reflexivity|].
  rewrite IH, List.filter_app. f_equal.
  destruct (String.eqb_spec k k0) as [->|Hne]; simpl.
  - destruct (existsb _ _); simpl; [now rewrite app_nil_r|].
    rewrite String.eqb_refl. simpl. now rewrite app_nil_r.
  - rewrite existsb_filter_ne by exact Hne.
    destruct (existsb _ _); simpl; [reflexivity|].
    destruct (String.eqb_spec k0 k); [congruence|reflexivity].
Qed.

(** The map after a sequence of [set] calls on the empty map. *)
Lemma setAll_keep_last {V} (evs : list (string * V)) :
  map fst (setAll [] evs) = firstIds evs /\
  forall id, prop (setAll [] evs) id = lastOf id evs.
Proof.
  induction evs as [|[k v] evs [IHk IHv]] using rev_ind; [now split|].
  rewrite setAll_app. simpl. split.
  - now rewrite keys_Map_set, IHk, firstIds_snoc.
  - intros id. now rewrite prop_Map_set, IHv, lastOf_snoc.
Qed.

Lemma firstIds_NoDup {V} (evs : list (string * V)) : List.NoDup (firstIds evs).
Proof.
  induction evs as [|[k v] evs IH]; simpl; constructor.
  - rewrite List.filter_In, String.eqb_refl. now intros [_ ?].
  - now apply List.NoDup_filter.
Qed.

(** *** Numbers: zero and the defaulted token counts *)

Lemma Prim2SF_zero : Prim2SF 0%float = S754_zero false.
Proof. reflexivity. Qed.

(** A truthy Number is an infinity or a finite non-zero value. *)
Lemma truthy_shape v :
  JS.truthy v = true ->
  Prim2SF v <> S754_zero true /\ Prim2SF v <> S754_nan.
Proof.
  unfold JS.truthy. rewrite negb_true_iff, orb_false_iff. intros [Hn Hz].
  unfold Prim2SF. rewrite Hn, Hz.
  destruct (PrimFloat.is_infinity v); [split; discriminate|].
  destruct (Z.frexp v) as [r ex].
  destruct (shr_fexp _ _ _ _ _) as [mrs e'].
  destruct (shr_m mrs); split; discriminate.
Qed.

(** [x || 0] is never [-0] and never NaN. *)
Lemma or0_shape x :
  Prim2SF (JS.or0 x) <> S754_zero true /\ Prim2SF (JS.or0 x) <> S754_nan.
Proof.
  unfold JS.or0. destruct x as [v|]; [|split; discriminate].
  destruct (JS.truthy v) eqn:Hv; [now apply truthy_shape | split; discriminate].
Qed.

Lemma add_zero_l y :
  Prim2SF y <> S754_zero true -> (0 + y)%float = y.
Proof.
  intros Hy. apply Prim2SF_inj. rewrite add_spec, Prim2SF_zero.
  destruct (Prim2SF y) as [[|]| | |]; try reflexivity. congruence.
Qed.

(** *** Keep-last-write *)

(** C2. The request map built from a log holds every request id once, in the
    order of first appearance, with the usage of the last entry carrying that
    id, and the aggregate is summed over that map; so for two entries with the
    same request id the totals are the usage of the second entry alone (its
    absent counts read as 0), not the sum of both. *)
Theorem keep_last_write :
  (forall lines : list (option Entry),
      let m := requestMap (foldl parseLine (mkParseState [] None None) lines) in
      map fst m = firstIds (setEvents lines) /\
      List.NoDup (map fst m) /\
      (forall id, prop m id = lastOf id (setEvents lines)) /\
      totalUsage (parseSessionFile lines) =
      acc_usage (foldl addRequest Totals_init (Map_values m))) /\
  (forall ts1 ts2 c rid u1 u2 m1 m2,
      totalUsage (parseSessionFile
                    [Some (directEntry ts1 (String c rid) u1 m1);
                     Some (directEntry ts2 (String c rid) u2 m2)]) =
      mkUsage (Some (JS.or0 (input_tokens u2)))
              (Some (JS.or0 (output_tokens u2)))
              (Some (JS.or0 (cache_creation_input_tokens u2)))
              (Some (JS.or0 (cache_read_input_tokens u2)))).
Proof.
  split.
  - intros lines m. subst m. rewrite requestMap_lines. cbn [requestMap].
    destruct (setAll_keep_last (setEvents lines)) as [Hk Hv].
    repeat split.
    + exact Hk.
    + rewrite Hk. apply firstIds_NoDup.
    + exact Hv.
    + unfold parseSessionFile, aggregate. cbn [totalUsage].
      now rewrite requestMap_lines.
  - intros ts1 ts2 c rid u1 u2 m1 m2.
    unfold parseSessionFile, aggregate. cbn [totalUsage].
    rewrite requestMap_lines. cbn [requestMap].
    assert (E : setAll [] (setEvents
                [Some (directEntry ts1 (String c rid) u1 m1);
                 Some (directEntry ts2 (String c rid) u2 m2)]) =
                [(String c rid, mkRequest u2 (JS.or_str m2 "unknown"))]).
    { unfold setEvents, setAll, directEntry. cbn -[String.eqb].
      now rewrite String.eqb_refl. }
    rewrite E. cbn -[getModelFamily calculateCost JS.or0].
    now rewrite !add_zero_l by apply or0_shape.
Qed.

(** ** Instances *)

Lemma synced_sessions_are_skipped_witness :
  let r1 := syncAll false "mac-home" ["home"; "dev"] accepting
                    (Some sampleTree) freshWorld in
  world (syncAll false "mac-home" ["home"; "dev"] rejecting
                 (Some sampleTree) (world r1)) = world r1.
Proof.
  cbv zeta.
  apply (proj2 (synced_sessions_are_skipped "mac-home" ["home"; "dev"]
                                            accepting)
               sampleTree freshWorld).
  - reflexivity.
  - reflexivity.
Defined.

(** ** Sessions with cache tokens only *)

(** A session with a single cache-read token has zero input and output
    totals and a positive cache total, and yet the calculator prices its
    aggregate usage at 0: 0.3 millionths of a dollar round to none. *)
Lemma cache_only_session_cost_zero :
  let a := parseSessionFile (file_lines (cacheOnlyFile 1)) in
  emptySession a = true /\
  cache_read_input_tokens (totalUsage a) = Some 1%float /\
  (0 <? 1)%float = true /\
  calculateCost (totalUsage a) (primaryModel a) = 0%float /\
  (0 <? calculateCost (totalUsage a) (primaryModel a))%float = false.
Proof. vm_compute. repeat split. Qed.

(** ** Binary64 arithmetic: signs *)

Lemma iter_pos_inv {A} (f : A -> A) (P : A -> Prop) :
  (forall x, P x -> P (f x)) -> forall n x, P x -> P (SpecFloat.iter_pos f n x).
Proof.
  intros Hf. induction n as [n IH|n IH|]; intros x Hx; simpl; auto.
Qed.

Lemma shr_1_nonneg mrs : (0 <= shr_m mrs)%Z -> (0 <= shr_m (shr_1 mrs))%Z.
Proof.
  destruct mrs as [m r s]; simpl.
  destruct m as [|[p|p|]|[p|p|]]; simpl; lia.
Qed.

Lemma shr_nonneg mrs e n :
  (0 <= shr_m mrs)%Z -> (0 <= shr_m (fst (shr mrs e n)))%Z.
Proof.
  intros H. destruct n as [|p|p]; simpl; auto.
  now apply iter_pos_inv; [apply shr_1_nonneg|].
Qed.

Lemma shr_record_of_loc_m m l : shr_m (shr_record_of_loc m l) = m.
Proof. now destruct l as [|[| |]]. Qed.

Lemma shr_fexp_nonneg m e l :
  (0 <= m)%Z -> (0 <= shr_m (fst (shr_fexp prec emax m e l)))%Z.
Proof.
  intros H. unfold shr_fexp. apply shr_nonneg. now rewrite shr_record_of_loc_m.
Qed.

Lemma round_nearest_even_nonneg m l :
  (0 <= m)%Z -> (0 <= round_nearest_even m l)%Z.
Proof.
  intros H. destruct l as [|[| |]]; simpl; try lia. destruct (Z.even m); lia.
Qed.

Lemma binary_round_aux_sign s m e l :
  (0 <= m)%Z -> has_sign s (binary_round_aux prec emax s m e l).
Proof.
  intros H. unfold binary_round_aux.
  pose proof (shr_fexp_nonneg m e l H) as H1.
  destruct (shr_fexp prec emax m e l) as [mrs' e']. simpl in H1.
  pose proof (shr_fexp_nonneg _ e' loc_Exact
                (round_nearest_even_nonneg _ (loc_of_shr_record mrs') H1))
    as H2.
  destruct (shr_fexp prec emax _ e' loc_Exact) as [mrs'' e'']. simpl in H2.
  destruct (shr_m mrs''); [reflexivity| |lia].
  now destruct (_ <=? _)%Z.
Qed.

Lemma binary_round_sign s m e : has_sign s (binary_round prec emax s m e).
Proof.
  unfold binary_round. destruct (shl_align _ _ _) as [mz ez].
  now apply binary_round_aux_sign.
Qed.

Lemma has_sign_nonneg x : has_sign false x -> SFnonneg x = true.
Proof.
  destruct x as [s|s| |s m e]; simpl; intros H; try subst s; try reflexivity.
  contradiction.
Qed.

(** *** Signs of the operations *)

Lemma SFadd_nonneg x y :
  SFnonneg x = true -> SFnonneg y = true -> SFnonneg (SF64add x y) = true.
Proof.
  destruct x as [sx|sx| |sx mx ex], y as [sy|sy| |sy my ey]; simpl;
    try discriminate; try reflexivity; intros Hx Hy;
    try (destruct sx; try discriminate); try (destruct sy; try discriminate);
    try reflexivity.
  apply has_sign_nonneg. unfold SF64add, SFadd. cbn [cond_Zopp].
  unfold binary_normalize.
  destruct (shl_align mx ex (Z.min ex ey)) as [mx' ex'].
  destruct (shl_align my ey (Z.min ex ey)) as [my' ey'].
  cbn [fst]. change (Z.pos mx' + Z.pos my')%Z with (Z.pos (mx' + my')).
  apply binary_round_sign.
Qed.

(** Multiplication by a positive finite constant. *)
Lemma SFmul_nonneg x m e :
  SFnonneg x = true -> SFnonneg (SF64mul x (S754_finite false m e)) = true.
Proof.
  destruct x as [sx|sx| |sx mx ex]; simpl; try discriminate; try reflexivity;
    intros Hx.
  - now destruct sx.
  - destruct sx; [discriminate|]. apply has_sign_nonneg.
    unfold SF64mul, SFmul. now apply binary_round_aux_sign.
Qed.

Lemma SFdiv_core_nonneg m1 e1 m2 e2 :
  let '(q, _, _) := SFdiv_core_binary prec emax (Z.pos m1) e1 (Z.pos m2) e2 in
  (0 <= q)%Z.
Proof.
  unfold SFdiv_core_binary.
  set (s := (e1 - e2 - _)%Z).
  set (m' := match s with
             | Z.pos _ => Z.shiftl (Z.pos m1) s
             | Z0 => Z.pos m1
             | Z.neg _ => 0%Z
             end).
  assert (Hm : (0 <= m')%Z).
  { subst m'. destruct s; try lia. apply Z.shiftl_nonneg. lia. }
  pose proof (Z_div_mod m' (Z.pos m2) eq_refl) as H.
  destruct (Z.div_eucl m' (Z.pos m2)) as [q r]. nia.
Qed.

(** Division by a positive finite constant. *)
Lemma SFdiv_nonneg x m e :
  SFnonneg x = true -> SFnonneg (SF64div x (S754_finite false m e)) = true.
Proof.
  destruct x as [sx|sx| |sx mx ex]; simpl; try discriminate; try reflexivity;
    intros Hx.
  - now destruct sx.
  - destruct sx; [discriminate|]. apply has_sign_nonneg.
    unfold SF64div, SFdiv.
    pose proof (SFdiv_core_nonneg mx ex m e) as Hq.
    destruct (SFdiv_core_binary _ _ _ _ _ _) as [[q e'] l].
    now apply binary_round_aux_sign.
Qed.

(** *** Primitive operations through their specification *)

Lemma SFcompare_refl x : x <> S754_nan -> SFcompare x x = Some Eq.
Proof.
  destruct x as [s|s| |s m e]; simpl; try congruence; intros _.
  - now destruct s.
  - destruct s; rewrite Z.compare_refl, Pos.compare_cont_refl; reflexivity.
Qed.

Lemma is_nan_spec x :
  PrimFloat.is_nan x = match Prim2SF x with S754_nan => true | _ => false end.
Proof.
  unfold PrimFloat.is_nan. rewrite FloatAxioms.eqb_spec. unfold SFeqb.
  destruct (Prim2SF x) eqn:E; try reflexivity;
    rewrite SFcompare_refl by discriminate; reflexivity.
Qed.

Lemma leb_zero_spec x : (0 <=? x)%float = SFnonneg (Prim2SF x).
Proof.
  rewrite FloatAxioms.leb_spec. change (Prim2SF 0) with (S754_zero false).
  now destruct (Prim2SF x) as [s|[|]| |[|] m e].
Qed.

Lemma is_infinity_spec x :
  PrimFloat.is_infinity x =
  match Prim2SF x with S754_infinity _ => true | _ => false end.
Proof.
  unfold PrimFloat.is_infinity. rewrite FloatAxioms.eqb_spec, abs_spec.
  change (Prim2SF infinity) with (S754_infinity false).
  now destruct (Prim2SF x) as [s|[|]| |[|] m e].
Qed.

Lemma tokenCount_spec v : tokenCount v = SFcount (Prim2SF v).
Proof.
  unfold tokenCount. rewrite leb_zero_spec, is_infinity_spec.
  now destruct (Prim2SF v) as [s|[|]| |[|] m e].
Qed.

Lemma SFcount_nonneg x : SFcount x = true -> SFnonneg x = true.
Proof. now destruct x as [s|[|]| |[|] m e]. Qed.

Lemma or0_count o : countField o = true -> SFcount (Prim2SF (JS.or0 o)) = true.
Proof.
  destruct o as [v|]; simpl; [|reflexivity].
  rewrite tokenCount_spec. now destruct (JS.truthy v).
Qed.

Lemma Math_max_0_spec x :
  Prim2SF x <> S754_nan ->
  Prim2SF (JS.Math_max 0 x) =
  if SFltb (S754_zero false) (Prim2SF x) then Prim2SF x else S754_zero false.
Proof.
  intros Hx. unfold JS.Math_max.
  rewrite (is_nan_spec x). change (PrimFloat.is_nan 0) with false.
  change (PrimFloat.get_sign 0) with false.
  rewrite !FloatAxioms.ltb_spec. change (Prim2SF 0) with (S754_zero false).
  destruct (Prim2SF x) as [s|[|]| |[|] m e] eqn:E; simpl; try reflexivity;
    try congruence; auto.
Qed.

Lemma Math_max_0_nonneg x :
  Prim2SF x <> S754_nan -> SFnonneg (Prim2SF (JS.Math_max 0 x)) = true.
Proof.
  intros Hx. rewrite Math_max_0_spec by exact Hx.
  now destruct (Prim2SF x) as [s|[|]| |[|] m e].
Qed.

Lemma binary_normalize_not_nan m e :
  binary_normalize prec emax m e false <> S754_nan.
Proof.
  destruct m as [|p|p]; simpl; [discriminate| |].
  - pose proof (binary_round_sign false p e) as H.
    destruct (binary_round _ _ _ _ _); simpl in H; congruence.
  - pose proof (binary_round_sign true p e) as H.
    destruct (binary_round _ _ _ _ _); simpl in H; congruence.
Qed.

(** Subtracting a finite Number never gives NaN. *)
Lemma SFsub_not_nan x y :
  x <> S754_nan -> SFcount y = true -> SF64sub x y <> S754_nan.
Proof.
  destruct x as [sx|sx| |sx mx ex], y as [sy|[|]| |[|] my ey]; simpl;
    try discriminate; try congruence; intros _ _.
  all: try (now destruct sx, sy).
  apply binary_normalize_not_nan.
Qed.

(** *** Non-negative Numbers *)

Lemma add_nonneg a b : nonneg a -> nonneg b -> nonneg (a + b)%float.
Proof. unfold nonneg. rewrite add_spec. apply SFadd_nonneg. Qed.

Lemma mul_nonneg a c : nonneg a -> posFinite c = true -> nonneg (a * c)%float.
Proof.
  unfold nonneg, posFinite. rewrite mul_spec. intros Ha Hc.
  destruct (Prim2SF c) as [s|s| |[|] m e]; try discriminate.
  now apply SFmul_nonneg.
Qed.

Lemma div_nonneg a c : nonneg a -> posFinite c = true -> nonneg (a / c)%float.
Proof.
  unfold nonneg, posFinite. rewrite div_spec. intros Ha Hc.
  destruct (Prim2SF c) as [s|s| |[|] m e]; try discriminate.
  now apply SFdiv_nonneg.
Qed.

Lemma of_int_nonneg n : (0 <= n)%Z -> nonneg (JS.of_int n).
Proof.
  intros Hn. unfold nonneg, JS.of_int.
  destruct (Z.ltb_spec n 0); [lia|]. rewrite of_uint63_spec.
  pose proof (Uint63.to_Z_bounded (Uint63.of_Z n)) as [Hb _].
  destruct (Uint63.to_Z (Uint63.of_Z n)) as [|p|p]; [reflexivity| |lia].
  apply has_sign_nonneg, binary_round_sign.
Qed.

Lemma Math_round_nonneg x : nonneg x -> nonneg (JS.Math_round x).
Proof.
  unfold nonneg, JS.Math_round. intros Hx.
  destruct (Prim2SF x) as [s|s| |s m e] eqn:E; try (now rewrite E).
  destruct s; [discriminate|].
  destruct (0 <=? e)%Z; [now rewrite E|].
  set (n := Z.shiftr _ _).
  destruct (n =? 0)%Z; [reflexivity|].
  apply of_int_nonneg. subst n. apply Z.shiftr_nonneg.
  pose proof (Z.pow_nonneg 2 (- e)). lia.
Qed.

Lemma posFinite_1e6 : posFinite 1e6 = true.
Proof. reflexivity. Qed.

Lemma posFinite_rates f :
  posFinite (input (rateOf f)) = true /\
  posFinite (output (rateOf f)) = true /\
  posFinite (cache_read (rateOf f)) = true /\
  posFinite (cache_write (rateOf f)) = true.
Proof. destruct f; repeat split. Qed.

Lemma tokenCounts_fields u :
  tokenCounts u = true ->
  SFcount (Prim2SF (JS.or0 (input_tokens u))) = true /\
  SFcount (Prim2SF (JS.or0 (output_tokens u))) = true /\
  SFcount (Prim2SF (JS.or0 (cache_creation_input_tokens u))) = true /\
  SFcount (Prim2SF (JS.or0 (cache_read_input_tokens u))) = true.
Proof.
  unfold tokenCounts. rewrite !andb_true_iff. intros [[[? ?] ?] ?].
  repeat split; now apply or0_count.
Qed.

Lemma normalInput_not_nan u :
  tokenCounts u = true -> Prim2SF (normalInput u) <> S754_nan.
Proof.
  intros H. destruct (tokenCounts_fields u H) as (Hi & _ & Hw & Hr).
  unfold normalInput. rewrite !sub_spec.
  apply SFsub_not_nan; [|exact Hw]. apply SFsub_not_nan; [|exact Hr].
  intros E. now rewrite E in Hi.
Qed.

Lemma calculateCost_nonneg u f :
  tokenCounts u = true -> nonneg (calculateCost u (family_key f)).
Proof.
  intros H. destruct (tokenCounts_fields u H) as (Hi & Ho & Hw & Hr).
  destruct (posFinite_rates f) as (Pi & Po & Pr & Pw).
  unfold calculateCost. rewrite PRICING_family. cbv zeta.
  apply div_nonneg; [|exact posFinite_1e6].
  apply Math_round_nonneg.
  apply mul_nonneg; [|exact posFinite_1e6].
  repeat apply add_nonneg;
    (apply mul_nonneg; [apply div_nonneg; [|exact posFinite_1e6]|assumption]).
  - apply Math_max_0_nonneg. now apply normalInput_not_nan.
  - now apply SFcount_nonneg.
  - now apply SFcount_nonneg.
  - now apply SFcount_nonneg.
Qed.

(** ** Binary64 arithmetic: rounding *)

Local Open Scope Z_scope.

(** *** Number of binary digits *)

Lemma digits2_pos_size p : digits2_pos p = Pos.size p.
Proof. induction p; simpl; congruence. Qed.

Lemma Zdigits2_log2 z : 0 < z -> Zdigits2 z = Z.log2 z + 1.
Proof.
  destruct z as [|p|p]; try lia. intros _. simpl. rewrite digits2_pos_size.
  destruct p; simpl; lia.
Qed.

Lemma Zdigits2_nonneg z : 0 <= Zdigits2 z.
Proof. destruct z; simpl; lia. Qed.

Lemma Zdigits2_bounds z :
  0 < z -> 2 ^ (Zdigits2 z - 1) <= z < 2 ^ Zdigits2 z.
Proof.
  intros Hz. rewrite Zdigits2_log2 by exact Hz.
  replace (Z.log2 z + 1 - 1) with (Z.log2 z) by lia.
  apply Z.log2_spec, Hz.
Qed.

Lemma Zdigits2_unique z d :
  0 < z -> 2 ^ (d - 1) <= z < 2 ^ d -> Zdigits2 z = d.
Proof.
  intros Hz H. rewrite Zdigits2_log2 by exact Hz.
  assert (0 < d).
  { destruct (Z.lt_trichotomy d 0) as [Hd|[->|Hd]]; [|simpl in H; lia|exact Hd].
    rewrite (Z.pow_neg_r 2 d) in H by exact Hd. lia. }
  rewrite (Z.log2_unique z (d - 1)); [lia|lia|].
  now replace (Z.succ (d - 1)) with d by lia.
Qed.

Lemma Zdigits2_le a b : 0 <= a <= b -> Zdigits2 a <= Zdigits2 b.
Proof.
  intros [Ha Hab]. destruct (Z.eq_dec a 0) as [->|Hne].
  - apply Zdigits2_nonneg.
  - rewrite !Zdigits2_log2 by lia. pose proof (Z.log2_le_mono a b Hab). lia.
Qed.

Lemma Zdigits2_lt_pow2 z d :
  0 <= z -> 0 <= d -> (z < 2 ^ d <-> Zdigits2 z <= d).
Proof.
  intros Hz Hd. destruct (Z.eq_dec z 0) as [->|Hne].
  - simpl. pose proof (Z.pow_pos_nonneg 2 d). lia.
  - rewrite Zdigits2_log2 by lia. rewrite Z.log2_lt_pow2 by lia. lia.
Qed.

Lemma Zdigits2_mul_pow2 z k :
  0 < z -> 0 <= k -> Zdigits2 (z * 2 ^ k) = Zdigits2 z + k.
Proof.
  intros Hz Hk. pose proof (Z.pow_pos_nonneg 2 k).
  rewrite !Zdigits2_log2 by nia. rewrite Z.log2_mul_pow2 by lia. lia.
Qed.

Lemma Zdigits2_div_pow2 z k :
  0 <= z -> 0 <= k -> Zdigits2 (z / 2 ^ k) = Z.max 0 (Zdigits2 z - k).
Proof.
  intros Hz Hk. pose proof (Z.pow_pos_nonneg 2 k ltac:(lia) Hk) as Hp.
  destruct (Z.lt_ge_cases z (2 ^ k)) as [Hlt|Hge].
  - rewrite Z.div_small by lia. apply Zdigits2_lt_pow2 in Hlt; try lia. simpl.
    lia.
  - assert (Hq : 0 < z / 2 ^ k) by (apply Z.div_str_pos; lia).
    assert (Hd : k < Zdigits2 z).
    { destruct (Z.le_gt_cases (Zdigits2 z) k) as [Hle|]; [|lia].
      apply Zdigits2_lt_pow2 in Hle; lia. }
    rewrite Z.max_r by lia. apply Zdigits2_unique; [exact Hq|].
    pose proof (Zdigits2_bounds z ltac:(lia)) as [Hlo Hhi].
    assert (E1 : 2 ^ (Zdigits2 z - 1) = 2 ^ (Zdigits2 z - k - 1) * 2 ^ k)
      by (rewrite <- Z.pow_add_r by lia; f_equal; lia).
    assert (E2 : 2 ^ Zdigits2 z = 2 ^ (Zdigits2 z - k) * 2 ^ k)
      by (rewrite <- Z.pow_add_r by lia; f_equal; lia).
    rewrite E1 in Hlo. rewrite E2 in Hhi. split.
    + apply Z.div_le_lower_bound; lia.
    + apply Z.div_lt_upper_bound; lia.
Qed.

(** *** Shifting a mantissa right *)

Lemma shr_1_m mrs :
  0 <= shr_m mrs ->
  shr_m (shr_1 mrs) = shr_m mrs / 2 /\
  shr_r (shr_1 mrs) = Z.odd (shr_m mrs) /\
  shr_s (shr_1 mrs) = shr_r mrs || shr_s mrs.
Proof.
  destruct mrs as [m r s]. cbn [shr_m shr_r shr_s]. intros Hm.
  destruct m as [|[p|p|]|p]; try lia; cbn [shr_1 shr_m shr_r shr_s].
  - now rewrite Zdiv_0_l.
  - repeat split. rewrite Pos2Z.inj_xI. apply Z.div_unique with 1; lia.
  - repeat split. rewrite Pos2Z.inj_xO. apply Z.div_unique with 0; lia.
  - repeat split.
Qed.

Lemma loc_bits_sticky N D :
  0 < D -> (let '(r, s) := loc_bits N D in r || s) = negb (N mod D =? 0).
Proof.
  intros HD. unfold loc_bits. destruct (N mod D =? 0); [reflexivity|].
  now destruct (2 * (N mod D) ?= D).
Qed.

Lemma shr_1_located N D mrs :
  0 <= N -> 0 < D -> located N D mrs -> located N (2 * D) (shr_1 mrs).
Proof.
  intros HN HD [Hm Hb].
  assert (Hq : 0 <= N / D) by (apply Z.div_pos; lia).
  destruct (shr_1_m mrs ltac:(lia)) as (Hm' & Hr' & Hs').
  pose proof (loc_bits_sticky N D HD) as Hst. rewrite <- Hb in Hst.
  pose proof (Z.div_mod N D ltac:(lia)) as HND.
  pose proof (Z.mod_pos_bound N D HD) as Hr.
  pose proof (Z.div_mod (N / D) 2 ltac:(lia)) as Hq2.
  pose proof (Z.mod_pos_bound (N / D) 2 ltac:(lia)) as Hq2b.
  assert (Hdiv : N / (2 * D) = N / D / 2).
  { rewrite (Z.mul_comm 2 D). now rewrite Z.div_div by lia. }
  assert (Hmod : N mod (2 * D) = (N / D) mod 2 * D + N mod D).
  { symmetry. apply Z.mod_unique with (N / D / 2); nia. }
  split.
  - rewrite Hm', Hm. now rewrite Hdiv.
  - rewrite Hr', Hs', Hst, Hm. unfold loc_bits at 1. rewrite Hmod.
    pose proof (Zmod_odd (N / D)) as Hodd.
    destruct (Z.odd (N / D)); rewrite Hodd.
    + rewrite Z.mul_1_l.
      destruct (Z.eqb_spec (D + N mod D) 0); [lia|].
      destruct (Z.eqb_spec (N mod D) 0) as [E0|E0]; simpl negb.
      * rewrite E0, Z.add_0_r.
        destruct (Z.compare_spec (2 * D) (2 * D)); try lia. reflexivity.
      * destruct (Z.compare_spec (2 * (D + N mod D)) (2 * D)); try lia.
        reflexivity.
    + rewrite Z.mul_0_l, Z.add_0_l.
      destruct (Z.eqb_spec (N mod D) 0) as [E0|E0]; [reflexivity|].
      simpl negb.
      destruct (Z.compare_spec (2 * (N mod D)) (2 * D)); try lia. reflexivity.
Qed.

Lemma iter_pos_add {A} (f : A -> A) (P : Z -> A -> Prop) :
  (forall k x, 0 <= k -> P k x -> P (k + 1) (f x)) ->
  forall p k x, 0 <= k -> P k x -> P (k + Z.pos p) (SpecFloat.iter_pos f p x).
Proof.
  intros Hf. induction p as [p IH|p IH|]; intros k x Hk Hx; simpl.
  - replace (k + Z.pos p~1) with (k + 1 + Z.pos p + Z.pos p) by lia.
    apply IH; [lia|]. apply IH; [lia|]. now apply Hf.
  - replace (k + Z.pos p~0) with (k + Z.pos p + Z.pos p) by lia.
    apply IH; [lia|]. now apply IH.
  - now apply Hf.
Qed.

Lemma shr_located N D mrs e n :
  0 <= N -> 0 < D -> located N D mrs ->
  located N (D * 2 ^ Z.max 0 n) (fst (shr mrs e n)) /\
  snd (shr mrs e n) = e + Z.max 0 n.
Proof.
  intros HN HD H. destruct n as [|p|p]; cbn [shr fst snd].
  - rewrite Z.mul_1_r, Z.add_0_r. now split.
  - rewrite Z.max_r by lia. split; [|reflexivity].
    assert (Hstep : forall k x, 0 <= k -> located N (D * 2 ^ k) x ->
                                located N (D * 2 ^ (k + 1)) (shr_1 x)).
    { intros k x Hk Hx. rewrite Z.pow_add_r by lia.
      replace (D * (2 ^ k * 2 ^ 1)) with (2 * (D * 2 ^ k)) by lia.
      apply shr_1_located; [lia| |exact Hx].
      pose proof (Z.pow_pos_nonneg 2 k). nia. }
    pose proof (iter_pos_add shr_1 (fun k x => located N (D * 2 ^ k) x)
                             Hstep p 0 mrs) as Hi.
    rewrite Z.add_0_l in Hi. apply Hi; [lia|]. now rewrite Z.mul_1_r.
  - rewrite Z.mul_1_r, Z.add_0_r. now split.
Qed.

(** *** Rounding to nearest, ties to even *)

Lemma rne_located N D mrs :
  located N D mrs ->
  round_nearest_even (shr_m mrs) (loc_of_shr_record mrs) = rne N D.
Proof.
  intros [Hm Hb]. destruct mrs as [m r s]. cbn [shr_m shr_r shr_s] in *.
  subst m. unfold rne. unfold loc_bits in Hb.
  destruct (N mod D =? 0).
  - now inversion Hb.
  - destruct (2 * (N mod D) ?= D); now inversion Hb.
Qed.

Lemma rne_bounds N D :
  0 <= N -> 0 < D -> N / D <= rne N D <= N / D + 1.
Proof.
  intros HN HD. unfold rne.
  destruct (N mod D =? 0); [lia|].
  destruct (2 * (N mod D) ?= D); try lia. destruct (Z.even (N / D)); lia.
Qed.

Lemma located_exact m : located m 1 (shr_record_of_loc m loc_Exact).
Proof.
  split; simpl.
  - now rewrite Z.div_1_r.
  - unfold loc_bits. now rewrite Z.mod_1_r.
Qed.

Lemma bra_spec s q0 e l N D :
  0 <= N -> 0 < D -> located N D (shr_record_of_loc q0 l) ->
  binary_round_aux prec emax s q0 e l = bra s N D e.
Proof.
  intros HN HD Hloc.
  assert (Hq0 : q0 = N / D).
  { destruct Hloc as [Hm _]. now rewrite shr_record_of_loc_m in Hm. }
  unfold binary_round_aux, shr_fexp, bra.
  set (n := fexp prec emax (Zdigits2 q0 + e) - e).
  destruct (shr_located N D _ e n HN HD Hloc) as [H1 H1e].
  destruct (shr (shr_record_of_loc q0 l) e n) as [mrs' e']. cbn [fst snd] in *.
  rewrite (rne_located _ _ _ H1). subst e'. rewrite <- Hq0. fold n.
  set (m1 := rne N (D * 2 ^ Z.max 0 n)).
  assert (HD' : 0 < D * 2 ^ Z.max 0 n).
  { pose proof (Z.pow_pos_nonneg 2 (Z.max 0 n)). nia. }
  assert (Hm1 : 0 <= m1).
  { pose proof (rne_bounds N (D * 2 ^ Z.max 0 n) HN HD').
    pose proof (Z.div_pos N (D * 2 ^ Z.max 0 n)). subst m1. lia. }
  set (n2 := fexp prec emax (Zdigits2 m1 + (e + Z.max 0 n)) - (e + Z.max 0 n)).
  destruct (shr_located m1 1 _ (e + Z.max 0 n) n2 Hm1 ltac:(lia)
                        (located_exact m1)) as [[H2 _] H2e].
  destruct (shr (shr_record_of_loc m1 loc_Exact) (e + Z.max 0 n) n2)
    as [mrs'' e'']. cbn [fst snd] in *.
  subst e''. rewrite H2, Z.mul_1_l. reflexivity.
Qed.

(** *** The rounding when the quotient has enough digits *)

Lemma fexp_eq e : fexp prec emax e = Z.max (e - 53) (-1074).
Proof. reflexivity. Qed.

Lemma rne_below N D e :
  0 <= N -> 0 < D -> enough N D e ->
  0 <= rne N (D * 2 ^ (target N D e - e)) <= 2 ^ 53.
Proof.
  intros HN HD He. unfold enough in He. fold (target N D e) in He.
  set (n := target N D e - e). assert (Hn : 0 <= n) by (subst n; lia).
  pose proof (Z.pow_pos_nonneg 2 n ltac:(lia) Hn) as Hp.
  assert (HDn : 0 < D * 2 ^ n) by nia.
  pose proof (rne_bounds N (D * 2 ^ n) HN HDn) as Hb.
  rewrite <- Z.div_div in Hb by lia.
  assert (Hq0 : 0 <= N / D) by (apply Z.div_pos; lia).
  pose proof (Z.div_pos (N / D) (2 ^ n) Hq0 Hp).
  assert (Hd : Zdigits2 (N / D / 2 ^ n) <= 53).
  { rewrite Zdigits2_div_pow2 by lia. subst n. unfold target.
    rewrite fexp_eq. lia. }
  apply Zdigits2_lt_pow2 in Hd; lia.
Qed.

Lemma bra_enough s N D e :
  0 <= N -> 0 < D -> enough N D e ->
  bra s N D e = canon s (rne N (D * 2 ^ (target N D e - e))) (target N D e).
Proof.
  intros HN HD He. pose proof (rne_below N D e HN HD He) as Hm.
  unfold enough in He. fold (target N D e) in He.
  unfold bra. fold (target N D e). rewrite Z.max_r by lia.
  set (et := target N D e) in *. set (m1 := rne N (D * 2 ^ (et - e))) in *.
  replace (e + (et - e)) with et by lia.
  assert (Het : -1074 <= et) by (subst et; unfold target; rewrite fexp_eq; lia).
  unfold canon. destruct (Z.ltb_spec m1 (2 ^ 53)) as [Hlt|Hge].
  - assert (Hd : Zdigits2 m1 <= 53) by (apply Zdigits2_lt_pow2; lia).
    rewrite Z.max_l by (rewrite fexp_eq; lia).
    now rewrite Z.div_1_r, Z.add_0_r.
  - assert (E : m1 = 2 ^ 53) by lia. rewrite E.
    change (Zdigits2 (2 ^ 53)) with 54.
    replace (fexp prec emax (54 + et) - et) with 1 by (rewrite fexp_eq; lia).
    reflexivity.
Qed.

(** *** Monotonicity of the rounding *)

Lemma rne_mono N1 N2 D :
  0 <= N1 <= N2 -> 0 < D -> rne N1 D <= rne N2 D.
Proof.
  intros [H1 H12] HD.
  pose proof (rne_bounds N1 D H1 HD) as B1.
  pose proof (rne_bounds N2 D ltac:(lia) HD) as B2.
  pose proof (Z.div_le_mono N1 N2 D HD H12) as Hq.
  destruct (Z.eq_dec (N1 / D) (N2 / D)) as [E|E]; [|lia].
  pose proof (Z.div_mod N1 D ltac:(lia)) as E1.
  pose proof (Z.div_mod N2 D ltac:(lia)) as E2.
  assert (Hr : N1 mod D <= N2 mod D) by nia.
  pose proof (Z.mod_pos_bound N1 D HD).
  pose proof (Z.mod_pos_bound N2 D HD).
  unfold rne. rewrite <- E.
  destruct (Z.eqb_spec (N1 mod D) 0), (Z.eqb_spec (N2 mod D) 0); try lia.
  - destruct (2 * (N2 mod D) ?= D); try lia. destruct (Z.even (N1 / D)); lia.
  - destruct (Z.compare_spec (2 * (N1 mod D)) D),
             (Z.compare_spec (2 * (N2 mod D)) D); try lia;
      destruct (Z.even (N1 / D)); lia.
Qed.

Lemma rne_scale N D c : 0 < D -> 0 < c -> rne (N * c) (D * c) = rne N D.
Proof.
  intros HD Hc. unfold rne.
  rewrite Z.div_mul_cancel_r by lia.
  rewrite Zmult_mod_distr_r.
  replace (2 * (N mod D * c)) with (2 * (N mod D) * c) by lia.
  rewrite <- (Zmult_compare_compat_r _ _ c) by lia.
  destruct (Z.eqb_spec (N mod D * c) 0), (Z.eqb_spec (N mod D) 0);
    try reflexivity; nia.
Qed.

Lemma SFleb_build m a m' b :
  0 <= m -> 0 < m' -> (m = 0 \/ a < b \/ (a = b /\ m <= m')) ->
  SFleb (build false m a) (build false m' b) = true.
Proof.
  intros Hm Hm' H. unfold build.
  destruct m' as [|p'|p']; try lia.
  destruct m as [|p|p]; try lia.
  - now destruct (b <=? emax - prec).
  - destruct H as [H|H]; [lia|].
    destruct (Z.leb_spec a (emax - prec)), (Z.leb_spec b (emax - prec));
      try reflexivity; try lia.
    unfold SFleb, SFcompare.
    destruct H as [H|[-> H]].
    + now rewrite (proj2 (Z.compare_lt_iff a b) H).
    + rewrite Z.compare_refl.
      assert (Hpp : (p <= p')%positive) by lia.
      unfold Pos.le in Hpp. rewrite Pos.compare_cont_spec.
      now destruct (p ?= p')%positive.
Qed.

Lemma SFleb_canon m a m' b :
  0 <= m <= 2 ^ 53 -> 0 < m' <= 2 ^ 53 ->
  (a = b /\ m <= m') \/ (a < b /\ 2 ^ 52 <= m') ->
  SFleb (canon false m a) (canon false m' b) = true.
Proof.
  intros Hm Hm' H. unfold canon.
  destruct (Z.ltb_spec m (2 ^ 53)), (Z.ltb_spec m' (2 ^ 53));
    apply SFleb_build; lia.
Qed.

Lemma SFleb_zero_canon m b :
  0 <= m -> SFleb (S754_zero false) (canon false m b) = true.
Proof.
  intros Hm. unfold canon, build. destruct (m <? 2 ^ 53).
  - destruct m as [|p|p]; try lia; [reflexivity|].
    now destruct (b <=? emax - prec).
  - simpl (2 ^ 52). now destruct (b + 1 <=? emax - prec).
Qed.

Lemma target_mono N1 N2 D e :
  0 <= N1 <= N2 -> 0 < D -> target N1 D e <= target N2 D e.
Proof.
  intros [H1 H12] HD. unfold target. rewrite !fexp_eq.
  pose proof (Zdigits2_le (N1 / D) (N2 / D)
                ltac:(split; [apply Z.div_pos; lia
                             |apply Z.div_le_mono; lia])).
  lia.
Qed.

(** Rounding is monotone in the numerator at a common denominator and
    exponent. *)
Lemma bra_mono N1 N2 D e :
  0 <= N1 <= N2 -> 0 < D -> enough N1 D e -> enough N2 D e ->
  SFleb (bra false N1 D e) (bra false N2 D e) = true.
Proof.
  intros [H1 H12] HD He1 He2.
  rewrite !bra_enough by (assumption || lia).
  pose proof (rne_below N1 D e H1 HD He1) as B1.
  pose proof (rne_below N2 D e ltac:(lia) HD He2) as B2.
  pose proof (target_mono N1 N2 D e ltac:(lia) HD) as Ht.
  unfold enough in He1, He2. fold (target N1 D e) in He1.
  fold (target N2 D e) in He2.
  set (t1 := target N1 D e) in *. set (t2 := target N2 D e) in *.
  destruct (Z.eq_dec (rne N1 (D * 2 ^ (t1 - e))) 0) as [Z1|NZ1].
  { rewrite Z1. change (canon false 0 t1) with (S754_zero false).
    apply SFleb_zero_canon. lia. }
  assert (Hpos2 : forall n, 0 <= n -> 0 < D * 2 ^ n).
  { intros n Hn. pose proof (Z.pow_pos_nonneg 2 n). nia. }
  destruct (Z.eq_dec t1 t2) as [E|E].
  - pose proof (rne_mono N1 N2 (D * 2 ^ (t1 - e)) ltac:(lia)
                         (Hpos2 (t1 - e) ltac:(lia))) as Hm.
    clearbody t1 t2. subst t2. apply SFleb_canon; lia.
  - assert (Hlt : t1 < t2) by lia.
    assert (H52 : 2 ^ 52 <= rne N2 (D * 2 ^ (t2 - e))).
    { pose proof (rne_bounds N2 (D * 2 ^ (t2 - e)) ltac:(lia)
                             (Hpos2 (t2 - e) ltac:(lia))) as [Hlo _].
      rewrite <- Z.div_div in Hlo
        by (try lia; apply Z.pow_pos_nonneg; lia).
      assert (Hd : Zdigits2 (N2 / D / 2 ^ (t2 - e)) = 53).
      { rewrite Zdigits2_div_pow2
          by (try lia; apply Z.div_pos; lia).
        assert (-1074 <= t1) by (subst t1; unfold target; rewrite fexp_eq; lia).
        assert (Et2 : t2 = Z.max (Zdigits2 (N2 / D) + e - 53) (-1074))
          by (subst t2; unfold target; now rewrite fexp_eq).
        lia. }
      assert (Hq : 0 < N2 / D / 2 ^ (t2 - e)).
      { assert (0 <= N2 / D / 2 ^ (t2 - e))
          by (apply Z.div_pos;
              [apply Z.div_pos; lia|apply Z.pow_pos_nonneg; lia]).
        destruct (N2 / D / 2 ^ (t2 - e)) as [|p|p] eqn:Eq; simpl in Hd; lia. }
      pose proof (Zdigits2_bounds _ Hq) as [Hb _]. rewrite Hd in Hb.
      simpl (53 - 1) in Hb. lia. }
    apply SFleb_canon; try lia.
Qed.

(** *** The rounding does not depend on how the value is written *)

Lemma Zdigits2_scale N D k :
  0 <= N -> 0 < D -> 0 < N / D -> 0 <= k ->
  Zdigits2 (N * 2 ^ k / D) = Zdigits2 (N / D) + k.
Proof.
  intros HN HD Hq Hk.
  pose proof (Zdigits2_bounds (N / D) Hq) as [Hlo Hhi].
  pose proof (Zdigits2_nonneg (N / D)) as Hd0.
  assert (Hd : 0 < Zdigits2 (N / D)).
  { destruct (N / D); simpl in *; lia. }
  set (d := Zdigits2 (N / D)) in *.
  pose proof (Z.pow_pos_nonneg 2 k ltac:(lia) Hk) as Hpk.
  pose proof (Z.pow_pos_nonneg 2 (d - 1) ltac:(lia) ltac:(lia)) as Hpd.
  pose proof (Z.div_mod N D ltac:(lia)) as HND.
  pose proof (Z.mod_pos_bound N D HD) as Hr.
  assert (E1 : 2 ^ (d + k - 1) = 2 ^ (d - 1) * 2 ^ k)
    by (rewrite <- Z.pow_add_r by lia; f_equal; lia).
  assert (E2 : 2 ^ (d + k) = 2 ^ d * 2 ^ k) by (apply Z.pow_add_r; lia).
  assert (Hpos : 0 < N * 2 ^ k / D).
  { apply Z.div_str_pos. nia. }
  apply Zdigits2_unique; [exact Hpos|]. rewrite E1, E2. split.
  - apply Z.div_le_lower_bound; nia.
  - apply Z.div_lt_upper_bound; nia.
Qed.

Lemma target_scale N D e k :
  0 <= N -> 0 < D -> 0 <= k -> enough N D e ->
  target (N * 2 ^ k) D (e - k) = target N D e.
Proof.
  intros HN HD Hk He. unfold enough in He. unfold target in *.
  rewrite fexp_eq in He. rewrite !fexp_eq.
  assert (Hq : 0 <= N / D) by (apply Z.div_pos; lia).
  destruct (Z.eq_dec (N / D) 0) as [E|E].
  - rewrite E in *. simpl Zdigits2 in *.
    pose proof (Z.pow_pos_nonneg 2 k ltac:(lia) Hk) as Hpk.
    assert (HlN : N < D).
    { pose proof (Z.div_mod N D ltac:(lia)).
      pose proof (Z.mod_pos_bound N D HD).
      nia. }
    assert (Hlt : N * 2 ^ k / D < 2 ^ k) by (apply Z.div_lt_upper_bound; nia).
    assert (Hq' : 0 <= N * 2 ^ k / D) by (apply Z.div_pos; nia).
    apply Zdigits2_lt_pow2 in Hlt; lia.
  - rewrite Zdigits2_scale by lia. f_equal. lia.
Qed.

Lemma enough_scale N D e k :
  0 <= N -> 0 < D -> 0 <= k -> enough N D e -> enough (N * 2 ^ k) D (e - k).
Proof.
  intros HN HD Hk He. unfold enough. fold (target (N * 2 ^ k) D (e - k)).
  rewrite target_scale by assumption. unfold enough in He.
  fold (target N D e) in He. lia.
Qed.

Lemma bra_scale s N D e k :
  0 <= N -> 0 < D -> 0 <= k -> enough N D e ->
  bra s (N * 2 ^ k) D (e - k) = bra s N D e.
Proof.
  intros HN HD Hk He. pose proof (Z.pow_pos_nonneg 2 k ltac:(lia) Hk) as Hpk.
  rewrite !bra_enough by (try apply enough_scale; try assumption; nia).
  rewrite target_scale by assumption.
  unfold enough in He. fold (target N D e) in He.
  replace (target N D e - (e - k)) with (target N D e - e + k) by lia.
  rewrite Z.pow_add_r by lia. rewrite Z.mul_assoc.
  rewrite rne_scale; [reflexivity| |exact Hpk].
  pose proof (Z.pow_pos_nonneg 2 (target N D e - e)). nia.
Qed.

(** Rounding is monotone in the value [N / D * 2 ^ e]. *)
Lemma bra_mono_val N1 e1 N2 e2 D e0 :
  0 <= N1 -> 0 <= N2 -> 0 < D -> enough N1 D e1 -> enough N2 D e2 ->
  e0 <= e1 -> e0 <= e2 ->
  N1 * 2 ^ (e1 - e0) <= N2 * 2 ^ (e2 - e0) ->
  SFleb (bra false N1 D e1) (bra false N2 D e2) = true.
Proof.
  intros H1 H2 HD He1 He2 H01 H02 Hle.
  rewrite <- (bra_scale false N1 D e1 (e1 - e0)) by (assumption || lia).
  rewrite <- (bra_scale false N2 D e2 (e2 - e0)) by (assumption || lia).
  replace (e1 - (e1 - e0)) with e0 by lia.
  replace (e2 - (e2 - e0)) with e0 by lia.
  pose proof (Z.pow_pos_nonneg 2 (e1 - e0)).
  apply bra_mono; [nia|exact HD| |].
  - replace e0 with (e1 - (e1 - e0)) at 2 by lia. apply enough_scale; auto; lia.
  - replace e0 with (e2 - (e2 - e0)) at 2 by lia. apply enough_scale; auto; lia.
Qed.

(** *** Floats the format holds exactly *)

Lemma valid_finite s m e :
  valid_binary (S754_finite s m e) = true ->
  fexp prec emax (Zdigits2 (Z.pos m) + e) = e /\ e <= 971 /\
  -1074 <= e /\ Z.pos m < 2 ^ 53.
Proof.
  unfold SpecFloat.valid_binary, bounded, canonical_mantissa.
  rewrite andb_true_iff, Z.eqb_eq, Z.leb_le. intros [Hc He].
  change (emax - prec) with 971 in He. simpl Zdigits2.
  repeat split; [exact Hc|exact He| |].
  - rewrite fexp_eq in Hc. lia.
  - apply Zdigits2_lt_pow2; [lia|lia|]. simpl Zdigits2. rewrite fexp_eq in Hc.
    lia.
Qed.

Lemma enough_valid s m e :
  valid_binary (S754_finite s m e) = true -> enough (Z.pos m) 1 e.
Proof.
  intros H. destruct (valid_finite s m e H) as (Hc & _).
  unfold enough. rewrite Z.div_1_r. lia.
Qed.

Lemma bra_valid s m e :
  valid_binary (S754_finite s m e) = true ->
  bra s (Z.pos m) 1 e = S754_finite s m e.
Proof.
  intros H. destruct (valid_finite s m e H) as (Hc & He & _ & Hm).
  rewrite bra_enough by (try apply (enough_valid s); try assumption; lia).
  unfold target. rewrite Z.div_1_r, Hc, Z.sub_diag, Z.mul_1_r.
  assert (E : rne (Z.pos m) 1 = Z.pos m).
  { unfold rne. now rewrite Z.mod_1_r, Z.div_1_r. }
  rewrite E. unfold canon. destruct (Z.ltb_spec (Z.pos m) (2 ^ 53)); [|lia].
  unfold build. change (emax - prec) with 971.
  now destruct (Z.leb_spec e 971); [|lia].
Qed.

(** *** Rounding an integer number of units *)

Lemma iter_xO m d : Z.pos (Pos.iter xO m d) = Z.pos m * 2 ^ Z.pos d.
Proof.
  induction d as [|d IH] using Pos.peano_ind.
  - simpl. lia.
  - rewrite Pos.iter_succ, Pos2Z.inj_succ, Z.pow_succ_r by lia.
    rewrite Pos2Z.inj_xO, IH. lia.
Qed.

Lemma shl_align_spec m e e' :
  let k := Z.max 0 (e - e') in
  Z.pos (fst (shl_align m e e')) = Z.pos m * 2 ^ k /\
  snd (shl_align m e e') = e - k.
Proof.
  unfold shl_align. destruct (e' - e) as [|d|d] eqn:E; cbn [fst snd].
  - replace (Z.max 0 (e - e')) with 0 by lia. simpl. lia.
  - replace (Z.max 0 (e - e')) with 0 by lia. simpl. lia.
  - replace (Z.max 0 (e - e')) with (Z.pos d) by lia. rewrite iter_xO. lia.
Qed.

(** [binary_round] is the rounding of the mantissa times a power of two
    small enough to have enough digits. *)
Lemma binary_round_bra s m e e0 :
  e0 <= e -> e0 <= -1074 ->
  binary_round prec emax s m e = bra s (Z.pos m * 2 ^ (e - e0)) 1 e0.
Proof.
  intros H0 H1. unfold binary_round.
  set (e' := fexp prec emax (Z.pos (digits2_pos m) + e)).
  destruct (shl_align_spec m e e') as [Hm Hx]. cbv zeta in Hm, Hx.
  destruct (shl_align m e e') as [mz ez]. cbn [fst snd] in Hm, Hx.
  set (k := Z.max 0 (e - e')) in *.
  rewrite (bra_spec s (Z.pos mz) ez loc_Exact (Z.pos mz) 1)
    by (try lia; apply located_exact).
  assert (Hen : enough (Z.pos mz) 1 ez).
  { unfold enough. rewrite Z.div_1_r, Hm, Hx.
    rewrite Zdigits2_mul_pow2 by lia.
    replace (Zdigits2 (Z.pos m) + k + (e - k)) with (Z.pos (digits2_pos m) + e)
      by (simpl; lia).
    fold e'. lia. }
  assert (He' : -1074 <= e') by (subst e'; rewrite fexp_eq; lia).
  rewrite <- (bra_scale s (Z.pos mz) 1 ez (ez - e0)) by (try assumption; lia).
  replace (ez - (ez - e0)) with e0 by lia. f_equal.
  rewrite Hm, <- Z.mul_assoc, <- Z.pow_add_r by lia. f_equal. f_equal. lia.
Qed.

Lemma bra_opp N D e : bra true N D e = SFopp (bra false N D e).
Proof.
  unfold bra, build. destruct (_ / _); try reflexivity.
  now destruct (_ <=? _).
Qed.

Lemma RNZ_pos p : RNZ (Z.pos p) = bra false (Z.pos p) 1 (-1074).
Proof.
  unfold RNZ, binary_normalize.
  rewrite (binary_round_bra false p (-1074) (-1074)) by lia.
  now rewrite Z.sub_diag, Z.mul_1_r.
Qed.

Lemma RNZ_neg p : RNZ (Z.neg p) = SFopp (bra false (Z.pos p) 1 (-1074)).
Proof.
  unfold RNZ, binary_normalize.
  rewrite (binary_round_bra true p (-1074) (-1074)) by lia.
  now rewrite Z.sub_diag, Z.mul_1_r, bra_opp.
Qed.

Lemma binary_normalize_units z e :
  -1074 <= e ->
  binary_normalize prec emax z e false = RNZ (z * 2 ^ (e + 1074)).
Proof.
  intros He.
  pose proof (Z.pow_pos_nonneg 2 (e + 1074) ltac:(lia) ltac:(lia)) as Hp.
  destruct z as [|p|p].
  - reflexivity.
  - destruct (Z.pos p * 2 ^ (e + 1074)) as [|q|q] eqn:E; try lia.
    rewrite RNZ_pos, <- E. unfold binary_normalize.
    rewrite (binary_round_bra false p e (-1074)) by lia.
    now replace (e - -1074) with (e + 1074) by lia.
  - destruct (Z.neg p * 2 ^ (e + 1074)) as [|q|q] eqn:E; try lia.
    rewrite RNZ_neg. unfold binary_normalize.
    rewrite (binary_round_bra true p e (-1074)) by lia.
    rewrite bra_opp. replace (e - -1074) with (e + 1074) by lia.
    do 2 f_equal. lia.
Qed.

Lemma enough_units N : enough N 1 (-1074).
Proof. unfold enough. rewrite fexp_eq. lia. Qed.

(** *** Order of floats and order of their values *)

Lemma SFeqv_refl a : SFeqv a a.
Proof. now left. Qed.

Lemma SFleb_eqv a a' b b' :
  SFeqv a a' -> SFeqv b b' -> SFleb a b = SFleb a' b'.
Proof.
  intros [->|(s1 & s1' & -> & ->)] [->|(s2 & s2' & -> & ->)]; reflexivity.
Qed.

Lemma SFcompare_opp a b : SFcompare (SFopp a) (SFopp b) = SFcompare b a.
Proof.
  destruct a as [sa|sa| |sa ma ea], b as [sb|sb| |sb mb eb];
    try reflexivity; try (now destruct sa); try (now destruct sb);
    try (now destruct sa, sb).
  destruct sa, sb; cbn [SFopp SFcompare negb]; try reflexivity;
    rewrite (Z.compare_antisym ea eb);
    destruct (ea ?= eb); cbn [CompOpp]; try reflexivity;
    first [ now rewrite (Pos.compare_cont_antisym mb ma Eq)
          | now rewrite (Pos.compare_cont_antisym ma mb Eq) ].
Qed.

Lemma SFleb_opp a b : SFleb (SFopp a) (SFopp b) = SFleb b a.
Proof. unfold SFleb. now rewrite SFcompare_opp. Qed.

Lemma SFleb_signs a b :
  has_sign true a -> has_sign false b -> SFleb a b = true.
Proof.
  destruct a as [sa|sa| |sa ma ea], b as [sb|sb| |sb mb eb]; simpl;
    try contradiction; intros -> ->; reflexivity.
Qed.

Lemma SFleb_zero_nonneg s b :
  has_sign false b -> SFleb (S754_zero s) b = true.
Proof.
  destruct b as [sb|sb| |sb mb eb]; simpl; try contradiction; now intros ->.
Qed.

Lemma SFleb_neg_zero a s :
  has_sign true a -> SFleb a (S754_zero s) = true.
Proof.
  destruct a as [sa|sa| |sa ma ea]; simpl; try contradiction; now intros ->.
Qed.

Lemma bra_sign s N D e : 0 <= N -> 0 < D -> has_sign s (bra s N D e).
Proof.
  intros HN HD. unfold bra.
  set (n := Z.max 0 _). set (m1 := rne N (D * 2 ^ n)). set (n2 := Z.max 0 _).
  assert (0 <= m1 / 2 ^ n2).
  { apply Z.div_pos; [|apply Z.pow_pos_nonneg; lia].
    pose proof (Z.pow_pos_nonneg 2 n ltac:(lia) ltac:(lia)).
    pose proof (rne_bounds N (D * 2 ^ n) HN ltac:(nia)).
    pose proof (Z.div_pos N (D * 2 ^ n) HN ltac:(nia)). lia. }
  unfold build. destruct (m1 / 2 ^ n2); try lia; [reflexivity|].
  now destruct (_ <=? _).
Qed.

Lemma has_sign_opp s a : has_sign s a -> has_sign (negb s) (SFopp a).
Proof. destruct a; simpl; try contradiction; now intros ->. Qed.

Lemma RNZ_sign z :
  match z with
  | Z0 => RNZ z = S754_zero false
  | Z.pos _ => has_sign false (RNZ z)
  | Z.neg _ => has_sign true (RNZ z)
  end.
Proof.
  destruct z as [|p|p].
  - reflexivity.
  - rewrite RNZ_pos. apply bra_sign; lia.
  - rewrite RNZ_neg. apply (has_sign_opp false), bra_sign; lia.
Qed.

(** Rounding is monotone. *)
Lemma RNZ_mono z1 z2 : z1 <= z2 -> SFleb (RNZ z1) (RNZ z2) = true.
Proof.
  intros H. pose proof (RNZ_sign z1) as S1. pose proof (RNZ_sign z2) as S2.
  destruct z1 as [|p1|p1], z2 as [|p2|p2]; try lia.
  - reflexivity.
  - rewrite S1. now apply SFleb_zero_nonneg.
  - rewrite !RNZ_pos. apply bra_mono; try lia; apply enough_units.
  - rewrite S2. now apply SFleb_neg_zero.
  - now apply SFleb_signs.
  - rewrite !RNZ_neg, SFleb_opp. apply bra_mono; try lia; apply enough_units.
Qed.

Lemma binary_round_valid s m e :
  valid_binary (S754_finite s m e) = true ->
  binary_round prec emax s m e = S754_finite s m e.
Proof.
  intros H. destruct (valid_finite s m e H) as (_ & _ & He & _).
  rewrite (binary_round_bra s m e (-1074)) by lia.
  rewrite <- (bra_valid s m e H).
  rewrite <- (bra_scale s (Z.pos m) 1 e (e - -1074))
    by (try lia; now apply (enough_valid s)).
  f_equal. lia.
Qed.

(** A float of the format is the rounding of its own value. *)
Lemma RNZ_units s m e :
  valid_binary (S754_finite s m e) = true ->
  RNZ (units (S754_finite s m e)) = S754_finite s m e.
Proof.
  intros H. destruct (valid_finite s m e H) as (_ & _ & He & _).
  unfold units.
  replace (cond_Zopp s (Z.pos m * 2 ^ (e + 1074)))
    with (cond_Zopp s (Z.pos m) * 2 ^ (e + 1074)) by (destruct s; simpl; lia).
  rewrite <- binary_normalize_units by exact He.
  destruct s; simpl; now apply binary_round_valid.
Qed.

Lemma valid_pos_units s1 m1 e1 s2 m2 e2 :
  valid_binary (S754_finite s1 m1 e1) = true ->
  valid_binary (S754_finite s2 m2 e2) = true ->
  e1 < e2 \/ (e1 = e2 /\ (m1 <= m2)%positive) ->
  Z.pos m1 * 2 ^ (e1 + 1074) <= Z.pos m2 * 2 ^ (e2 + 1074).
Proof.
  intros V1 V2 H.
  destruct (valid_finite _ _ _ V1) as (_ & _ & He1 & Hm1).
  destruct (valid_finite _ _ _ V2) as (Hc2 & _ & He2 & Hm2).
  pose proof (Z.pow_pos_nonneg 2 (e1 + 1074) ltac:(lia) ltac:(lia)) as Hp.
  destruct H as [Hlt|[-> Hle]]; [|nia].
  assert (Hd : Zdigits2 (Z.pos m2) = 53) by (rewrite fexp_eq in Hc2; lia).
  pose proof (Zdigits2_bounds (Z.pos m2) ltac:(lia)) as [Hlo _].
  rewrite Hd in Hlo. simpl (53 - 1) in Hlo.
  replace (e2 + 1074) with (e1 + 1074 + (e2 - e1)) by lia.
  rewrite (Z.pow_add_r 2 (e1 + 1074) (e2 - e1)) by lia.
  assert (2 ^ 1 <= 2 ^ (e2 - e1)) by (apply Z.pow_le_mono_r; lia).
  change (2 ^ 1) with 2 in *. change (2 ^ 52) with 4503599627370496 in *.
  change (2 ^ 53) with 9007199254740992 in *.
  assert (Hq : Z.pos m1 <= Z.pos m2 * 2 ^ (e2 - e1)) by nia.
  rewrite Z.mul_assoc, (Z.mul_comm (Z.pos m2)), <- Z.mul_assoc.
  rewrite (Z.mul_comm (Z.pos m1)). apply Z.mul_le_mono_nonneg_l; lia.
Qed.

Lemma SFleb_pos_cases m1 e1 m2 e2 :
  SFleb (S754_finite false m1 e1) (S754_finite false m2 e2) = true ->
  e1 < e2 \/ (e1 = e2 /\ (m1 <= m2)%positive).
Proof.
  unfold SFleb, SFcompare. destruct (Z.compare_spec e1 e2) as [->| |];
    try discriminate; [|now left].
  intros H. right. split; [reflexivity|]. unfold Pos.le.
  rewrite Pos.compare_cont_spec in H. now destruct (m1 ?= m2)%positive.
Qed.

(** The order of floats implies the order of their values. *)
Lemma SFleb_units_le x y :
  valid_binary x = true -> valid_binary y = true ->
  SFfin x = true -> SFfin y = true ->
  SFleb x y = true -> units x <= units y.
Proof.
  intros Vx Vy Fx Fy H.
  destruct x as [sx|sx| |sx mx ex], y as [sy|sy| |sy my ey]; try discriminate;
    cbn [units cond_Zopp].
  - destruct sy; [discriminate|]. simpl.
    pose proof (Z.pow_pos_nonneg 2 (ey + 1074)). 
    destruct (valid_finite _ _ _ Vy) as (_ & _ & ? & _). nia.
  - destruct sx; [|discriminate]. simpl.
    destruct (valid_finite _ _ _ Vx) as (_ & _ & ? & _).
    pose proof (Z.pow_pos_nonneg 2 (ex + 1074)). nia.
  - destruct (valid_finite _ _ _ Vx) as (_ & _ & ? & _).
    destruct (valid_finite _ _ _ Vy) as (_ & _ & ? & _).
    pose proof (Z.pow_pos_nonneg 2 (ex + 1074)).
    pose proof (Z.pow_pos_nonneg 2 (ey + 1074)).
    destruct sx, sy; simpl; try discriminate.
    + pose proof (SFleb_opp (S754_finite false mx ex) (S754_finite false my ey))
        as E. cbn [SFopp negb] in E. rewrite E in H.
      apply SFleb_pos_cases in H.
      pose proof (valid_pos_units true my ey true mx ex Vy Vx H). lia.
    + nia.
    + apply SFleb_pos_cases in H. now apply (valid_pos_units false _ _ false).
Qed.

(** *** Addition and subtraction *)

Lemma aligned_units s m e ez :
  -1074 <= ez -> ez <= e ->
  cond_Zopp s (Z.pos (fst (shl_align m e ez))) * 2 ^ (ez + 1074) =
  units (S754_finite s m e).
Proof.
  intros H0 H1. destruct (shl_align_spec m e ez) as [Hm _]. cbv zeta in Hm.
  rewrite Hm, Z.max_r by lia. unfold units.
  replace (e + 1074) with (e - ez + (ez + 1074)) by lia.
  rewrite (Z.pow_add_r 2 (e - ez) (ez + 1074)) by lia. destruct s; simpl; lia.
Qed.

Lemma SFadd_units x y :
  valid_binary x = true -> valid_binary y = true ->
  SFfin x = true -> SFfin y = true ->
  SFeqv (SF64add x y) (RNZ (units x + units y)).
Proof.
  intros Vx Vy Fx Fy.
  destruct x as [sx|sx| |sx mx ex], y as [sy|sy| |sy my ey]; try discriminate.
  - right. destruct sx, sy; simpl; eauto.
  - left. simpl SF64add. rewrite Z.add_0_l. now rewrite RNZ_units.
  - left. simpl SF64add. change (units (S754_zero sy)) with 0.
    rewrite Z.add_0_r. now rewrite RNZ_units.
  - left. destruct (valid_finite _ _ _ Vx) as (_ & _ & Hx & _).
    destruct (valid_finite _ _ _ Vy) as (_ & _ & Hy & _).
    unfold SF64add, SFadd.
    rewrite binary_normalize_units by lia. f_equal.
    rewrite Z.mul_add_distr_r. rewrite !aligned_units by lia. reflexivity.
Qed.

Lemma valid_opp s m e :
  valid_binary (S754_finite (negb s) m e) = valid_binary (S754_finite s m e).
Proof. reflexivity. Qed.

Lemma SFsub_units x y :
  valid_binary x = true -> valid_binary y = true ->
  SFfin x = true -> SFfin y = true ->
  SFeqv (SF64sub x y) (RNZ (units x - units y)).
Proof.
  intros Vx Vy Fx Fy.
  destruct x as [sx|sx| |sx mx ex], y as [sy|sy| |sy my ey]; try discriminate.
  - right. destruct sx, sy; simpl; eauto.
  - left. simpl SF64sub.
    replace (units (S754_zero sx) - units (S754_finite sy my ey))
      with (units (S754_finite (negb sy) my ey))
      by (destruct sy; simpl; lia).
    now rewrite RNZ_units.
  - left. simpl SF64sub. change (units (S754_zero sy)) with 0.
    rewrite Z.sub_0_r. now rewrite RNZ_units.
  - left. destruct (valid_finite _ _ _ Vx) as (_ & _ & Hx & _).
    destruct (valid_finite _ _ _ Vy) as (_ & _ & Hy & _).
    unfold SF64sub, SFsub.
    rewrite binary_normalize_units by lia. f_equal.
    rewrite Z.mul_sub_distr_r. rewrite !aligned_units by lia. reflexivity.
Qed.

(** *** Monotonicity of the operations *)

Lemma SFleb_pos_inf r : r <> S754_nan -> SFleb r (S754_infinity false) = true.
Proof.
  intros H. destruct r as [s|[|]| |[|] m e]; try reflexivity. now destruct H.
Qed.

Lemma SFleb_neg_inf r : r <> S754_nan -> SFleb (S754_infinity true) r = true.
Proof.
  intros H. destruct r as [s|[|]| |[|] m e]; try reflexivity. now destruct H.
Qed.

Lemma SFleb_zero_l s r : SFnonneg r = true -> SFleb (S754_zero s) r = true.
Proof. now destruct r as [s'|[|]| |[|] m e]. Qed.

Lemma SFnonneg_not_nan r : SFnonneg r = true -> r <> S754_nan.
Proof. now destruct r. Qed.

Lemma SFsub_mono_l x x' c :
  valid_binary x = true -> valid_binary x' = true -> valid_binary c = true ->
  x <> S754_nan -> x' <> S754_nan -> SFcount c = true ->
  SFleb x x' = true ->
  SFleb (SF64sub x c) (SF64sub x' c) = true.
Proof.
  intros Vx Vx' Vc Nx Nx' Hc H.
  assert (Fc : SFfin c = true) by (now destruct c as [s|s| |[|] m e]).
  pose proof (SFsub_not_nan x c Nx Hc) as N1.
  pose proof (SFsub_not_nan x' c Nx' Hc) as N2.
  destruct (SFfin x) eqn:Fx, (SFfin x') eqn:Fx'.
  - rewrite (SFleb_eqv _ _ _ _ (SFsub_units x c Vx Vc Fx Fc)
                       (SFsub_units x' c Vx' Vc Fx' Fc)).
    apply RNZ_mono. pose proof (SFleb_units_le x x' Vx Vx' Fx Fx' H). lia.
  - destruct x' as [s'|[|]| |s' m' e']; try discriminate; try congruence.
    + now destruct x as [s|[|]| |[|] m e].
    + replace (SF64sub (S754_infinity false) c) with (S754_infinity false)
        by (now destruct c as [s|s| |[|] m e]).
      now apply SFleb_pos_inf.
  - destruct x as [s|[|]| |s m e]; try discriminate; try congruence.
    + replace (SF64sub (S754_infinity true) c) with (S754_infinity true)
        by (now destruct c as [s|s| |[|] m e]).
      now apply SFleb_neg_inf.
    + now destruct x' as [s'|[|]| |[|] m' e'].
  - destruct x as [s|[|]| |s m e]; try discriminate; try congruence.
    + replace (SF64sub (S754_infinity true) c) with (S754_infinity true)
        by (now destruct c as [s|s| |[|] m e]).
      now apply SFleb_neg_inf.
    + destruct x' as [s'|[|]| |s' m' e']; try discriminate; try congruence.
      replace (SF64sub (S754_infinity false) c) with (S754_infinity false)
        by (now destruct c as [s|s| |[|] m e]).
      now apply SFleb_pos_inf.
Qed.

Lemma SFadd_mono x x' y y' :
  valid_binary x = true -> valid_binary x' = true ->
  valid_binary y = true -> valid_binary y' = true ->
  SFnonneg x = true -> SFnonneg y = true ->
  SFnonneg x' = true -> SFnonneg y' = true ->
  SFleb x x' = true -> SFleb y y' = true ->
  SFleb (SF64add x y) (SF64add x' y') = true.
Proof.
  intros Vx Vx' Vy Vy' Px Py Px' Py' Hx Hy.
  pose proof (SFnonneg_not_nan _ (SFadd_nonneg x y Px Py)) as N.
  destruct (SFfin x') eqn:Fx'.
  2:{ destruct x' as [s|[|]| |s m e]; try discriminate.
      replace (SF64add (S754_infinity false) y') with (S754_infinity false)
        by (now destruct y' as [s|[|]| |[|] m e]).
      now apply SFleb_pos_inf. }
  destruct (SFfin y') eqn:Fy'.
  2:{ destruct y' as [s|[|]| |s m e]; try discriminate.
      replace (SF64add x' (S754_infinity false)) with (S754_infinity false)
        by (now destruct x' as [s|[|]| |[|] m e]).
      now apply SFleb_pos_inf. }
  assert (Fx : SFfin x = true).
  { destruct x as [s|[|]| |[|] m e]; try discriminate; try reflexivity.
    now destruct x' as [s'|[|]| |[|] m' e']. }
  assert (Fy : SFfin y = true).
  { destruct y as [s|[|]| |[|] m e]; try discriminate; try reflexivity.
    now destruct y' as [s'|[|]| |[|] m' e']. }
  rewrite (SFleb_eqv _ _ _ _ (SFadd_units x y Vx Vy Fx Fy)
                     (SFadd_units x' y' Vx' Vy' Fx' Fy')).
  apply RNZ_mono.
  pose proof (SFleb_units_le x x' Vx Vx' Fx Fx' Hx).
  pose proof (SFleb_units_le y y' Vy Vy' Fy Fy' Hy). lia.
Qed.

Lemma binary_round_aux_exact s m e :
  binary_round_aux prec emax s (Z.pos m) e loc_Exact = bra s (Z.pos m) 1 e.
Proof. apply bra_spec; [lia|lia|apply located_exact]. Qed.

(** The product of two mantissas of the format has enough digits. *)
Lemma enough_mul s1 m1 e1 s2 m2 e2 :
  valid_binary (S754_finite s1 m1 e1) = true ->
  valid_binary (S754_finite s2 m2 e2) = true ->
  enough (Z.pos m1 * Z.pos m2) 1 (e1 + e2).
Proof.
  intros V1 V2.
  destruct (valid_finite _ _ _ V1) as (Hc1 & _ & He1 & _).
  destruct (valid_finite _ _ _ V2) as (Hc2 & _ & He2 & _).
  unfold enough. rewrite Z.div_1_r. rewrite fexp_eq in *.
  pose proof (Zdigits2_bounds (Z.pos m1) ltac:(lia)) as [L1 _].
  pose proof (Zdigits2_bounds (Z.pos m2) ltac:(lia)) as [L2 _].
  assert (D1 : 1 <= Zdigits2 (Z.pos m1)) by (simpl; lia).
  assert (D2 : 1 <= Zdigits2 (Z.pos m2)) by (simpl; lia).
  set (d1 := Zdigits2 (Z.pos m1)) in *. set (d2 := Zdigits2 (Z.pos m2)) in *.
  assert (Hd : d1 + d2 - 1 <= Zdigits2 (Z.pos m1 * Z.pos m2)).
  { assert (Hlow : 2 ^ (d1 + d2 - 2) <= Z.pos m1 * Z.pos m2).
    { replace (d1 + d2 - 2) with ((d1 - 1) + (d2 - 1)) by lia.
      rewrite Z.pow_add_r by lia.
      pose proof (Z.pow_pos_nonneg 2 (d1 - 1)).
      pose proof (Z.pow_pos_nonneg 2 (d2 - 1)). nia. }
    destruct (Z.le_gt_cases (d1 + d2 - 1) (Zdigits2 (Z.pos m1 * Z.pos m2)))
      as [|Hgt]; [assumption|].
    assert (Hle : Zdigits2 (Z.pos m1 * Z.pos m2) <= d1 + d2 - 2) by lia.
    apply Zdigits2_lt_pow2 in Hle; lia. }
  lia.
Qed.

Lemma SFmul_mono x x' mc ec :
  valid_binary x = true -> valid_binary x' = true ->
  valid_binary (S754_finite false mc ec) = true ->
  SFnonneg x = true -> SFnonneg x' = true ->
  SFleb x x' = true ->
  SFleb (SF64mul x (S754_finite false mc ec))
        (SF64mul x' (S754_finite false mc ec)) = true.
Proof.
  intros Vx Vx' Vc Px Px' H.
  pose proof (SFmul_nonneg x mc ec Px) as P1.
  pose proof (SFmul_nonneg x' mc ec Px') as P2.
  destruct x as [s|[|]| |[|] m e]; try discriminate.
  - now apply SFleb_zero_l.
  - destruct x' as [s'|[|]| |[|] m' e']; try discriminate. reflexivity.
  - destruct x' as [s'|[|]| |[|] m' e']; try discriminate.
    { apply SFleb_pos_inf. now apply SFnonneg_not_nan. }
    unfold SF64mul, SFmul. cbn [xorb].
    rewrite !binary_round_aux_exact.
    destruct (valid_finite _ _ _ Vx) as (_ & _ & He & _).
    destruct (valid_finite _ _ _ Vx') as (_ & _ & He' & _).
    pose proof (SFleb_units_le _ _ Vx Vx' eq_refl eq_refl H) as Hu.
    cbn [units cond_Zopp] in Hu.
    apply (bra_mono_val _ _ _ _ 1 (ec - 1074)); try lia.
    + change (Z.pos (m * mc)) with (Z.pos m * Z.pos mc).
      now apply (enough_mul false _ _ false).
    + change (Z.pos (m' * mc)) with (Z.pos m' * Z.pos mc).
      now apply (enough_mul false _ _ false).
    + replace (e + ec - (ec - 1074)) with (e + 1074) by lia.
      replace (e' + ec - (ec - 1074)) with (e' + 1074) by lia.
      rewrite !Pos2Z.inj_mul. nia.
Qed.

(** *** Division *)

Lemma SFdiv_core_spec m1 e1 m2 e2 :
  let e' := div_exp m1 e1 m2 e2 in
  let N := Z.pos m1 * 2 ^ (e1 - e2 - e') in
  SFdiv_core_binary prec emax (Z.pos m1) e1 (Z.pos m2) e2 =
  (N / Z.pos m2, e', new_location (Z.pos m2) (N mod Z.pos m2)).
Proof.
  intros e' N. unfold SFdiv_core_binary. fold (div_exp m1 e1 m2 e2). fold e'.
  assert (Hs : 0 <= e1 - e2 - e') by (subst e'; unfold div_exp; lia).
  assert (E : match e1 - e2 - e' with
              | 0 => Z.pos m1
              | Z.pos _ => Z.shiftl (Z.pos m1) (e1 - e2 - e')
              | Z.neg _ => 0
              end = N).
  { subst N. destruct (e1 - e2 - e') as [|p|p] eqn:Es; try lia.
    now rewrite Z.shiftl_mul_pow2 by lia. }
  rewrite E. unfold Z.div, Z.modulo.
  now destruct (Z.div_eucl N (Z.pos m2)).
Qed.

Lemma new_location_located N D :
  0 <= N -> 0 < D ->
  located N D (shr_record_of_loc (N / D) (new_location D (N mod D))).
Proof.
  intros HN HD. split; [apply shr_record_of_loc_m|].
  pose proof (Z.mod_pos_bound N D HD) as Hr.
  unfold loc_bits, new_location, new_location_even, new_location_odd.
  destruct (Z.even D) eqn:Ev; destruct (Z.eqb_spec (N mod D) 0) as [E0|E0];
    try reflexivity.
  - now destruct (2 * (N mod D) ?= D).
  - assert (Hodd : Z.odd D = true) by (rewrite <- Z.negb_even, Ev; reflexivity).
    apply Z.odd_spec in Hodd. destruct Hodd as [k Hk].
    destruct (Z.compare_spec (2 * (N mod D) + 1) D),
             (Z.compare_spec (2 * (N mod D)) D); try lia; reflexivity.
Qed.

Lemma SFdiv_bra m1 e1 m2 e2 :
  valid_binary (S754_finite false m1 e1) = true ->
  valid_binary (S754_finite false m2 e2) = true ->
  let e' := div_exp m1 e1 m2 e2 in
  let N := Z.pos m1 * 2 ^ (e1 - e2 - e') in
  SF64div (S754_finite false m1 e1) (S754_finite false m2 e2) =
  bra false N (Z.pos m2) e' /\
  enough N (Z.pos m2) e' /\
  Z.min (-1074) (-1074 - e2) <= e' <= e1 - e2.
Proof.
  intros V1 V2 e' N.
  destruct (valid_finite _ _ _ V1) as (Hc1 & _ & He1 & Hm1).
  destruct (valid_finite _ _ _ V2) as (Hc2 & _ & He2 & Hm2).
  assert (He' : Z.min (-1074) (-1074 - e2) <= e' <= e1 - e2).
  { subst e'. unfold div_exp. rewrite fexp_eq. lia. }
  assert (Hp : 0 < 2 ^ (e1 - e2 - e')) by (apply Z.pow_pos_nonneg; lia).
  assert (HN : 0 <= N) by (subst N; nia).
  split; [|split; [|exact He']].
  - unfold SF64div, SFdiv. cbn [xorb].
    pose proof (SFdiv_core_spec m1 e1 m2 e2) as Hcore. cbv zeta in Hcore.
    fold e' in Hcore. fold N in Hcore. rewrite Hcore.
    apply bra_spec; [exact HN|lia|]. apply new_location_located; lia.
  - unfold enough. rewrite fexp_eq.
    destruct (Z.le_gt_cases e' (-1074)) as [Hle|Hgt]; [lia|].
    assert (Hq : 2 ^ 52 <= N / Z.pos m2).
    { apply Z.div_le_lower_bound; [lia|].
      pose proof (Zdigits2_bounds (Z.pos m1) ltac:(lia)) as [L1 _].
      pose proof (Zdigits2_bounds (Z.pos m2) ltac:(lia)) as [_ U2].
      set (d1 := Zdigits2 (Z.pos m1)) in *.
      set (d2 := Zdigits2 (Z.pos m2)) in *.
      assert (D1 : 1 <= d1) by (subst d1; simpl; lia).
      assert (D2 : 1 <= d2) by (subst d2; simpl; lia).
      assert (Hs : 53 - d1 + d2 <= e1 - e2 - e').
      { subst e'. unfold div_exp in *. rewrite fexp_eq in *. fold d1 d2 in Hgt.
        fold d1 d2. lia. }
      assert (Hpow : 2 ^ (d2 + 52) <= 2 ^ (d1 - 1) * 2 ^ (e1 - e2 - e')).
      { rewrite <- Z.pow_add_r by lia. apply Z.pow_le_mono_r; lia. }
      rewrite Z.pow_add_r in Hpow by lia.
      pose proof (Z.pow_pos_nonneg 2 (d1 - 1) ltac:(lia) ltac:(lia)).
      subst N. change (2 ^ 52) with 4503599627370496 in *. nia. }
    assert (Hd : 53 <= Zdigits2 (N / Z.pos m2)).
    { destruct (Z.le_gt_cases 53 (Zdigits2 (N / Z.pos m2))) as [|Hlt];
        [assumption|].
      assert (Hle : Zdigits2 (N / Z.pos m2) <= 52) by lia.
      apply Zdigits2_lt_pow2 in Hle; lia. }
    lia.
Qed.

Lemma SFdiv_mono x x' mc ec :
  valid_binary x = true -> valid_binary x' = true ->
  valid_binary (S754_finite false mc ec) = true ->
  SFnonneg x = true -> SFnonneg x' = true ->
  SFleb x x' = true ->
  SFleb (SF64div x (S754_finite false mc ec))
        (SF64div x' (S754_finite false mc ec)) = true.
Proof.
  intros Vx Vx' Vc Px Px' H.
  pose proof (SFdiv_nonneg x mc ec Px) as P1.
  pose proof (SFdiv_nonneg x' mc ec Px') as P2.
  destruct x as [s|[|]| |[|] m e]; try discriminate.
  - now apply SFleb_zero_l.
  - destruct x' as [s'|[|]| |[|] m' e']; try discriminate. reflexivity.
  - destruct x' as [s'|[|]| |[|] m' e']; try discriminate.
    { apply SFleb_pos_inf. now apply SFnonneg_not_nan. }
    destruct (SFdiv_bra m e mc ec Vx Vc) as (E1 & En1 & B1).
    destruct (SFdiv_bra m' e' mc ec Vx' Vc) as (E2 & En2 & B2).
    cbv zeta in *. rewrite E1, E2.
    destruct (valid_finite _ _ _ Vx) as (_ & _ & He & _).
    destruct (valid_finite _ _ _ Vx') as (_ & _ & He' & _).
    pose proof (SFleb_units_le _ _ Vx Vx' eq_refl eq_refl H) as Hu.
    cbn [units cond_Zopp] in Hu.
    set (e0 := Z.min (-1074) (-1074 - ec)) in *.
    set (d := div_exp m e mc ec) in *. set (d' := div_exp m' e' mc ec) in *.
    assert (Hp : 0 < 2 ^ (e - ec - d)) by (apply Z.pow_pos_nonneg; lia).
    assert (Hp' : 0 < 2 ^ (e' - ec - d')) by (apply Z.pow_pos_nonneg; lia).
    apply (bra_mono_val _ _ _ _ (Z.pos mc) e0); try assumption; try lia;
      try nia.
    rewrite <- !Z.mul_assoc, <- !Z.pow_add_r by lia.
    replace (e - ec - d + (d - e0)) with (e + 1074 + (-1074 - ec - e0)) by lia.
    replace (e' - ec - d' + (d' - e0)) with (e' + 1074 + (-1074 - ec - e0))
      by lia.
    set (t := -1074 - ec - e0).
    rewrite (Z.pow_add_r 2 (e + 1074) t), (Z.pow_add_r 2 (e' + 1074) t)
      by (subst t; lia).
    rewrite !Z.mul_assoc.
    apply Z.mul_le_mono_nonneg_r; [|exact Hu].
    apply Z.pow_nonneg. lia.
Qed.

(** *** [Math.max(0, x)] and [Math.round(x)] *)

Lemma SFmax0_mono x x' :
  x <> S754_nan -> x' <> S754_nan -> SFleb x x' = true ->
  SFleb (SFmax0 x) (SFmax0 x') = true.
Proof.
  intros N N' H.
  destruct x as [s|[|]| |[|] m e], x' as [s'|[|]| |[|] m' e'];
    try (now destruct N); try (now destruct N');
    try reflexivity; try discriminate; exact H.
Qed.

Lemma round_shift m e :
  e < 0 -> -1074 <= e ->
  Z.shiftr (2 * Z.pos m + 2 ^ (- e)) (1 - e) =
  (2 * (Z.pos m * 2 ^ (e + 1074)) + 2 ^ 1074) / 2 ^ 1075.
Proof.
  intros He He'. rewrite Z.shiftr_div_pow2 by lia.
  assert (Hp : 0 < 2 ^ (e + 1074)) by (apply Z.pow_pos_nonneg; lia).
  assert (E1 : 2 ^ 1074 = 2 ^ (- e) * 2 ^ (e + 1074))
    by (rewrite <- Z.pow_add_r by lia; f_equal; lia).
  assert (E2 : 2 ^ 1075 = 2 ^ (1 - e) * 2 ^ (e + 1074))
    by (rewrite <- Z.pow_add_r by lia; f_equal; lia).
  rewrite E2, E1 at 1.
  replace (2 * (Z.pos m * 2 ^ (e + 1074)) + 2 ^ (- e) * 2 ^ (e + 1074))
    with ((2 * Z.pos m + 2 ^ (- e)) * 2 ^ (e + 1074)) by lia.
  rewrite Z.div_mul_cancel_r; [reflexivity| |lia].
  pose proof (Z.pow_pos_nonneg 2 (1 - e)). lia.
Qed.

Lemma round_shift_bounds m e :
  e < 0 -> Z.pos m < 2 ^ 53 ->
  0 <= Z.shiftr (2 * Z.pos m + 2 ^ (- e)) (1 - e) <= 2 ^ 52.
Proof.
  intros He Hm. rewrite Z.shiftr_div_pow2 by lia.
  assert (Hp : 2 ^ 1 <= 2 ^ (- e)) by (apply Z.pow_le_mono_r; lia).
  assert (E : 2 ^ (1 - e) = 2 * 2 ^ (- e)).
  { replace (1 - e) with (1 + - e) by lia. now rewrite Z.pow_add_r by lia. }
  rewrite E. change (2 ^ 1) with 2 in Hp.
  change (2 ^ 53) with 9007199254740992 in Hm.
  change (2 ^ 52) with 4503599627370496.
  split.
  - apply Z.div_pos; lia.
  - apply Z.lt_succ_r. apply Z.div_lt_upper_bound; nia.
Qed.

Lemma of_int_spec n :
  0 < n <= 2 ^ 52 -> Prim2SF (JS.of_int n) = RNZ (n * 2 ^ 1074).
Proof.
  intros Hn. unfold JS.of_int. destruct (Z.ltb_spec n 0); [lia|].
  rewrite of_uint63_spec, Uint63.of_Z_spec.
  rewrite Z.mod_small.
  - now rewrite binary_normalize_units by lia.
  - change (2 ^ 52) with 4503599627370496 in Hn.
    change Uint63.wB with 9223372036854775808. lia.
Qed.

Lemma Math_round_spec x :
  nonneg x -> Prim2SF (JS.Math_round x) = SFround (Prim2SF x).
Proof.
  unfold nonneg, JS.Math_round. intros Hx.
  pose proof (Prim2SF_valid x) as V.
  destruct (Prim2SF x) as [s|s| |s m e] eqn:E; cbn [SFround]; try exact E.
  destruct s; [discriminate|].
  destruct (Z.leb_spec 0 e) as [He|He]; [exact E|].
  destruct (valid_finite _ _ _ V) as (_ & _ & He' & Hm).
  pose proof (round_shift_bounds m e He Hm) as Hb.
  unfold round_units, units. cbn [cond_Zopp].
  rewrite <- (round_shift m e He He').
  set (n := Z.shiftr _ _) in *.
  destruct (Z.eqb_spec n 0) as [->|Hn]; [reflexivity|].
  apply of_int_spec. lia.
Qed.

Lemma SFround_nonneg x : SFnonneg x = true -> SFnonneg (SFround x) = true.
Proof.
  intros H. destruct x as [s|[|]| |[|] m e]; try discriminate; try reflexivity.
  cbn [SFround]. destruct (0 <=? e); [reflexivity|].
  assert (Hr : 0 <= round_units (units (S754_finite false m e))).
  { unfold round_units, units. cbn [cond_Zopp].
    apply Z.mul_nonneg_nonneg; [|apply Z.pow_nonneg; lia].
    apply Z.div_pos; [|apply Z.pow_pos_nonneg; lia].
    pose proof (Z.pow_nonneg 2 (e + 1074)). pose proof (Z.pow_nonneg 2 1074).
    nia. }
  pose proof (RNZ_sign (round_units (units (S754_finite false m e)))) as S.
  destruct (round_units _) as [|p|p]; [now rewrite S| |lia].
  now apply has_sign_nonneg.
Qed.

Lemma SFround_mono x x' :
  valid_binary x = true -> valid_binary x' = true ->
  SFnonneg x = true -> SFnonneg x' = true ->
  SFleb x x' = true -> SFleb (SFround x) (SFround x') = true.
Proof.
  intros V V' P P' H.
  pose proof (SFround_nonneg x P) as R. pose proof (SFround_nonneg x' P') as R'.
  destruct x as [s|[|]| |[|] m e]; try discriminate.
  - now apply SFleb_zero_l.
  - destruct x' as [s'|[|]| |[|] m' e']; try discriminate. reflexivity.
  - destruct x' as [s'|[|]| |[|] m' e']; try discriminate.
    { apply SFleb_pos_inf. now apply SFnonneg_not_nan. }
    pose proof (SFleb_units_le _ _ V V' eq_refl eq_refl H) as Hu.
    pose proof (SFleb_pos_cases _ _ _ _ H) as Hc.
    cbn [SFround].
    destruct (Z.leb_spec 0 e) as [He|He], (Z.leb_spec 0 e') as [He'|He'].
    + exact H.
    + lia.
    + rewrite <- (RNZ_units false m' e' V'). apply RNZ_mono.
      destruct (valid_finite _ _ _ V) as (_ & _ & Hl & Hm).
      destruct (valid_finite _ _ _ V') as (Hc' & _ & _ & _).
      pose proof (round_shift_bounds m e He Hm) as Hb.
      rewrite (round_shift m e He Hl) in Hb.
      unfold round_units. cbn [units cond_Zopp] in *.
      assert (Hd : Zdigits2 (Z.pos m') = 53) by (rewrite fexp_eq in Hc'; lia).
      pose proof (Zdigits2_bounds (Z.pos m') ltac:(lia)) as [Hlo _].
      rewrite Hd in Hlo. simpl (53 - 1) in Hlo.
      replace (e' + 1074) with (e' + 1074) by lia.
      rewrite (Z.pow_add_r 2 e' 1074) by lia.
      pose proof (Z.pow_pos_nonneg 2 e' ltac:(lia) He').
      pose proof (Z.pow_pos_nonneg 2 1074 ltac:(lia) ltac:(lia)).
      set (P1074 := 2 ^ 1074) in *. nia.
    + apply RNZ_mono. unfold round_units.
      apply Z.mul_le_mono_nonneg_r; [apply Z.pow_nonneg; lia|].
      apply Z.div_le_mono; [apply Z.pow_pos_nonneg; lia|]. lia.
Qed.

(** ** The order of Numbers *)

Local Close Scope Z_scope.

Lemma le_spec a b : le a b <-> SFleb (Prim2SF a) (Prim2SF b) = true.
Proof. unfold le. now rewrite FloatAxioms.leb_spec. Qed.

Lemma nonneg_not_nan a : nonneg a -> Prim2SF a <> S754_nan.
Proof. apply SFnonneg_not_nan. Qed.

Lemma le_refl a : Prim2SF a <> S754_nan -> le a a.
Proof.
  intros H. apply le_spec. unfold SFleb. now rewrite SFcompare_refl.
Qed.

Lemma nonneg_le a a' : nonneg a -> le a a' -> nonneg a'.
Proof.
  unfold nonneg. rewrite le_spec.
  now destruct (Prim2SF a) as [s|[|]| |[|] m e],
               (Prim2SF a') as [s'|[|]| |[|] m' e'].
Qed.

Lemma count_nonneg a : SFcount (Prim2SF a) = true -> nonneg a.
Proof. apply SFcount_nonneg. Qed.

Lemma le_add a a' b b' :
  nonneg a -> nonneg b -> le a a' -> le b b' -> le (a + b) (a' + b').
Proof.
  intros Pa Pb Ha Hb.
  pose proof (nonneg_le _ _ Pa Ha) as Pa'.
  pose proof (nonneg_le _ _ Pb Hb) as Pb'.
  apply le_spec. rewrite !add_spec.
  apply SFadd_mono; try apply Prim2SF_valid; try assumption; now apply le_spec.
Qed.

Lemma le_sub_l a a' c :
  Prim2SF a <> S754_nan -> Prim2SF a' <> S754_nan ->
  SFcount (Prim2SF c) = true -> le a a' -> le (a - c) (a' - c).
Proof.
  intros Na Na' Hc H. apply le_spec. rewrite !sub_spec.
  apply SFsub_mono_l; try apply Prim2SF_valid; try assumption.
  now apply le_spec.
Qed.

Lemma le_mul a a' c :
  nonneg a -> posFinite c = true -> le a a' -> le (a * c) (a' * c).
Proof.
  intros Pa Hc H. pose proof (nonneg_le _ _ Pa H) as Pa'.
  apply le_spec. rewrite !mul_spec. unfold posFinite in Hc.
  pose proof (Prim2SF_valid c) as Vc.
  destruct (Prim2SF c) as [s|s| |[|] m e]; try discriminate.
  apply SFmul_mono; try apply Prim2SF_valid; try assumption.
  now apply le_spec.
Qed.

Lemma le_div a a' c :
  nonneg a -> posFinite c = true -> le a a' -> le (a / c) (a' / c).
Proof.
  intros Pa Hc H. pose proof (nonneg_le _ _ Pa H) as Pa'.
  apply le_spec. rewrite !div_spec. unfold posFinite in Hc.
  pose proof (Prim2SF_valid c) as Vc.
  destruct (Prim2SF c) as [s|s| |[|] m e]; try discriminate.
  apply SFdiv_mono; try apply Prim2SF_valid; try assumption.
  now apply le_spec.
Qed.

Lemma le_max0 a a' :
  Prim2SF a <> S754_nan -> Prim2SF a' <> S754_nan -> le a a' ->
  le (JS.Math_max 0 a) (JS.Math_max 0 a').
Proof.
  intros Na Na' H. apply le_spec. rewrite !Math_max_0_spec by assumption.
  apply SFmax0_mono; try assumption. now apply le_spec.
Qed.

Lemma le_round a a' :
  nonneg a -> le a a' -> le (JS.Math_round a) (JS.Math_round a').
Proof.
  intros Pa H. pose proof (nonneg_le _ _ Pa H) as Pa'.
  apply le_spec. rewrite !Math_round_spec by assumption.
  apply SFround_mono; try apply Prim2SF_valid; try assumption.
  now apply le_spec.
Qed.

Lemma is_zero_spec x :
  PrimFloat.is_zero x =
  match Prim2SF x with S754_zero _ => true | _ => false end.
Proof.
  unfold PrimFloat.is_zero. rewrite FloatAxioms.eqb_spec.
  change (Prim2SF PrimFloat.zero) with (S754_zero false).
  now destruct (Prim2SF x) as [s|[|]| |[|] m e].
Qed.

(** [x || 0] keeps the number a token count is. *)
Lemma or0_eqv v :
  tokenCount v = true -> SFeqv (Prim2SF (JS.or0 (Some v))) (Prim2SF v).
Proof.
  rewrite tokenCount_spec. intros Hc. unfold JS.or0, JS.truthy.
  rewrite is_nan_spec, is_zero_spec.
  destruct (Prim2SF v) as [s|[|]| |[|] m e] eqn:E; try discriminate; simpl.
  - right. exists false, s. now split.
  - left. exact E.
Qed.

Lemma le_or0 v v' :
  tokenCount v = true -> tokenCount v' = true -> le v v' ->
  le (JS.or0 (Some v)) (JS.or0 (Some v')).
Proof.
  intros Hv Hv' H. apply le_spec.
  rewrite (SFleb_eqv _ _ _ _ (or0_eqv v Hv) (or0_eqv v' Hv')).
  now apply le_spec.
Qed.

Lemma max0_nonneg x : Prim2SF x <> S754_nan -> nonneg (JS.Math_max 0 x).
Proof. apply Math_max_0_nonneg. Qed.

Create HintDb numbers.
#[local] Hint Resolve add_nonneg mul_nonneg div_nonneg Math_round_nonneg
  max0_nonneg posFinite_1e6 count_nonneg nonneg_not_nan le_refl : numbers.

(** ** Monotonicity of the cost *)

Lemma calculateCost_round6 u f :
  calculateCost u (family_key f) =
  round6 (costFormula (JS.or0 (input_tokens u)) (JS.or0 (output_tokens u))
                      (JS.or0 (cache_creation_input_tokens u))
                      (JS.or0 (cache_read_input_tokens u)) (rateOf f)).
Proof.
  unfold calculateCost, round6, costFormula, normalInput.
  now rewrite PRICING_family.
Qed.

Section CostOrder.

Variables (o w r : float) (p : rates).
Hypothesis Ho : SFcount (Prim2SF o) = true.
Hypothesis Hw : SFcount (Prim2SF w) = true.
Hypothesis Hr : SFcount (Prim2SF r) = true.
Hypothesis Pi : posFinite (input p) = true.
Hypothesis Po : posFinite (output p) = true.
Hypothesis Pr : posFinite (cache_read p) = true.
Hypothesis Pw : posFinite (cache_write p) = true.

Lemma normal_not_nan i :
  SFcount (Prim2SF i) = true -> Prim2SF (i - r - w)%float <> S754_nan.
Proof.
  intros Hi. rewrite !sub_spec.
  apply SFsub_not_nan; [|exact Hw]. apply SFsub_not_nan; [|exact Hr].
  intros E. now rewrite E in Hi.
Qed.

Lemma count_not_nan i : SFcount (Prim2SF i) = true -> Prim2SF i <> S754_nan.
Proof. intros Hi E. now rewrite E in Hi. Qed.

Lemma costFormula_nonneg i v :
  SFcount (Prim2SF i) = true -> SFcount (Prim2SF v) = true ->
  nonneg (costFormula i v w r p).
Proof.
  intros Hi Hv. unfold costFormula.
  pose proof (normal_not_nan i Hi). auto 10 with numbers.
Qed.

Lemma costFormula_le_input i i' :
  SFcount (Prim2SF i) = true -> SFcount (Prim2SF i') = true -> le i i' ->
  le (costFormula i o w r p) (costFormula i' o w r p).
Proof.
  intros Hi Hi' H. unfold costFormula.
  pose proof (normal_not_nan i Hi) as N.
  pose proof (normal_not_nan i' Hi') as N'.
  pose proof (count_not_nan i Hi) as Ni.
  pose proof (count_not_nan i' Hi') as Ni'.
  assert (Hn : le (i - r - w) (i' - r - w)).
  { apply le_sub_l; try exact Hw; rewrite ?sub_spec;
      try (apply SFsub_not_nan; assumption).
    now apply le_sub_l. }
  repeat (apply le_add; auto 10 with numbers).
  apply le_mul; auto with numbers. apply le_div; auto with numbers.
  now apply le_max0.
Qed.

Lemma costFormula_le_output i v v' :
  SFcount (Prim2SF i) = true ->
  SFcount (Prim2SF v) = true -> SFcount (Prim2SF v') = true -> le v v' ->
  le (costFormula i v w r p) (costFormula i v' w r p).
Proof.
  intros Hi Hv Hv' H. unfold costFormula.
  pose proof (normal_not_nan i Hi) as N.
  apply le_add; auto 10 with numbers.
  apply le_mul; auto with numbers. apply le_div; auto with numbers.
Qed.

End CostOrder.

Lemma round6_le a a' : nonneg a -> le a a' -> le (round6 a) (round6 a').
Proof.
  intros Pa H. unfold round6.
  apply le_div; auto with numbers. apply le_round; auto with numbers.
  apply le_mul; auto with numbers.
Qed.

(** ** The clamp on the normal input *)

Lemma count_fin x : SFcount x = true -> SFfin x = true.
Proof. now destruct x as [s|s| |[|] m e]. Qed.

Lemma count_RNZ x :
  valid_binary x = true -> SFcount x = true -> SFeqv x (RNZ (units x)).
Proof.
  intros V H. destruct x as [s|s| |[|] m e]; try discriminate.
  - right. exists s, false. now split.
  - left. now rewrite RNZ_units.
Qed.

Lemma SFltb_zero_le x z s :
  SFleb x z = true -> z = S754_zero s -> SFltb (S754_zero false) x = false.
Proof. intros H ->. now destruct x as [s'|[|]| |[|] m e]. Qed.

(** When the cache counts exceed the input count the clamped normal input
    is [+0]. *)
Lemma clamp_zero i r w :
  SFcount (Prim2SF i) = true -> SFcount (Prim2SF r) = true ->
  SFcount (Prim2SF w) = true ->
  (exact i < exact r + exact w)%Z ->
  Prim2SF (JS.Math_max 0 (i - r - w)) = S754_zero false.
Proof.
  intros Hi Hr Hw H. unfold exact in H.
  pose proof (Prim2SF_valid i) as Vi. pose proof (Prim2SF_valid r) as Vr.
  pose proof (Prim2SF_valid w) as Vw.
  pose proof (Prim2SF_valid (i - r)) as Va.
  assert (Na : Prim2SF (i - r) <> S754_nan).
  { rewrite sub_spec. apply SFsub_not_nan; [|exact Hr].
    intros E. now rewrite E in Hi. }
  assert (Nw : Prim2SF w <> S754_nan) by (intros E; now rewrite E in Hw).
  assert (Hle : SFleb (Prim2SF (i - r)) (Prim2SF w) = true).
  { rewrite sub_spec.
    rewrite (SFleb_eqv _ _ _ _
               (SFsub_units _ _ Vi Vr (count_fin _ Hi) (count_fin _ Hr))
               (count_RNZ _ Vw Hw)).
    apply RNZ_mono. lia. }
  pose proof (SFsub_mono_l _ _ _ Va Vw Vw Na Nw Hw Hle) as Hs.
  rewrite <- sub_spec in Hs.
  assert (Hz : exists s, SF64sub (Prim2SF w) (Prim2SF w) = S754_zero s).
  { destruct (SFsub_units _ _ Vw Vw (count_fin _ Hw) (count_fin _ Hw))
      as [E|(s & s' & E & _)]; [|now exists s].
    rewrite Z.sub_diag in E. now exists false. }
  destruct Hz as [s Hz].
  rewrite Math_max_0_spec.
  - now rewrite (SFltb_zero_le _ _ s Hs Hz).
  - rewrite sub_spec. apply SFsub_not_nan; assumption.
Qed.

(** C4. For finite non-negative token counts (an absent count being 0) and
    every family, the cost is non-negative; the cost is the rounded sum of
    four components, and the input-token component is exactly 0 whenever the
    cache-read and cache-write counts together exceed the input count. *)
Theorem calculateCost_nonneg_clamped :
  forall (u : Usage) (f : Family),
    tokenCounts u = true ->
    (0 <=? calculateCost u (family_key f))%float = true /\
    calculateCost u (family_key f) =
    round6 (inputComponent u (rateOf f)
            + JS.or0 (cache_creation_input_tokens u) / 1e6
              * cache_write (rateOf f)
            + JS.or0 (cache_read_input_tokens u) / 1e6 * cache_read (rateOf f)
            + JS.or0 (output_tokens u) / 1e6 * output (rateOf f))%float /\
    ((exact (JS.or0 (input_tokens u))
      < exact (JS.or0 (cache_read_input_tokens u))
        + exact (JS.or0 (cache_creation_input_tokens u)))%Z ->
     inputComponent u (rateOf f) = 0%float).
Proof.
  intros u f Hu. split; [|split].
  - rewrite leb_zero_spec. now apply calculateCost_nonneg.
  - unfold calculateCost, round6, inputComponent. now rewrite PRICING_family.
  - intros H. destruct (tokenCounts_fields u Hu) as (Hi & _ & Hw & Hr).
    destruct (posFinite_rates f) as (Pi & _).
    apply Prim2SF_inj. unfold inputComponent, normalInput.
    rewrite mul_spec, div_spec, (clamp_zero _ _ _ Hi Hr Hw H).
    unfold posFinite in Pi.
    destruct (Prim2SF (input (rateOf f))) as [s|s| |[|] m e]; try discriminate.
    reflexivity.
Qed.

(** ** Instances of the cost theorems *)

Lemma calculateCost_nonneg_clamped_witness :
  inputComponent
    (mkUsage (Some 100%float) (Some 10%float) (Some 50%float) (Some 80%float))
    (rateOf Sonnet4) = 0%float.
Proof.
  apply (calculateCost_nonneg_clamped
           (mkUsage (Some 100%float) (Some 10%float) (Some 50%float)
                    (Some 80%float)) Sonnet4).
  - reflexivity.
  - vm_compute. reflexivity.
Defined.

(** ** Where the cost is not monotone *)

(** Raising the cache-read count from 0 to 1000 at 1000 input tokens lowers
    the cost from 0.003 to 0.0003, every cache-read token replacing a normal
    input token at a tenth of its rate; and at 1125018443302712 input tokens
    of claude-opus-4.6, raising the cache-write count from 3 to 4 lowers the
    cost by binary64 rounding. *)
Lemma cost_not_monotone_in_cache_counts :
  let u := mkUsage (Some 1000%float) None None None in
  let big := mkUsage (Some 1125018443302712%float) None None None in
  tokenCounts u = true /\ tokenCounts big = true /\
  (0 <=? 1000)%float = true /\ (3 <=? 4)%float = true /\
  calculateCost (withCacheRead u 0) "claude-sonnet-4" = 0.003%float /\
  calculateCost (withCacheRead u 1000) "claude-sonnet-4" = 0.0003%float /\
  (calculateCost (withCacheRead u 1000) "claude-sonnet-4"
   <? calculateCost (withCacheRead u 0) "claude-sonnet-4")%float = true /\
  (calculateCost (withCacheWrite big 4) "claude-opus-4.6"
   <? calculateCost (withCacheWrite big 3) "claude-opus-4.6")%float = true.
Proof. vm_compute. repeat split. Qed.

(** ** What [Math.round] returns *)

Local Open Scope Z_scope.

(** An integer of at most 53 bits is a float of the format. *)
Lemma RNZ_exact_int n :
  0 <= n <= 2 ^ 52 ->
  SFfin (RNZ (n * 2 ^ 1074)) = true /\
  units (RNZ (n * 2 ^ 1074)) = n * 2 ^ 1074.
Proof.
  intros [H0 Hn]. destruct (Z.eq_dec n 0) as [->|Hne]; [now split|].
  pose proof (Zdigits2_bounds n ltac:(lia)) as [Hlo Hhi].
  assert (Hd : 1 <= Zdigits2 n <= 53).
  { split; [destruct n; simpl; lia|].
    change (2 ^ 52) with 4503599627370496 in Hn.
    apply Zdigits2_lt_pow2; try lia.
    all: change (2 ^ 53) with 9007199254740992; lia. }
  set (d := Zdigits2 n) in *.
  pose proof (Z.pow_pos_nonneg 2 (53 - d) ltac:(lia) ltac:(lia)) as Hp.
  destruct (n * 2 ^ (53 - d)) as [|m|m] eqn:Em; try nia.
  assert (Hdm : Zdigits2 (Z.pos m) = 53).
  { rewrite <- Em. rewrite Zdigits2_mul_pow2 by lia. fold d. lia. }
  assert (V : valid_binary (S754_finite false m (d - 53)) = true).
  { unfold SpecFloat.valid_binary, bounded, canonical_mantissa.
    change (Z.pos (digits2_pos m)) with (Zdigits2 (Z.pos m)).
    rewrite Hdm, fexp_eq. apply andb_true_iff. split.
    - apply Z.eqb_eq. lia.
    - apply Z.leb_le. change (emax - prec) with 971. lia. }
  assert (E : n * 2 ^ 1074 = units (S754_finite false m (d - 53))).
  { cbn [units cond_Zopp]. rewrite <- Em, <- Z.mul_assoc, <- Z.pow_add_r by lia.
    do 2 f_equal. lia. }
  rewrite E, RNZ_units by exact V. now split.
Qed.

Lemma round_units_int k : round_units (k * 2 ^ 1074) = k * 2 ^ 1074.
Proof.
  unfold round_units. f_equal.
  replace (2 * (k * 2 ^ 1074) + 2 ^ 1074) with (1 * 2 ^ 1074 + k * 2 ^ 1075).
  - rewrite Z.div_add by (apply Z.pow_nonzero; lia).
    rewrite Z.mul_1_l, Z.div_small; [lia|].
    split; [apply Z.pow_nonneg; lia|]. apply Z.pow_lt_mono_r; lia.
  - change (2 ^ 1075) with (2 * 2 ^ 1074). lia.
Qed.

(** On a finite non-negative Number, [Math.round] returns exactly the
    nearest integer, the upper one in a tie. *)
Lemma Math_round_exact y :
  nonneg y -> SFfin (Prim2SF y) = true ->
  exact (JS.Math_round y) = round_units (exact y).
Proof.
  intros Hy Fy. unfold exact. rewrite Math_round_spec by exact Hy.
  pose proof (Prim2SF_valid y) as V. unfold nonneg in Hy.
  destruct (Prim2SF y) as [s|s| |[|] m e]; try discriminate.
  - reflexivity.
  - cbn [SFround]. destruct (Z.leb_spec 0 e) as [He|He].
    + cbn [units cond_Zopp]. rewrite (Z.pow_add_r 2 e 1074) by lia.
      rewrite Z.mul_assoc. now rewrite round_units_int.
    + destruct (valid_finite _ _ _ V) as (_ & _ & Hl & Hm).
      pose proof (round_shift_bounds m e He Hm) as Hb.
      rewrite (round_shift m e He Hl) in Hb.
      apply (RNZ_exact_int _ Hb).
Qed.

Local Close Scope Z_scope.

(** ** The formula of the cost *)

(** C3. For every usage object and family the calculator returns the
    formula, over the token counts with absent ones read as 0 and the rates of
    the family, rounded to 6 decimal places: the formula is scaled by 1e6,
    [Math.round] returns exactly the nearest integer of that (the upper one in
    a tie) whenever the counts are finite and non-negative and the scaled
    value is finite, and the result is divided by 1e6.  On the usage 1000 /
    500 / 200 / 100 against claude-sonnet-4 that is 0.01038. *)
Theorem calculateCost_formula :
  (forall (u : Usage) (f : Family),
      calculateCost u (family_key f) =
      round6 (costFormula (JS.or0 (input_tokens u)) (JS.or0 (output_tokens u))
                          (JS.or0 (cache_creation_input_tokens u))
                          (JS.or0 (cache_read_input_tokens u)) (rateOf f))) /\
  (forall (u : Usage) (f : Family),
      tokenCounts u = true ->
      let micro :=
        (costFormula (JS.or0 (input_tokens u)) (JS.or0 (output_tokens u))
                     (JS.or0 (cache_creation_input_tokens u))
                     (JS.or0 (cache_read_input_tokens u)) (rateOf f)
         * 1e6)%float in
      PrimFloat.is_infinity micro = false ->
      exact (JS.Math_round micro) = round_units (exact micro)) /\
  calculateCost (mkUsage (Some 1000%float) (Some 500%float) (Some 200%float)
                         (Some 100%float)) "claude-sonnet-4" = 0.01038%float.
Proof.
  split; [|split].
  - exact calculateCost_round6.
  - intros u f H micro Hfin.
    destruct (tokenCounts_fields u H) as (Hi & Ho & Hw & Hr).
    destruct (posFinite_rates f) as (Pi & Po & Pr & Pw).
    assert (Hn : nonneg micro).
    { apply mul_nonneg; [|exact posFinite_1e6].
      now apply costFormula_nonneg. }
    apply Math_round_exact; [exact Hn|].
    rewrite is_infinity_spec in Hfin. unfold nonneg in Hn.
    now destruct (Prim2SF micro) as [s|s| |s m e].
  - vm_compute. reflexivity.
Qed.

(** * Further properties: the session parser *)

(** ** The session parser: what a log contributes *)

Lemma timestamps_cons line lines :
  timestamps (line :: lines) =
  match timestampOf line with
  | Some ts => ts :: timestamps lines
  | None => timestamps lines
  end.
Proof. reflexivity. Qed.

Lemma sessionStart_lines lines st :
  st_sessionStart (foldl parseLine st lines) =
  match st_sessionStart st with
  | Some s => Some s
  | None => head (timestamps lines)
  end.
Proof.
  revert st. induction lines as [|line lines IH]; intros st.
  - simpl. now destruct (st_sessionStart st).
  - cbn [foldl]. rewrite IH, timestamps_cons.
    destruct line as [entry|]; cbn [parseLine timestampOf chain];
      [|reflexivity].
    destruct (truthy_str (timestamp entry));
      now destruct (st_sessionStart st).
Qed.

Lemma sessionEnd_lines lines st :
  st_sessionEnd (foldl parseLine st lines) =
  match last (timestamps lines) with
  | Some e => Some e
  | None => st_sessionEnd st
  end.
Proof.
  revert st. induction lines as [|line lines IH]; intros st; [reflexivity|].
  cbn [foldl]. rewrite IH, timestamps_cons.
  destruct line as [entry|]; cbn [parseLine timestampOf chain];
    [|reflexivity].
  destruct (truthy_str (timestamp entry)) as [ts|]; [|reflexivity].
  cbn [st_sessionEnd]. rewrite last_cons.
  now destruct (last (timestamps lines)).
Qed.

(** The state after the line loop is made of the usage events and the
    timestamps of the log, and of nothing else. *)
Lemma parse_state lines :
  foldl parseLine (mkParseState [] None None) lines =
  mkParseState (setAll [] (setEvents lines)) (head (timestamps lines))
               (last (timestamps lines)).
Proof.
  pose proof (requestMap_lines lines (mkParseState [] None None)) as Hm.
  pose proof (sessionStart_lines lines (mkParseState [] None None)) as Hs.
  pose proof (sessionEnd_lines lines (mkParseState [] None None)) as He.
  destruct (foldl parseLine _ lines) as [m s e]. simpl in *.
  rewrite Hm, Hs, He. now destruct (last (timestamps lines)).
Qed.

Lemma setEvents_app l1 l2 :
  setEvents (l1 ++ l2) = (setEvents l1 ++ setEvents l2)%list.
Proof. unfold setEvents. apply flat_map_app. Qed.

Lemma timestamps_app l1 l2 :
  timestamps (l1 ++ l2) = (timestamps l1 ++ timestamps l2)%list.
Proof. unfold timestamps. apply omap_app. Qed.

Lemma parses_events lines :
  setEvents (List.filter parses lines) = setEvents lines /\
  timestamps (List.filter parses lines) = timestamps lines.
Proof.
  induction lines as [|[entry|] lines [IH1 IH2]]; [now split| |].
  - split.
    + change (setEvents (Some entry :: List.filter parses lines) =
              setEvents (Some entry :: lines)).
      unfold setEvents in *. cbn [flat_map]. now rewrite IH1.
    + change (timestamps (Some entry :: List.filter parses lines) =
              timestamps (Some entry :: lines)).
      rewrite !timestamps_cons. now rewrite IH2.
  - split; assumption.
Qed.

(** X1. A log and the same log without the lines on which [JSON.parse]
    throws have the same aggregate; so has a log from which a parsed line
    with neither a truthy timestamp nor a usage under a request id is
    removed.  The aggregate depends on the log through its usage events and
    its timestamps only. *)
Theorem parseSessionFile_skips_bad_lines :
  (forall lines : list (option Entry),
      parseSessionFile lines = parseSessionFile (List.filter parses lines)) /\
  (forall (l1 l2 : list (option Entry)) (entry : Entry),
      truthy_str (timestamp entry) = None ->
      lineEvents (Some entry) = [] ->
      parseSessionFile (l1 ++ Some entry :: l2)%list =
      parseSessionFile (l1 ++ l2)%list) /\
  (forall l1 l2 : list (option Entry),
      setEvents l1 = setEvents l2 -> timestamps l1 = timestamps l2 ->
      parseSessionFile l1 = parseSessionFile l2).
Proof.
  assert (H : forall l1 l2 : list (option Entry),
             setEvents l1 = setEvents l2 -> timestamps l1 = timestamps l2 ->
             parseSessionFile l1 = parseSessionFile l2).
  { intros l1 l2 He Ht. unfold parseSessionFile.
    now rewrite !parse_state, He, Ht. }
  split; [|split; [|exact H]].
  - intros lines. destruct (parses_events lines) as [He Ht].
    now apply H.
  - intros l1 l2 entry Hts Hev. apply H.
    + rewrite !setEvents_app. f_equal.
      change (setEvents (Some entry :: l2)) with
        (lineEvents (Some entry) ++ setEvents l2)%list.
      now rewrite Hev.
    + rewrite !timestamps_app. f_equal.
      rewrite timestamps_cons. cbn [timestampOf chain]. now rewrite Hts.
Qed.

(** X2. The session starts at the first truthy timestamp of the log and
    ends at the last one, in the order of the lines (not at the smallest and
    the largest); both are absent when no parsed line has a timestamp. *)
Theorem session_window :
  forall lines : list (option Entry),
    sessionStart (parseSessionFile lines) = head (timestamps lines) /\
    sessionEnd (parseSessionFile lines) = last (timestamps lines).
Proof.
  intros lines. unfold parseSessionFile. rewrite parse_state. now split.
Qed.

(** ** The per-model tables *)

Lemma prop_is_Some {V} (m : list (string * V)) k :
  is_Some (prop m k) <-> In k (map fst m).
Proof.
  induction m as [|[k' v] m IH]; simpl.
  - split; [intros [x Hx]; discriminate | tauto].
  - destruct (String.eqb_spec k' k) as [->|Hne].
    + split; [now left | now exists v].
    + rewrite IH. split; [now right | now intros [?|?]].
Qed.

Lemma NoDup_Map_set {V} (m : list (string * V)) k v :
  List.NoDup (map fst m) -> List.NoDup (map fst (Map_set m k v)).
Proof.
  intros H. rewrite keys_Map_set.
  destruct (existsb (String.eqb k) (map fst m)) eqn:E.
  - now rewrite app_nil_r.
  - apply NoDup_ListNoDup, NoDup_app.
    split; [now apply NoDup_ListNoDup|]. split; [|apply NoDup_singleton].
    intros x Hx Hk. apply list_elem_of_singleton in Hk. subst x.
    apply list_elem_of_In in Hx.
    assert (existsb (String.eqb k) (map fst m) = true); [|congruence].
    apply existsb_exists. exists k. split; [exact Hx | apply String.eqb_refl].
Qed.

Lemma sum_Map_set (m : list (string * nat)) k :
  list_sum (map snd (Map_set m k (default 0 (prop m k) + 1))) =
  list_sum (map snd m) + 1.
Proof.
  induction m as [|[k' c] m IH]; simpl; [reflexivity|].
  destruct (String.eqb k' k); simpl; lia.
Qed.

Lemma requestsOf_cons k r rs :
  requestsOf k (r :: rs) =
  if String.eqb (getModelFamily (req_model r)) k
  then r :: requestsOf k rs else requestsOf k rs.
Proof. reflexivity. Qed.

Section Tables.

Variable k : string.

Lemma count_fold rs t :
  default 0 (prop (acc_count (foldl addRequest t rs)) k) =
  default 0 (prop (acc_count t) k) + length (requestsOf k rs).
Proof.
  revert t. induction rs as [|r rs IH]; intros t; [simpl; lia|].
  cbn [foldl]. rewrite IH, requestsOf_cons. unfold addRequest at 1.
  cbn [acc_count].
  rewrite prop_Map_set.
  destruct (String.eqb (getModelFamily (req_model r)) k) eqn:E; simpl; [|lia].
  apply String.eqb_eq in E. rewrite E. lia.
Qed.

Lemma keys_fold rs t :
  In k (map fst (acc_count (foldl addRequest t rs))) <->
  In k (map fst (acc_count t)) \/ requestsOf k rs <> [].
Proof.
  revert t. induction rs as [|r rs IH]; intros t; [simpl; tauto|].
  cbn [foldl]. rewrite IH, requestsOf_cons. unfold addRequest at 1.
  cbn [acc_count].
  rewrite <- !prop_is_Some, prop_Map_set.
  destruct (String.eqb (getModelFamily (req_model r)) k) eqn:E.
  - split; [intros _; now right | intros _; left; eauto].
  - tauto.
Qed.

End Tables.

Lemma tables_fold rs t :
  List.NoDup (map fst (acc_count t)) ->
  map fst (acc_modelCost t) = map fst (acc_count t) ->
  let t' := foldl addRequest t rs in
  List.NoDup (map fst (acc_count t')) /\
  map fst (acc_modelCost t') = map fst (acc_count t') /\
  list_sum (map snd (acc_count t')) =
  list_sum (map snd (acc_count t)) + length rs.
Proof.
  revert t. induction rs as [|r rs IH]; intros t Hn Hk; simpl.
  - repeat split; auto.
  - destruct (IH (addRequest t r)) as (H1 & H2 & H3).
    + unfold addRequest. cbn [acc_count]. now apply NoDup_Map_set.
    + unfold addRequest. cbn [acc_count acc_modelCost].
      now rewrite !keys_Map_set, Hk.
    + repeat split; [exact H1 | exact H2 |]. rewrite H3.
      unfold addRequest at 1. cbn [acc_count]. rewrite sum_Map_set. lia.
Qed.

Lemma getModelFamily_key s : exists f, getModelFamily s = family_key f.
Proof.
  exists (first_match family_patterns s). apply getModelFamily_first_match.
Qed.

Lemma requestsOf_key k rs :
  requestsOf k rs <> [] -> exists f, k = family_key f.
Proof.
  induction rs as [|r rs IH]; [intros H; now elim H|].
  rewrite requestsOf_cons.
  destruct (String.eqb_spec (getModelFamily (req_model r)) k) as [<-|_];
    [|exact IH].
  intros _. apply getModelFamily_key.
Qed.

(** X3. [modelCount] holds each family once; for a family it holds the
    number of deduplicated requests whose model resolves to it, and no entry
    when there is none; its keys are family keys, [modelCost] has the same
    keys in the same order, and the counts add up to the number of distinct
    request ids. *)
Theorem modelCount_counts_requests :
  forall lines : list (option Entry),
    let rs := requestsOfLog lines in
    let a := parseSessionFile lines in
    List.NoDup (map fst (modelCount a)) /\
    map fst (modelCost a) = map fst (modelCount a) /\
    (forall k, prop (modelCount a) k =
               match requestsOf k rs with
               | [] => None
               | r :: l => Some (length (r :: l))
               end) /\
    (forall k, In k (map fst (modelCount a)) -> exists f, k = family_key f) /\
    list_sum (map snd (modelCount a)) = length rs.
Proof.
  intros lines rs a. subst a. unfold requestsOfLog in rs.
  unfold parseSessionFile, aggregate. cbn [modelCount modelCost]. fold rs.
  destruct (tables_fold rs Totals_init) as (Hn & Hk & Hs);
    [constructor | reflexivity |].
  split; [exact Hn|]. split; [exact Hk|]. split; [|split; [|exact Hs]].
  - intros k. pose proof (count_fold k rs Totals_init) as Hc.
    pose proof (keys_fold k rs Totals_init) as Hin.
    rewrite <- prop_is_Some in Hin. simpl in Hc, Hin.
    destruct (requestsOf k rs) as [|r l] eqn:E.
    + destruct (prop _ k) as [n|]; [|reflexivity].
      destruct Hin as [Hin _]. destruct Hin as [[]|Hin]; [eauto|now elim Hin].
    + destruct (prop _ k) as [n|]; [simpl in Hc; now subst n|].
      destruct Hin as [_ Hin]. destruct Hin as [n Hn']; [now right|].
      discriminate.
  - intros k Hin. apply (keys_fold k rs Totals_init) in Hin.
    destruct Hin as [[]|Hin]. now apply (requestsOf_key k rs).
Qed.

(** ** The primary model *)

Lemma sortByCountDesc_head (l : list (string * nat)) :
  l <> [] ->
  exists l1 kc l2,
    l = (l1 ++ kc :: l2)%list /\
    head (sortByCountDesc l) = Some kc /\
    Forall (fun x => snd x < snd kc) l1 /\
    Forall (fun x => snd x <= snd kc) l2.
Proof.
  induction l as [|x l IH]; [congruence|]. intros _.
  destruct l as [|y l].
  - exists [], x, []. repeat split; constructor.
  - destruct IH as (l1 & kc & l2 & El & Hh & H1 & H2); [congruence|].
    change (sortByCountDesc (x :: y :: l)) with
      (sort_insert x (sortByCountDesc (y :: l))).
    destruct (sortByCountDesc (y :: l)) as [|z rest]; [discriminate|].
    simpl in Hh. injection Hh as ->. simpl.
    destruct (Nat.ltb_spec (snd x) (snd kc)) as [Hlt|Hge].
    + exists (x :: l1), kc, l2. rewrite El. repeat split; auto.
    + exists [], x, (y :: l). repeat split; [constructor|].
      rewrite El. apply Forall_app. split.
      * eapply Forall_impl; [exact H1|]. simpl. intros; lia.
      * constructor; [exact Hge|].
        eapply Forall_impl; [exact H2|]. simpl. intros; lia.
Qed.

Lemma family_key_nonempty f : exists c r, family_key f = String c r.
Proof. destruct f; simpl; eauto. Qed.

(** X4. The primary model of a log without usage events is "unknown".
    Otherwise it is the family with the most deduplicated requests, and among
    families with as many the one whose first request comes first: every
    family before it in [modelCount] has fewer requests, every family after
    it at most as many. *)
Theorem primaryModel_most_requests :
  forall lines : list (option Entry),
    let a := parseSessionFile lines in
    (modelCount a = [] /\ setEvents lines = [] /\
     primaryModel a = "unknown") \/
    (exists l1 c l2,
        modelCount a = (l1 ++ (primaryModel a, c) :: l2)%list /\
        Forall (fun x => snd x < c) l1 /\
        Forall (fun x => snd x <= c) l2).
Proof.
  intros lines. unfold parseSessionFile, aggregate.
  cbn [modelCount primaryModel]. rewrite parse_state. cbn [requestMap].
  set (rs := Map_values (setAll [] (setEvents lines))).
  destruct (tables_fold rs Totals_init) as (_ & _ & Hsum);
    [constructor | reflexivity |].
  assert (Hkey : forall k,
             In k (map fst (acc_count (foldl addRequest Totals_init rs))) ->
             exists f, k = family_key f).
  { intros k Hin. apply (keys_fold k rs Totals_init) in Hin.
    destruct Hin as [[]|Hin]. now apply (requestsOf_key k rs). }
  cbv zeta in Hsum. revert Hkey Hsum.
  set (t := foldl addRequest Totals_init rs). intros Hkey Hsum.
  destruct (acc_count t) as [|x l] eqn:E.
  - left. repeat split.
    assert (Hl : length rs = 0) by (simpl in Hsum; lia).
    subst rs. unfold Map_values in Hl. rewrite length_map in Hl.
    apply length_zero_iff_nil in Hl.
    pose proof (proj1 (setAll_keep_last (setEvents lines))) as Hk.
    rewrite Hl in Hk. simpl in Hk.
    destruct (setEvents lines) as [|[k v] evs]; [reflexivity|discriminate].
  - right. destruct (sortByCountDesc_head (x :: l)) as
        (l1 & [k c] & l2 & El & Hh & H1 & H2); [congruence|].
    exists l1, c, l2. rewrite Hh. cbn [option_map fst].
    destruct (Hkey k) as [f Hf].
    { rewrite El, map_app. apply in_or_app. right. now left. }
    destruct (family_key_nonempty f) as (ch & r & Hr).
    rewrite Hf, Hr. cbn [JS.or_str]. rewrite <- Hr, <- Hf.
    repeat split; assumption.
Qed.

(** ** The totals *)

Lemma or0_or0 x : JS.or0 (Some (JS.or0 x)) = JS.or0 x.
Proof.
  destruct x as [v|]; [|reflexivity]. simpl.
  destruct (JS.truthy v) eqn:E; [now rewrite E | reflexivity].
Qed.

(** Pricing the usage with its counts defaulted prices the usage itself. *)
Lemma calculateCost_defaulted u family :
  calculateCost
    (mkUsage (Some (JS.or0 (input_tokens u)))
             (Some (JS.or0 (output_tokens u)))
             (Some (JS.or0 (cache_creation_input_tokens u)))
             (Some (JS.or0 (cache_read_input_tokens u))))
    family = calculateCost u family.
Proof.
  unfold calculateCost, normalInput. cbn [input_tokens output_tokens
    cache_creation_input_tokens cache_read_input_tokens].
  now rewrite !or0_or0.
Qed.

Lemma totals_fold rs : forall t i o w r,
  acc_usage t = mkUsage (Some i) (Some o) (Some w) (Some r) ->
  acc_usage (foldl addRequest t rs) =
  mkUsage (Some (sumOf input_tokens i rs))
          (Some (sumOf output_tokens o rs))
          (Some (sumOf cache_creation_input_tokens w rs))
          (Some (sumOf cache_read_input_tokens r rs)) /\
  acc_cost (foldl addRequest t rs) = costOf (acc_cost t) rs.
Proof.
  induction rs as [|x rs IH]; intros t i o w r Ht.
  - now split.
  - cbn [foldl]. unfold sumOf, costOf. cbn [foldl]. fold sumOf costOf.
    destruct (IH (addRequest t x) _ _ _ _
                 ltac:(unfold addRequest; cbn [acc_usage]; rewrite Ht;
                       reflexivity)) as [Hu Hc].
    rewrite Hu, Hc. split; [reflexivity|].
    unfold addRequest at 1. cbn [acc_cost].
    now rewrite calculateCost_defaulted.
Qed.

(** X5. The totals are running sums over the deduplicated requests
    in the order of first appearance of their ids, absent counts read as 0;
    the total cost is the running sum of the costs of the requests, each
    priced on its own usage at the rates of its own model's family (pricing
    the defaulted usage object is pricing the usage object itself). *)
Theorem totals_are_per_request_sums :
  forall lines : list (option Entry),
    let rs := requestsOfLog lines in
    let a := parseSessionFile lines in
    totalUsage a =
    mkUsage (Some (sumOf input_tokens 0 rs))
            (Some (sumOf output_tokens 0 rs))
            (Some (sumOf cache_creation_input_tokens 0 rs))
            (Some (sumOf cache_read_input_tokens 0 rs)) /\
    totalCost a = costOf 0 rs.
Proof.
  intros lines rs a. subst a rs.
  unfold parseSessionFile, aggregate, requestsOfLog.
  cbn [totalUsage totalCost].
  now apply (totals_fold _ Totals_init).
Qed.

(** ** Signs of the totals *)

Lemma Forall_Map_set {V} (P : V -> Prop) (m : list (string * V)) k v :
  Forall P (map snd m) -> P v -> Forall P (map snd (Map_set m k v)).
Proof.
  induction m as [|[k' v'] m IH]; simpl; intros Hm Hv.
  - now constructor.
  - apply Forall_cons in Hm as [Hv' Hm].
    destruct (String.eqb k' k); simpl; constructor; auto.
Qed.

Lemma Forall_setAll {V} (P : V -> Prop) (evs m : list (string * V)) :
  Forall P (map snd m) -> Forall P (map snd evs) ->
  Forall P (map snd (setAll m evs)).
Proof.
  revert m. induction evs as [|[k v] evs IH]; intros m Hm He; [exact Hm|].
  simpl in He. apply Forall_cons in He as [Hv He].
  unfold setAll. cbn [foldl]. apply IH; [|exact He].
  now apply Forall_Map_set.
Qed.

Lemma requestsOfLog_events lines :
  requestsOfLog lines = Map_values (setAll [] (setEvents lines)).
Proof. unfold requestsOfLog. now rewrite parse_state. Qed.

Lemma requestsOfLog_counts lines :
  Forall (fun ev => tokenCounts (req_usage (snd ev)) = true)
         (setEvents lines) ->
  Forall (fun r => tokenCounts (req_usage r) = true) (requestsOfLog lines).
Proof.
  intros H. rewrite requestsOfLog_events. unfold Map_values.
  apply Forall_setAll; [constructor|]. now apply Forall_map.
Qed.

Lemma sumOf_nonneg (field : Usage -> option float) rs : forall acc,
  Forall (fun r => SFcount (Prim2SF (JS.or0 (field (req_usage r)))) = true)
         rs ->
  nonneg acc -> nonneg (sumOf field acc rs).
Proof.
  induction rs as [|r rs IH]; intros acc Hrs Hacc; [exact Hacc|].
  apply Forall_cons in Hrs as [Hr Hrs]. unfold sumOf. cbn [foldl].
  apply IH; [exact Hrs|]. apply add_nonneg; [exact Hacc|].
  now apply count_nonneg.
Qed.

Lemma costOf_nonneg rs : forall acc,
  Forall (fun r => tokenCounts (req_usage r) = true) rs ->
  nonneg acc -> nonneg (costOf acc rs).
Proof.
  induction rs as [|r rs IH]; intros acc Hrs Hacc; [exact Hacc|].
  apply Forall_cons in Hrs as [Hr Hrs]. unfold costOf. cbn [foldl].
  apply IH; [exact Hrs|]. apply add_nonneg; [exact Hacc|].
  destruct (getModelFamily_key (req_model r)) as [f ->].
  now apply calculateCost_nonneg.
Qed.

Lemma nonneg_zero : nonneg 0.
Proof. reflexivity. Qed.

(** X6. When every usage of the log has finite non-negative token
    counts, the total cost and the four token totals of the session are
    non-negative Numbers (never negative, never NaN). *)
Theorem session_totals_nonneg :
  forall lines : list (option Entry),
    Forall (fun ev => tokenCounts (req_usage (snd ev)) = true)
           (setEvents lines) ->
    let a := parseSessionFile lines in
    (0 <=? totalCost a)%float = true /\
    (0 <=? num (input_tokens (totalUsage a)))%float = true /\
    (0 <=? num (output_tokens (totalUsage a)))%float = true /\
    (0 <=? num (cache_creation_input_tokens (totalUsage a)))%float = true /\
    (0 <=? num (cache_read_input_tokens (totalUsage a)))%float = true.
Proof.
  intros lines H a. subst a.
  apply requestsOfLog_counts in H.
  unfold parseSessionFile, aggregate. cbn [totalUsage totalCost].
  fold (requestsOfLog lines).
  destruct (totals_fold (requestsOfLog lines) Totals_init _ _ _ _ eq_refl)
    as [-> ->].
  cbn [input_tokens output_tokens cache_creation_input_tokens
       cache_read_input_tokens num default acc_cost Totals_init].
  rewrite !leb_zero_spec.
  assert (F : forall field,
             (forall u, tokenCounts u = true ->
                        SFcount (Prim2SF (JS.or0 (field u))) = true) ->
             nonneg (sumOf field 0 (requestsOfLog lines))).
  { intros field Hf. apply sumOf_nonneg; [|exact nonneg_zero].
    eapply Forall_impl; [exact H|]. intros r Hr. now apply Hf. }
  split; [apply costOf_nonneg; [exact H | exact nonneg_zero]|].
  repeat split; apply F; intros u Hu;
    destruct (tokenCounts_fields u Hu) as (Hi & Ho & Hw & Hr); assumption.
Qed.

(** ** When a session counts as empty *)

Lemma eqb_zero_spec x : (x =? 0)%float = SFzero (Prim2SF x).
Proof.
  rewrite FloatAxioms.eqb_spec. change (Prim2SF 0) with (S754_zero false).
  now destruct (Prim2SF x) as [s|[|]| |[|] m e].
Qed.

(** A sum of two non-negative floats is zero only when both are. *)
Lemma SFadd_zero x y :
  valid_binary x = true -> valid_binary y = true ->
  SFnonneg x = true -> SFnonneg y = true ->
  SFzero (SF64add x y) = SFzero x && SFzero y.
Proof.
  intros Vx Vy Hx Hy.
  destruct x as [sx|[|]| |[|] mx ex]; try discriminate;
    destruct y as [sy|[|]| |[|] my ey]; try discriminate; try reflexivity.
  - now destruct sx, sy.
  - cbn [SFzero andb].
    assert (Hxx : SFleb (S754_finite false mx ex) (S754_finite false mx ex)
                  = true).
    { unfold SFleb. now rewrite SFcompare_refl. }
    pose proof (SFadd_mono (S754_finite false mx ex) (S754_finite false mx ex)
                  (S754_zero false) (S754_finite false my ey)
                  Vx Vx eq_refl Vy eq_refl eq_refl eq_refl eq_refl
                  Hxx eq_refl) as H.
    change (SF64add (S754_finite false mx ex) (S754_zero false)) with
      (S754_finite false mx ex) in H.
    destruct (SF64add _ _) as [s|s| |s m e]; try reflexivity.
    discriminate H.
Qed.

Lemma sumOf_zero (field : Usage -> option float) rs : forall acc,
  Forall (fun r => SFcount (Prim2SF (JS.or0 (field (req_usage r)))) = true)
         rs ->
  nonneg acc ->
  (sumOf field acc rs =? 0)%float =
  (acc =? 0)%float &&
  forallb (fun r => (JS.or0 (field (req_usage r)) =? 0)%float) rs.
Proof.
  induction rs as [|r rs IH]; intros acc Hrs Hacc.
  - simpl. now rewrite andb_true_r.
  - apply Forall_cons in Hrs as [Hr Hrs]. unfold sumOf. cbn [foldl forallb].
    fold (sumOf field (acc + JS.or0 (field (req_usage r))) rs).
    rewrite IH; [|exact Hrs|].
    + rewrite andb_assoc. f_equal. rewrite !eqb_zero_spec, add_spec.
      apply SFadd_zero; try apply Prim2SF_valid; [exact Hacc|].
      now apply SFcount_nonneg.
    + apply add_nonneg; [exact Hacc | now apply count_nonneg].
Qed.

(** X7. When every usage of the log has finite non-negative token
    counts, the session is classified as empty exactly when every
    deduplicated request has 0 input tokens and 0 output tokens (absent ones
    read as 0): no sum of non-zero counts rounds to 0. *)
Theorem emptySession_iff_no_input_output :
  forall lines : list (option Entry),
    Forall (fun ev => tokenCounts (req_usage (snd ev)) = true)
           (setEvents lines) ->
    emptySession (parseSessionFile lines) =
    forallb (fun r =>
               (JS.or0 (input_tokens (req_usage r)) =? 0)%float &&
               (JS.or0 (output_tokens (req_usage r)) =? 0)%float)
            (requestsOfLog lines).
Proof.
  intros lines H. apply requestsOfLog_counts in H.
  unfold emptySession, parseSessionFile, aggregate. cbn [totalUsage].
  fold (requestsOfLog lines).
  destruct (totals_fold (requestsOfLog lines) Totals_init _ _ _ _ eq_refl)
    as [-> _].
  cbn [input_tokens output_tokens is_zero_number].
  rewrite !sumOf_zero; try exact nonneg_zero.
  - change (0 =? 0)%float with true. cbn [andb].
    induction (requestsOfLog lines) as [|r rs IH]; [reflexivity|].
    apply Forall_cons in H as [_ H]. cbn [forallb]. rewrite <- (IH H).
    destruct (_ =? 0)%float, (_ =? 0)%float; simpl; try reflexivity;
      now rewrite ?andb_false_r.
  - eapply Forall_impl; [exact H|]. intros r Hr.
    now destruct (tokenCounts_fields _ Hr) as (_ & ? & _).
  - eapply Forall_impl; [exact H|]. intros r Hr.
    now destruct (tokenCounts_fields _ Hr) as (? & _).
Qed.

(** ** The record of a session *)

Lemma timestampOf_nonempty line ts :
  timestampOf line = Some ts -> exists c r, ts = String c r.
Proof.
  destruct line as [entry|]; [|discriminate]. cbn [timestampOf chain].
  destruct (timestamp entry) as [[|c r]|]; try discriminate.
  intros [= <-]. eauto.
Qed.

Lemma timestamps_nonempty lines :
  Forall (fun ts => exists c r, ts = String c r) (timestamps lines).
Proof.
  induction lines as [|line lines IH]; [constructor|].
  rewrite timestamps_cons. destruct (timestampOf line) as [ts|] eqn:E;
    [|exact IH].
  constructor; [now apply (timestampOf_nonempty line) | exact IH].
Qed.

Lemma or_str_of_list (o : option string) (l : list string) d :
  (forall x, o = Some x -> In x l) ->
  Forall (fun ts => exists c r, ts = String c r) l ->
  JS.or_str o d = default d o.
Proof.
  intros Ho Hl. destruct o as [x|]; [|reflexivity].
  rewrite Forall_forall in Hl.
  destruct (Hl x) as (c & r & ->); [|reflexivity].
  apply list_elem_of_In. now apply Ho.
Qed.

Lemma sessionStart_parse lines :
  sessionStart (parseSessionFile lines) = head (timestamps lines).
Proof. unfold parseSessionFile. now rewrite parse_state. Qed.

Lemma sessionEnd_parse lines :
  sessionEnd (parseSessionFile lines) = last (timestamps lines).
Proof. unfold parseSessionFile. now rewrite parse_state. Qed.

Lemma primaryModel_key lines :
  primaryModel (parseSessionFile lines) = "unknown" \/
  exists f, primaryModel (parseSessionFile lines) = family_key f.
Proof.
  unfold parseSessionFile, aggregate. cbn [primaryModel].
  set (rs := Map_values _). set (t := foldl addRequest Totals_init rs).
  destruct (acc_count t) as [|x l] eqn:E; [now left|]. right.
  destruct (sortByCountDesc_head (x :: l)) as
      (l1 & [k c] & l2 & El & Hh & _); [congruence|].
  rewrite Hh. cbn [option_map fst].
  assert (Hin : In k (map fst (acc_count t))).
  { rewrite E, El, map_app. apply in_or_app. right. now left. }
  apply (keys_fold k rs Totals_init) in Hin. destruct Hin as [[]|Hin].
  destruct (requestsOf_key k rs Hin) as [f ->]. exists f.
  now destruct f.
Qed.

(** X8. The record of a session starts at the first timestamp of the
    log and ends at the last one, and falls back to the birth time and to the
    modification time of the file when the log has no timestamp; its model is
    the primary model, which is "unknown" or a family key, never empty. *)
Theorem record_of_a_session :
  forall (MACHINE_ID : string) (homedir : list string) (dir : string)
         (f : File),
    let rec := buildRecord MACHINE_ID homedir dir f in
    let ts := timestamps (file_lines f) in
    Upload.session_start rec = default (birthtime (file_stat f)) (head ts) /\
    Upload.session_end rec = default (mtime (file_stat f)) (last ts) /\
    Upload.model rec = primaryModel (parseSessionFile (file_lines f)) /\
    (Upload.model rec = "unknown" \/
     exists fam, Upload.model rec = family_key fam).
Proof.
  intros MACHINE_ID homedir dir f rec ts. subst rec. unfold buildRecord.
  cbn [Upload.session_start Upload.session_end Upload.model].
  rewrite sessionStart_parse, sessionEnd_parse.
  fold ts. pose proof (timestamps_nonempty (file_lines f)) as Hts.
  fold ts in Hts.
  assert (Hm : JS.or_str (Some (primaryModel (parseSessionFile
                                                (file_lines f))))
                         "unknown"
               = primaryModel (parseSessionFile (file_lines f))).
  { destruct (primaryModel_key (file_lines f)) as [->|[fam ->]];
      [reflexivity | now destruct fam]. }
  rewrite Hm. repeat split.
  - apply (or_str_of_list _ ts); [|exact Hts].
    intros x Hx. destruct ts; [discriminate|]. injection Hx as ->. now left.
  - apply (or_str_of_list _ ts); [|exact Hts].
    intros x Hx. apply list_elem_of_In. now apply last_Some_elem_of.
  - apply primaryModel_key.
Qed.

(** * Further properties: names *)

(** ** Project names *)

Lemma includes_dash_cons c s :
  JS.includes "-" (String c s) = Ascii.eqb c "-" || JS.includes "-" s.
Proof.
  cbn [JS.includes String.prefix].
  destruct (ascii_dec "-" c) as [<-|Hne].
  - now destruct s.
  - destruct (Ascii.eqb_spec c "-") as [->|_]; [now elim Hne | reflexivity].
Qed.

Lemma append_empty_r s : s ++ "" = s.
Proof.
  induction s as [|c s IH]; [reflexivity|].
  change (String c s ++ "") with (String c (s ++ "")). congruence.
Qed.

Lemma append_snoc acc c s : (acc ++ String c "") ++ s = acc ++ String c s.
Proof.
  induction acc as [|a acc IH]; [reflexivity|].
  change (String a ((acc ++ String c "") ++ s) = String a (acc ++ String c s)).
  congruence.
Qed.

Lemma lastDashSegment_nodash s : forall acc,
  JS.includes "-" s = false -> lastDashSegment acc s = acc ++ s.
Proof.
  induction s as [|c s IH]; intros acc H.
  - simpl. now rewrite append_empty_r.
  - rewrite includes_dash_cons in H. apply orb_false_iff in H as [Hc Hs].
    cbn [lastDashSegment]. rewrite Hc, IH by exact Hs.
    apply append_snoc.
Qed.

Lemma lastDashSegment_app a b : forall acc,
  lastDashSegment acc (a ++ "-" ++ b) = lastDashSegment "" b.
Proof.
  induction a as [|c a IH]; intros acc; [reflexivity|].
  simpl. destruct (Ascii.eqb c "-"); apply IH.
Qed.

Lemma extractProjectName_first pre rest :
  ~ In "projects" pre ->
  extractProjectName (pre ++ "projects" :: rest) =
  match rest with
  | encoded :: _ =>
      match lastDashSegment "" encoded with
      | EmptyString => encoded
      | lastSegment => lastSegment
      end
  | [] => "unknown"
  end.
Proof.
  induction pre as [|p pre IH]; intros Hn; [reflexivity|].
  simpl. destruct (String.eqb_spec p "projects") as [->|_].
  - elim Hn. now left.
  - apply IH. intros H. apply Hn. now right.
Qed.

(** X9. The project name of a path is "unknown" when no component is
    [projects] or when the first such component is the last one.  Otherwise
    it is read from the component after the first [projects]: the component
    itself when it has no dash or ends with one, else what follows its last
    dash. *)
Theorem extractProjectName_last_dash_segment :
  (forall parts : list string,
      ~ In "projects" parts -> extractProjectName parts = "unknown") /\
  (forall pre : list string,
      ~ In "projects" pre ->
      extractProjectName (pre ++ ["projects"]) = "unknown") /\
  (forall (pre post : list string) (encoded : string),
      ~ In "projects" pre ->
      let name := extractProjectName (pre ++ "projects" :: encoded :: post) in
      (JS.includes "-" encoded = false -> name = encoded) /\
      (forall a b : string,
          encoded = a ++ "-" ++ b -> JS.includes "-" b = false ->
          name = match b with
                 | EmptyString => encoded
                 | _ => b
                 end)).
Proof.
  split; [|split].
  - induction parts as [|p parts IH]; intros Hn; [reflexivity|].
    simpl. destruct (String.eqb_spec p "projects") as [->|_].
    + elim Hn. now left.
    + apply IH. intros H. apply Hn. now right.
  - intros pre Hn. now rewrite extractProjectName_first.
  - intros pre post encoded Hn name. subst name.
    rewrite extractProjectName_first by exact Hn. split.
    + intros H. rewrite lastDashSegment_nodash by exact H.
      change ("" ++ encoded) with encoded. now destruct encoded.
    + intros a b -> Hb.
      rewrite lastDashSegment_app, lastDashSegment_nodash by exact Hb.
      change ("" ++ b) with b. now destruct b.
Qed.

(** X10. When no component of the home directory is named [projects],
    the project slug of a record depends on the name of the project directory
    alone.  When one is, the slug is read from the home directory and is the
    same for every project directory and every session. *)
Theorem project_slug_of_a_directory :
  forall (MACHINE_ID : string) (homedir : list string),
    (~ In "projects" homedir ->
     forall (dir : string) (f : File),
       Upload.project_slug (buildRecord MACHINE_ID homedir dir f) =
       extractProjectName ["projects"; dir]) /\
    (In "projects" homedir ->
     forall (dir dir' : string) (f f' : File),
       Upload.project_slug (buildRecord MACHINE_ID homedir dir f) =
       Upload.project_slug (buildRecord MACHINE_ID homedir dir' f')).
Proof.
  intros MACHINE_ID homedir. unfold buildRecord, projectParts.
  cbn [Upload.project_slug]. split.
  - intros Hn dir _.
    change (homedir ++ [".claude"; "projects"; dir])%list with
      (homedir ++ [".claude"] ++ "projects" :: [dir])%list.
    rewrite app_assoc.
    rewrite extractProjectName_first; [reflexivity|].
    intros H. apply in_app_or in H as [H|[H|[]]]; [now apply Hn|discriminate].
  - intros Hin dir dir' _ _.
    apply in_split in Hin as (l1 & l2 & ->).
    revert l2. induction l1 as [|p l1 IH]; intros l2.
    + simpl. now destruct l2.
    + simpl. destruct (String.eqb p "projects"); [|apply IH].
      destruct l1; simpl; [reflexivity|reflexivity].
Qed.

(** ** File names and session ids *)

Lemma length_append (s t : string) :
  String.length (s ++ t) = String.length s + String.length t.
Proof.
  induction s as [|c s IH]; [reflexivity|].
  change (String c s ++ t) with (String c (s ++ t)). simpl. now rewrite IH.
Qed.

Lemma substring_all (s : string) : substring 0 (String.length s) s = s.
Proof. induction s as [|c s IH]; simpl; congruence. Qed.

Lemma substring_prefix (s t : string) :
  substring 0 (String.length s) (s ++ t) = s.
Proof.
  induction s as [|c s IH].
  - change ("" ++ t) with t. now destruct t.
  - change (String c s ++ t) with (String c (s ++ t)). simpl. now rewrite IH.
Qed.

Lemma substring_suffix (s t : string) :
  substring (String.length s) (String.length t) (s ++ t) = t.
Proof.
  induction s as [|c s IH].
  - change ("" ++ t) with t. apply substring_all.
  - change (String c s ++ t) with (String c (s ++ t)). simpl. exact IH.
Qed.

Lemma substring_split n : forall s : string,
  n <= String.length s ->
  s = substring 0 n s ++ substring n (String.length s - n) s.
Proof.
  induction n as [|n IH]; intros s Hn.
  - rewrite Nat.sub_0_r, substring_all. now destruct s.
  - destruct s as [|c s]; simpl in Hn; [lia|].
    simpl. change (String c ?a ++ ?b) with (String c (a ++ b)).
    f_equal. apply IH. lia.
Qed.

Lemma endsWith_app p ext : endsWith (p ++ ext) ext = true.
Proof.
  unfold endsWith. rewrite length_append.
  replace (String.length p + String.length ext - String.length ext)
    with (String.length p) by lia.
  rewrite substring_suffix, String.eqb_refl, andb_true_r.
  apply Nat.leb_le. lia.
Qed.

Lemma endsWith_inv name ext :
  endsWith name ext = true ->
  name = substring 0 (String.length name - String.length ext) name ++ ext.
Proof.
  unfold endsWith. intros H. apply andb_true_iff in H as [Hl He].
  apply Nat.leb_le in Hl. apply String.eqb_eq in He.
  set (k := String.length name - String.length ext) in *.
  transitivity
    (substring 0 k name ++ substring k (String.length name - k) name).
  2:{ replace (String.length name - k) with (String.length ext) by lia.
      now rewrite He. }
  apply substring_split. lia.
Qed.

(** X11. The session id of a session file is its name without the
    extension [.jsonl]: putting the extension back gives the name, two session
    files of a directory with one id have one name, and the session files are
    exactly the files named [stem.jsonl]. *)
Theorem session_id_names_the_file :
  (forall stem ext : string, basename (stem ++ ext) ext = stem) /\
  (forall name ext : string,
      endsWith name ext = true -> basename name ext ++ ext = name) /\
  (forall (d : DirEntry) (f g : File),
      In f (sessionFiles d) -> In g (sessionFiles d) ->
      basename (file_name f) ".jsonl" = basename (file_name g) ".jsonl" ->
      file_name f = file_name g) /\
  (forall (d : DirEntry) (f : File),
      In f (dir_files d) ->
      In f (sessionFiles d) <->
      exists stem, file_name f = stem ++ ".jsonl").
Proof.
  assert (R : forall name ext : string,
             endsWith name ext = true -> basename name ext ++ ext = name).
  { intros name ext H. unfold basename. rewrite H. symmetry.
    now apply endsWith_inv. }
  split; [|split; [exact R|split]].
  - intros stem ext. unfold basename. rewrite endsWith_app, length_append.
    replace (String.length stem + String.length ext - String.length ext)
      with (String.length stem) by lia.
    apply substring_prefix.
  - intros d f g Hf Hg E. unfold sessionFiles in Hf, Hg.
    apply List.filter_In in Hf as [_ Hf]. apply List.filter_In in Hg as [_ Hg].
    rewrite <- (R _ _ Hf), <- (R _ _ Hg). now rewrite E.
  - intros d f Hin. unfold sessionFiles. rewrite List.filter_In. split.
    + intros [_ H]. eexists. symmetry. apply (R _ _ H).
    + intros [stem Hs]. split; [exact Hin|]. rewrite Hs. apply endsWith_app.
Qed.

(** * Further properties: the driver *)

Section RunSummary.

Variable MACHINE_ID : string.
Variable homedir : list string.
Variable remote_ok : list Upload.t -> Upload.t -> bool.
Variable synced : gmap string Z.

Local Abbreviation step dry dir :=
  (syncFile dry MACHINE_ID homedir remote_ok synced dir).
Local Abbreviation isPending f :=
  (negb (isSynced synced (basename (file_name f) ".jsonl")) &&
   negb (emptySession (parseSessionFile (file_lines f)))).
Local Abbreviation recordOf dir := (buildRecord MACHINE_ID homedir dir).

Lemma advanced_refl dry st : advanced remote_ok dry st st 0 [].
Proof.
  unfold advanced. simpl. rewrite !Nat.add_0_r. repeat split; try lia.
  - destruct dry; [split; [lia|reflexivity]|].
    rewrite app_nil_r. repeat split; lia.
Qed.

Lemma advanced_trans dry st1 st2 st3 n m r1 r2 :
  advanced remote_ok dry st1 st2 n r1 -> advanced remote_ok dry st2 st3 m r2 ->
  advanced remote_ok dry st1 st3 (n + m) (r1 ++ r2)%list.
Proof.
  unfold advanced. intros (Hs1 & Hg1 & H1) (Hs2 & Hg2 & H2).
  rewrite length_app. split; [lia|]. split.
  - rewrite Hg2, Hg1. unfold sumCost. now rewrite foldl_app.
  - destruct dry.
    + destruct H1 as [Hu1 Hw1], H2 as [Hu2 Hw2]. split; [lia|congruence].
    + destruct H1 as (Hp1 & Hu1 & Ha1 & Hr1), H2 as (Hp2 & Hu2 & Ha2 & Hr2).
      split; [now rewrite Hp2, Hp1, app_assoc|]. split; [lia|]. split.
      * intros Hok. rewrite (Ha2 Hok), (Ha1 Hok). lia.
      * intros Hno. now rewrite (Hr2 Hno), (Hr1 Hno).
Qed.

Lemma syncFile_advanced dry dir st f :
  advanced remote_ok dry st (step dry dir st f) 1
           (if isPending f then [recordOf dir f] else []).
Proof.
  unfold advanced, syncFile, uploadRecord.
  destruct (isSynced synced _); cbn [negb andb].
  { cbn [skipped grandTotal uploaded world length sumCost foldl].
    split; [lia|]. split; [reflexivity|].
    destruct dry; [split; [lia|reflexivity]|].
    rewrite app_nil_r. repeat split; lia. }
  destruct (emptySession _); cbn [negb].
  { cbn [skipped grandTotal uploaded world length sumCost foldl].
    split; [lia|]. split; [reflexivity|].
    destruct dry; [split; [lia|reflexivity]|].
    cbn [markSynced posts]. rewrite app_nil_r. repeat split; lia. }
  destruct dry.
  { cbn [skipped grandTotal uploaded world length sumCost foldl].
    split; [lia|]. split; [reflexivity|]. split; [lia|reflexivity]. }
  destruct (remote_ok _ _) eqn:E;
    cbn [skipped grandTotal uploaded world length sumCost foldl
         markSynced posts];
    (split; [lia|]); (split; [reflexivity|]); repeat split; try lia;
    intros Hok; rewrite Hok in E; discriminate.
Qed.

Lemma foldl_advanced dry dir files : forall st,
  advanced remote_ok dry st (foldl (step dry dir) st files) (length files)
           (map (recordOf dir) (List.filter (fun f => isPending f) files)).
Proof.
  induction files as [|f files IH]; intros st; [apply advanced_refl|].
  cbn [foldl length List.filter].
  pose proof (advanced_trans _ _ _ _ _ _ _ _
                (syncFile_advanced dry dir st f) (IH (step dry dir st f)))
    as H.
  destruct (isPending f); exact H.
Qed.

Lemma syncDir_advanced dry st d :
  advanced remote_ok dry st
           (syncDir dry MACHINE_ID homedir remote_ok synced st d)
           (if isDirectory d then length (sessionFiles d) else 0)
           (if isDirectory d
            then map (recordOf (dir_name d)) (pending synced d) else []).
Proof.
  unfold syncDir, pending. destruct (isDirectory d).
  - apply foldl_advanced.
  - apply advanced_refl.
Qed.

Lemma foldl_syncDir_advanced dry projects : forall st,
  advanced remote_ok dry st
           (foldl (syncDir dry MACHINE_ID homedir remote_ok synced) st
                  projects)
           (sessionCount projects)
           (pendingRecords MACHINE_ID homedir synced projects).
Proof.
  induction projects as [|d ds IH]; intros st; [apply advanced_refl|].
  cbn [foldl]. unfold sessionCount, pendingRecords.
  cbn [map list_sum flat_map]. fold (sessionCount ds).
  fold (pendingRecords MACHINE_ID homedir synced ds).
  eapply advanced_trans; [apply syncDir_advanced | apply IH].
Qed.

End RunSummary.

(** ** What a run sends and counts *)

Lemma pendingRecords_In MACHINE_ID homedir synced projects rec :
  In rec (pendingRecords MACHINE_ID homedir synced projects) ->
  exists d f,
    In d projects /\ isDirectory d = true /\ In f (sessionFiles d) /\
    isSynced synced (basename (file_name f) ".jsonl") = false /\
    emptySession (parseSessionFile (file_lines f)) = false /\
    rec = buildRecord MACHINE_ID homedir (dir_name d) f.
Proof.
  unfold pendingRecords. rewrite in_flat_map. intros (d & Hd & Hin).
  destruct (isDirectory d) eqn:Hdir; [|destruct Hin].
  apply in_map_iff in Hin as (f & <- & Hf). unfold pending in Hf.
  apply List.filter_In in Hf as [Hf Hp].
  apply andb_true_iff in Hp as [Hs He].
  apply negb_true_iff in Hs, He. exists d, f. repeat split; assumption.
Qed.

(** X12. A real run sends exactly one request per session file that
    the ledger it read at its start does not hold and that is not empty, in
    the order of the directories and files, whatever the remote store
    answers (nothing is retried within the run); every request carries the
    machine id and has input or output tokens. *)
Theorem real_run_sends_pending_records :
  forall (MACHINE_ID : string) (homedir : list string)
         (remote_ok : list Upload.t -> Upload.t -> bool)
         (projects : list DirEntry) (w : World),
    let r := syncAll false MACHINE_ID homedir remote_ok (Some projects) w in
    let recs := pendingRecords MACHINE_ID homedir (ledger_file w) projects in
    posts (world r) = (posts w ++ recs)%list /\
    Forall (fun rec =>
              Upload.machine_id rec = MACHINE_ID /\
              isSynced (ledger_file w) (Upload.session_id rec) = false /\
              is_zero_number (Upload.input_tokens rec) &&
              is_zero_number (Upload.output_tokens rec) = false)
           recs.
Proof.
  intros MACHINE_ID homedir remote_ok projects w r recs. split.
  - subst r recs. unfold syncAll, getAlreadySynced.
    destruct (foldl_syncDir_advanced MACHINE_ID homedir remote_ok
                (ledger_file w) false projects (mkRunState w 0 0 0%float))
      as (_ & _ & Hp & _).
    exact Hp.
  - apply Forall_forall. intros rec Hin.
    apply list_elem_of_In, pendingRecords_In in Hin
      as (d & f & _ & _ & _ & Hs & He & ->).
    unfold buildRecord. cbn [Upload.machine_id Upload.session_id
      Upload.input_tokens Upload.output_tokens].
    repeat split; [exact Hs | exact He].
Qed.

(** X13. Every session file a run visits is either skipped or pending:
    the skipped count and the number of pending files add up to the number of
    session files.  The grand total is the running sum of the costs of the
    pending files, in a dry run and in a real one alike, failed uploads
    included.  A dry run counts every pending file as processed; a real run
    counts at most as many, all of them when every upload succeeds and none
    when every upload fails. *)
Theorem run_accounting :
  forall (dry : bool) (MACHINE_ID : string) (homedir : list string)
         (remote_ok : list Upload.t -> Upload.t -> bool)
         (projects : list DirEntry) (w : World),
    let r := syncAll dry MACHINE_ID homedir remote_ok (Some projects) w in
    let recs := pendingRecords MACHINE_ID homedir (ledger_file w) projects in
    skipped r + length recs = sessionCount projects /\
    grandTotal r = sumCost 0 recs /\
    (dry = true -> uploaded r = length recs) /\
    (dry = false ->
     uploaded r <= length recs /\
     ((forall history rec, remote_ok history rec = true) ->
      uploaded r = length recs) /\
     ((forall history rec, remote_ok history rec = false) ->
      uploaded r = 0)).
Proof.
  intros dry MACHINE_ID homedir remote_ok projects w r recs.
  subst r recs. unfold syncAll, getAlreadySynced.
  destruct (foldl_syncDir_advanced MACHINE_ID homedir remote_ok
              (ledger_file w) dry projects (mkRunState w 0 0 0%float))
    as (Hs & Hg & H).
  cbn [skipped grandTotal uploaded world] in Hs, Hg, H.
  split; [exact Hs|]. split; [exact Hg|]. split; intros ->.
  - now destruct H.
  - destruct H as (_ & Hu & Ha & Hr). split; [lia|]. split; assumption.
Qed.

(** ** Empty sessions and failed uploads *)

(** What a real run leaves in the ledger file for an empty session file
    that the ledger read at the start does not hold: an entry with the time
    of the run. *)
Lemma syncAll_writes MACHINE_ID homedir remote_ok projects w d f :
  In d projects -> isDirectory d = true -> In f (sessionFiles d) ->
  emptySession (parseSessionFile (file_lines f)) = true ->
  isSynced (ledger_file w) (basename (file_name f) ".jsonl") = false ->
  ledger_file
    (world (syncAll false MACHINE_ID homedir remote_ok (Some projects) w))
  !! basename (file_name f) ".jsonl" = Some (Z.pos (clock w)).
Proof.
  intros Hd Hdir Hf He Hs. unfold syncAll, getAlreadySynced.
  set (sid := basename (file_name f) ".jsonl") in *.
  set (Inv := fun st : RunState =>
    clock (world st) = clock w /\
    forall s, is_Some (ledger_file w !! s) ->
              is_Some (ledger_file (world st) !! s)).
  set (Q := fun st : RunState =>
    clock (world st) = clock w /\
    ledger_file (world st) !! sid = Some (Z.pos (clock w))).
  assert (HInv : forall dir st g,
             Inv st ->
             Inv (syncFile false MACHINE_ID homedir remote_ok (ledger_file w)
                           dir st g)).
  { intros dir st g [Hc Hk]. unfold syncFile, uploadRecord.
    destruct (isSynced (ledger_file w) (basename (file_name g) ".jsonl"));
      [now split|].
    destruct (emptySession (parseSessionFile (file_lines g))); cbn [world].
    - split; [exact Hc|]. intros s Hs'. unfold markSynced.
      cbn [ledger_file]. now apply assign_keeps, Hk.
    - destruct (remote_ok _ _); cbn [world]; [|now split].
      split; [exact Hc|]. intros s Hs'. unfold markSynced.
      cbn [ledger_file]. now apply assign_keeps, Hk. }
  assert (HQ : forall dir st g,
             Q st ->
             Q (syncFile false MACHINE_ID homedir remote_ok (ledger_file w)
                         dir st g)).
  { assert (Hm : forall s w0,
               clock w0 = clock w ->
               ledger_file w0 !! sid = Some (Z.pos (clock w)) ->
               ledger_file (markSynced s w0) !! sid = Some (Z.pos (clock w))).
    { intros s w0 Hc Hl. unfold markSynced. cbn [ledger_file].
      destruct (decide (s = sid)) as [->|Hne].
      - rewrite assign_own by (right; rewrite Hl; eauto).
        now rewrite lookup_insert_eq, Hc.
      - now rewrite assign_other. }
    intros dir st g [Hc Hl]. unfold syncFile, uploadRecord.
    destruct (isSynced (ledger_file w) (basename (file_name g) ".jsonl"));
      [now split|].
    destruct (emptySession (parseSessionFile (file_lines g))); cbn [world].
    - split; [exact Hc | now apply Hm].
    - destruct (remote_ok _ _); cbn [world]; [|now split].
      split; [exact Hc | now apply Hm]. }
  apply (foldl_reaches _ Inv Q projects d Hd).
  - intros st d' _ HI. apply syncDir_inv; [|exact HI]. intros; now apply HInv.
  - intros st HI. unfold syncDir. rewrite Hdir.
    apply (foldl_reaches _ Inv Q (sessionFiles d) f Hf).
    + intros; now apply HInv.
    + intros st' [Hc Hk]. unfold syncFile. fold sid. rewrite Hs, He.
      cbn [world]. unfold markSynced. cbn [ledger_file clock].
      split; [exact Hc|]. rewrite assign_own.
      * rewrite Hc. apply lookup_insert_eq.
      * destruct (String.eqb_spec sid "__proto__") as [E|Hne]; [|now left].
        right. apply Hk. unfold isSynced in Hs.
        destruct (ledger_file w !! sid); [eauto|].
        rewrite E in Hs. discriminate Hs.
    + intros; now apply HQ.
    + exact HI.
  - intros st d' _ Hq. apply syncDir_inv; [|exact Hq]. intros; now apply HQ.
  - split; [reflexivity | auto].
Qed.

(** C7. In a real run the step for a session whose aggregate has zero total
    input and zero total output tokens sends no request.  Unless the ledger
    the run read already answers for the session (with a time, or because
    its id is a name every object inherits, such as [toString]), the step
    assigns the time of the run to the id in the ledger file, after which
    the session counts as synced; the assignment creates or sets the entry
    of the id, for every id other than [__proto__] whatever the file held.
    After the whole run every such session of the tree counts as synced, and
    when it did not at the start the ledger file holds an entry for it with
    the time of the run. *)
Theorem empty_session_marked_not_uploaded :
  forall (MACHINE_ID : string) (homedir : list string)
         (remote_ok : list Upload.t -> Upload.t -> bool)
         (projects : list DirEntry) (w : World) (d : DirEntry) (f : File),
    In d projects -> isDirectory d = true -> In f (sessionFiles d) ->
    emptySession (parseSessionFile (file_lines f)) = true ->
    let sessionId := basename (file_name f) ".jsonl" in
    (forall synced st,
        let st' := syncFile false MACHINE_ID homedir remote_ok synced
                            (dir_name d) st f in
        posts (world st') = posts (world st) /\
        ledger_file (world st') =
        (if isSynced synced sessionId then ledger_file (world st)
         else assign (ledger_file (world st)) sessionId
                     (Z.pos (clock (world st)))) /\
        (isSynced synced sessionId = false ->
         isSynced (ledger_file (world st')) sessionId = true /\
         (sessionId <> "__proto__" ->
          ledger_file (world st') =
          <[sessionId := Z.pos (clock (world st))]>
            (ledger_file (world st))))) /\
    let r := syncAll false MACHINE_ID homedir remote_ok (Some projects) w in
    isSynced (ledger_file (world r)) sessionId = true /\
    (isSynced (ledger_file w) sessionId = false ->
     ledger_file (world r) !! sessionId = Some (Z.pos (clock w))).
Proof.
  intros MACHINE_ID homedir remote_ok projects w d f Hd Hdir Hf He.
  cbv zeta. split; [|split].
  - intros synced st.
    destruct (isSynced synced (basename (file_name f) ".jsonl")) eqn:Hs.
    + rewrite syncFile_skip by exact Hs. repeat split; discriminate.
    + rewrite syncFile_empty by assumption. unfold markSynced.
      cbn [posts ledger_file].
      repeat split.
      * apply isSynced_assign.
      * intros Hne. apply assign_own. now left.
  - apply syncAll_marks with d; auto.
  - intros Hs. now apply syncAll_writes with d.
Qed.

Lemma empty_session_marked_not_uploaded_witness :
  ledger_file
    (world (syncAll false "mac-home" ["home"; "dev"] accepting
                    (Some sampleTree) freshWorld))
  !! "7b44d0aa" = Some 1767603600000%Z.
Proof.
  refine (proj2 (proj2 (empty_session_marked_not_uploaded
                          "mac-home" ["home"; "dev"] accepting sampleTree
                          freshWorld
                          (mkDirEntry "-home-dev-work-claudescope" true
                                      [busyFile; idleFile])
                          idleFile _ _ _ _)) _).
  - now left.
  - reflexivity.
  - right. now left.
  - reflexivity.
  - reflexivity.
Defined.

(** C8. In a real run, when the upload of a session that the ledger lookup
    does not answer for and that is not empty fails, the step leaves the
    ledger file as it was, has sent exactly one request for the session and
    counts nothing as uploaded or skipped.  The loop goes on from that state:
    after the remaining files of the directory the requests sent are that one
    followed by one for each remaining pending file, whatever the remote
    store answers. *)
Theorem upload_failure_leaves_unsynced :
  forall (MACHINE_ID : string) (homedir : list string)
         (remote_ok : list Upload.t -> Upload.t -> bool)
         (synced : gmap string Z) (dir : string) (st : RunState) (f : File)
         (rest : list File),
    isSynced synced (basename (file_name f) ".jsonl") = false ->
    emptySession (parseSessionFile (file_lines f)) = false ->
    let record := buildRecord MACHINE_ID homedir dir f in
    remote_ok (posts (world st)) record = false ->
    let step := syncFile false MACHINE_ID homedir remote_ok synced dir in
    let st' := step st f in
    ledger_file (world st') = ledger_file (world st) /\
    posts (world st') = (posts (world st) ++ [record])%list /\
    uploaded st' = uploaded st /\
    skipped st' = skipped st /\
    foldl step st (f :: rest) = foldl step st' rest /\
    posts (world (foldl step st (f :: rest))) =
    (posts (world st) ++
     record ::
     map (buildRecord MACHINE_ID homedir dir)
         (List.filter
            (fun g =>
               negb (isSynced synced (basename (file_name g) ".jsonl")) &&
               negb (emptySession (parseSessionFile (file_lines g))))
            rest))%list.
Proof.
  intros MACHINE_ID homedir remote_ok synced dir st f rest Hs He record
         Hfail step st'.
  assert (H1 : ledger_file (world st') = ledger_file (world st) /\
               posts (world st') = (posts (world st) ++ [record])%list /\
               uploaded st' = uploaded st /\ skipped st' = skipped st).
  { subst st' step record. unfold syncFile, uploadRecord.
    rewrite Hs, He, Hfail. repeat split. }
  destruct H1 as (Hl & Hp & Hu & Hk).
  repeat split; try assumption.
  cbn [foldl]. fold st'.
  destruct (foldl_advanced MACHINE_ID homedir remote_ok synced false dir
              rest st') as (_ & _ & Hposts & _).
  unfold step. rewrite Hposts, Hp, <- app_assoc. reflexivity.
Qed.

Lemma upload_failure_leaves_unsynced_witness :
  let st := mkRunState freshWorld 0 0 0%float in
  let st' := syncFile false "mac-home" ["home"; "dev"] rejecting ∅
                      "-home-dev-work-claudescope" st busyFile in
  ledger_file (world st') = ∅ /\ length (posts (world st')) = 1.
Proof.
  cbv zeta.
  destruct (upload_failure_leaves_unsynced
              "mac-home" ["home"; "dev"] rejecting ∅
              "-home-dev-work-claudescope"
              (mkRunState freshWorld 0 0 0%float) busyFile [])
    as (Hl & Hp & _).
  - reflexivity.
  - reflexivity.
  - reflexivity.
  - split; [exact Hl | now rewrite Hp].
Defined.

(** ** What a run writes into the ledger *)

Lemma isSynced_markSynced_inv sid sid' w :
  isSynced (ledger_file (markSynced sid' w)) sid = true ->
  sid = sid' \/ isSynced (ledger_file w) sid = true.
Proof.
  unfold isSynced, markSynced. cbn [ledger_file].
  destruct (decide (sid' = sid)) as [->|Hne]; [now left|].
  rewrite assign_other by congruence. now right.
Qed.

(** A session that counts as synced after a run did so before, or a
    session file of the tree with its id was empty or accepted by the remote
    store in a real run. *)
Lemma synced_after_run dry MACHINE_ID homedir remote_ok projects w sid :
  isSynced
    (ledger_file
       (world (syncAll dry MACHINE_ID homedir remote_ok (Some projects) w)))
    sid = true ->
  isSynced (ledger_file w) sid = true \/
  exists d f,
    In d projects /\ isDirectory d = true /\ In f (sessionFiles d) /\
    basename (file_name f) ".jsonl" = sid /\ dry = false /\
    (emptySession (parseSessionFile (file_lines f)) = true \/
     exists history,
       remote_ok history (buildRecord MACHINE_ID homedir (dir_name d) f)
       = true).
Proof.
  apply (syncAll_inv MACHINE_ID homedir remote_ok dry
           (fun st =>
              isSynced (ledger_file (world st)) sid = true ->
              isSynced (ledger_file w) sid = true \/
              exists d f,
                In d projects /\ isDirectory d = true /\
                In f (sessionFiles d) /\
                basename (file_name f) ".jsonl" = sid /\ dry = false /\
                (emptySession (parseSessionFile (file_lines f)) = true \/
                 exists history,
                   remote_ok history
                     (buildRecord MACHINE_ID homedir (dir_name d) f)
                   = true)));
    [|now left].
  intros d st f Hd Hdir Hf Hst. unfold syncFile, uploadRecord.
  destruct (isSynced (ledger_file w) (basename (file_name f) ".jsonl"));
    [exact Hst|].
  destruct (emptySession _) eqn:He.
  + destruct dry; cbn [world]; [exact Hst|].
    intros H. apply isSynced_markSynced_inv in H as [->|H]; [|auto].
    right. exists d, f. repeat split; auto.
  + destruct dry; cbn [world]; [exact Hst|].
    destruct (remote_ok _ _) eqn:Hok; cbn [world]; [|exact Hst].
    intros H. apply isSynced_markSynced_inv in H as [->|H]; [|auto].
    right. exists d, f. repeat split; eauto.
Qed.

(** X14. A run leaves the ledger entry of every id that no session
    file of the tree has as it was.  A session that counts as synced after
    the run did so before, or the run is a real one and a session file of the
    tree with that id is empty or had its upload accepted. *)
Theorem ledger_gains_only_settled_sessions :
  forall (dry : bool) (MACHINE_ID : string) (homedir : list string)
         (remote_ok : list Upload.t -> Upload.t -> bool)
         (projects : list DirEntry) (w : World),
    let r := syncAll dry MACHINE_ID homedir remote_ok (Some projects) w in
    (forall sid,
        (forall d f, In d projects -> isDirectory d = true ->
                     In f (sessionFiles d) ->
                     basename (file_name f) ".jsonl" <> sid) ->
        ledger_file (world r) !! sid = ledger_file w !! sid) /\
    (forall sid,
        isSynced (ledger_file (world r)) sid = true ->
        isSynced (ledger_file w) sid = true \/
        exists d f,
          In d projects /\ isDirectory d = true /\ In f (sessionFiles d) /\
          basename (file_name f) ".jsonl" = sid /\ dry = false /\
          (emptySession (parseSessionFile (file_lines f)) = true \/
           exists history,
             remote_ok history
                       (buildRecord MACHINE_ID homedir (dir_name d) f)
             = true)).
Proof.
  intros dry MACHINE_ID homedir remote_ok projects w r. subst r. split.
  - intros sid Hout.
    apply (syncAll_inv MACHINE_ID homedir remote_ok dry
             (fun st => ledger_file (world st) !! sid = ledger_file w !! sid));
      [|reflexivity].
    intros d st f Hd Hdir Hf Hst. specialize (Hout d f Hd Hdir Hf).
    unfold syncFile, uploadRecord.
    destruct (isSynced (ledger_file w) (basename (file_name f) ".jsonl"));
      [exact Hst|].
    destruct (emptySession _).
    + destruct dry; cbn [world]; [exact Hst|].
      unfold markSynced. cbn [ledger_file].
      now rewrite assign_other by congruence.
    + destruct dry; cbn [world]; [exact Hst|].
      destruct (remote_ok _ _); cbn [world]; [|exact Hst].
      unfold markSynced. cbn [ledger_file].
      now rewrite assign_other by congruence.
  - intros sid. apply synced_after_run.
Qed.

(** ** The top level *)

Lemma or_str_empty o : JS.or_str o "" = default "" o.
Proof. now destruct o as [[|c s]|]. Qed.

(** X15. A dry run never exits early and leaves the world as it was,
    whatever the configuration.  A real run exits with code 1 before it reads
    or sends anything when the URL, the service key or the machine id is
    unset or empty; otherwise it runs [syncAll], and every request it sends
    carries the configured machine id. *)
Theorem main_needs_config_to_upload :
  forall (env : Env) (homedir : list string)
         (remote : string -> string -> list Upload.t -> Upload.t -> bool)
         (projects : option (list DirEntry)) (w : World),
    let url := default "" (CLAUDESCOPE_SUPABASE_URL env) in
    let key := default "" (CLAUDESCOPE_SUPABASE_KEY env) in
    let machine := default "" (CLAUDESCOPE_MACHINE_ID env) in
    (exists r, main true env homedir remote projects w = Ran r /\
               world r = w) /\
    (url = "" \/ key = "" \/ machine = "" ->
     main false env homedir remote projects w = Exited 1) /\
    (url <> "" -> key <> "" -> machine <> "" ->
     exists r sent,
       main false env homedir remote projects w = Ran r /\
       r = syncAll false machine homedir (remote url key) projects w /\
       posts (world r) = (posts w ++ sent)%list /\
       Forall (fun rec => Upload.machine_id rec = machine) sent).
Proof.
  intros env homedir remote projects w url key machine.
  unfold main, initialConfig. cbn [CONFIG.SUPABASE_URL
    CONFIG.SUPABASE_SERVICE_KEY CONFIG.MACHINE_ID].
  rewrite !or_str_empty. fold url key machine. split; [|split].
  - eexists. split; [reflexivity|].
    destruct projects as [projects|]; [|reflexivity].
    unfold syncAll, getAlreadySynced.
    now destruct (foldl_syncDir_advanced
                    (if falsy_str machine then "dry-run" else machine)
                    homedir (remote url key) (ledger_file w) true projects
                    (mkRunState w 0 0 0%float)) as (_ & _ & _ & Hw).
  - intros [->| [->| ->]]; cbn [falsy_str orb]; try reflexivity.
    + now rewrite orb_true_r.
    + now rewrite !orb_true_r.
  - intros Hu Hk Hm.
    destruct url as [|c1 s1]; [congruence|].
    destruct key as [|c2 s2]; [congruence|].
    destruct machine as [|c3 s3] eqn:E; [congruence|]. cbn [falsy_str orb].
    rewrite <- E.
    destruct projects as [projects|].
    + exists (syncAll false machine homedir
                      (remote (String c1 s1) (String c2 s2))
                      (Some projects) w),
             (pendingRecords machine homedir (ledger_file w) projects).
      repeat split.
      * unfold syncAll, getAlreadySynced.
        now destruct (foldl_syncDir_advanced machine homedir
                        (remote (String c1 s1) (String c2 s2))
                        (ledger_file w) false projects
                        (mkRunState w 0 0 0%float)) as (_ & _ & Hp & _).
      * apply Forall_forall. intros rec Hin.
        apply list_elem_of_In, pendingRecords_In in Hin
          as (d & f & _ & _ & _ & _ & _ & ->).
        reflexivity.
    + exists (mkRunState w 0 0 0%float), []. repeat split.
      * simpl. now rewrite app_nil_r.
      * constructor.
Qed.

(** * Further properties: the cost *)

(** ** Input tokens covered by the cache counts *)

(** When the cache counts reach the input count the clamped normal input
    is [+0]. *)
Lemma clamp_zero_le i r w :
  SFcount (Prim2SF i) = true -> SFcount (Prim2SF r) = true ->
  SFcount (Prim2SF w) = true ->
  (exact i <= exact r + exact w)%Z ->
  JS.Math_max 0 (i - r - w) = 0%float.
Proof.
  intros Hi Hr Hw H. unfold exact in H. apply Prim2SF_inj.
  change (Prim2SF 0) with (S754_zero false).
  pose proof (Prim2SF_valid i) as Vi. pose proof (Prim2SF_valid r) as Vr.
  pose proof (Prim2SF_valid w) as Vw.
  pose proof (Prim2SF_valid (i - r)) as Va.
  assert (Na : Prim2SF (i - r) <> S754_nan).
  { rewrite sub_spec. apply SFsub_not_nan; [|exact Hr].
    intros E. now rewrite E in Hi. }
  assert (Nw : Prim2SF w <> S754_nan) by (intros E; now rewrite E in Hw).
  assert (Hle : SFleb (Prim2SF (i - r)) (Prim2SF w) = true).
  { rewrite sub_spec.
    rewrite (SFleb_eqv _ _ _ _
               (SFsub_units _ _ Vi Vr (count_fin _ Hi) (count_fin _ Hr))
               (count_RNZ _ Vw Hw)).
    apply RNZ_mono. lia. }
  pose proof (SFsub_mono_l _ _ _ Va Vw Vw Na Nw Hw Hle) as Hs.
  rewrite <- sub_spec in Hs.
  assert (Hz : exists s, SF64sub (Prim2SF w) (Prim2SF w) = S754_zero s).
  { destruct (SFsub_units _ _ Vw Vw (count_fin _ Hw) (count_fin _ Hw))
      as [E|(s & s' & E & _)]; [|now exists s].
    rewrite Z.sub_diag in E. now exists false. }
  destruct Hz as [s Hz].
  rewrite Math_max_0_spec.
  - now rewrite (SFltb_zero_le _ _ s Hs Hz).
  - rewrite sub_spec. apply SFsub_not_nan; assumption.
Qed.

Lemma exact_or0 v : exact (JS.or0 (Some v)) = exact v.
Proof.
  unfold exact. cbn [JS.or0]. unfold JS.truthy.
  rewrite is_zero_spec, is_nan_spec.
  destruct (Prim2SF v) as [s|s| |s m e] eqn:E; cbn [orb negb];
    rewrite ?E; reflexivity.
Qed.

(** X16. For finite non-negative token counts, the cost does not
    depend on the input count as long as it does not exceed the cache-read
    and cache-write counts together: any two such input counts, 0 among them,
    give the same cost. *)
Theorem input_within_cache_is_free :
  forall (u : Usage) (f : Family) (v v' : float),
    tokenCounts u = true -> tokenCount v = true -> tokenCount v' = true ->
    let cached := (exact (JS.or0 (cache_read_input_tokens u)) +
                   exact (JS.or0 (cache_creation_input_tokens u)))%Z in
    (exact v <= cached)%Z -> (exact v' <= cached)%Z ->
    calculateCost (withInput u v) (family_key f) =
    calculateCost (withInput u v') (family_key f).
Proof.
  intros u f v v' Hu Hv Hv' cached H H'. subst cached.
  destruct (tokenCounts_fields u Hu) as (_ & _ & Hw & Hr).
  assert (Hc : forall x, tokenCount x = true ->
                         SFcount (Prim2SF (JS.or0 (Some x))) = true).
  { intros x Hx. now apply or0_count. }
  unfold calculateCost, normalInput, withInput.
  cbn [input_tokens output_tokens cache_creation_input_tokens
       cache_read_input_tokens].
  rewrite !clamp_zero_le; auto; now rewrite exact_or0.
Qed.

Lemma input_within_cache_is_free_witness :
  calculateCost (withInput (mkUsage None (Some 10%float) (Some 50%float)
                                    (Some 80%float)) 0) "claude-sonnet-4" =
  calculateCost (withInput (mkUsage None (Some 10%float) (Some 50%float)
                                    (Some 80%float)) 130) "claude-sonnet-4".
Proof.
  apply (input_within_cache_is_free
           (mkUsage None (Some 10%float) (Some 50%float) (Some 80%float))
           Sonnet4 0%float 130%float);
    [reflexivity | reflexivity | reflexivity
    | vm_compute; discriminate | vm_compute; discriminate].
Defined.

(** ** The cache counts when they cover the input count *)

Lemma exact_nonneg x : SFcount (Prim2SF x) = true -> (0 <= exact x)%Z.
Proof.
  unfold exact. destruct (Prim2SF x) as [s|s| |[|] m e]; try discriminate;
    intros _; cbn [units cond_Zopp]; lia.
Qed.

Lemma exact_le a b :
  SFcount (Prim2SF a) = true -> SFcount (Prim2SF b) = true -> le a b ->
  (exact a <= exact b)%Z.
Proof.
  intros Ha Hb H. apply le_spec in H. unfold exact.
  apply SFleb_units_le; try apply Prim2SF_valid; try exact H;
    now apply count_fin.
Qed.

Section CacheOrder.

Variables (i o : float) (p : rates).
Hypothesis Hi : SFcount (Prim2SF i) = true.
Hypothesis Ho : SFcount (Prim2SF o) = true.
Hypothesis Pi : posFinite (input p) = true.
Hypothesis Po : posFinite (output p) = true.
Hypothesis Pr : posFinite (cache_read p) = true.
Hypothesis Pw : posFinite (cache_write p) = true.

(** With the normal input clamped to 0, the formula grows with both cache
    counts. *)
Lemma costFormula_le_cache w w' r r' :
  SFcount (Prim2SF w) = true -> SFcount (Prim2SF w') = true ->
  SFcount (Prim2SF r) = true -> SFcount (Prim2SF r') = true ->
  le w w' -> le r r' ->
  (exact i <= exact r + exact w)%Z ->
  le (costFormula i o w r p) (costFormula i o w' r' p).
Proof.
  intros Hw Hw' Hr Hr' Lw Lr H.
  pose proof (exact_le _ _ Hw Hw' Lw). pose proof (exact_le _ _ Hr Hr' Lr).
  unfold costFormula.
  rewrite (clamp_zero_le i r w), (clamp_zero_le i r' w') by (assumption || lia).
  assert (N0 : nonneg (0 / 1e6 * input p)).
  { apply mul_nonneg; [|exact Pi]. apply div_nonneg; [|exact posFinite_1e6].
    reflexivity. }
  assert (No : nonneg (o / 1e6 * output p)).
  { apply mul_nonneg; [|exact Po]. apply div_nonneg; [|exact posFinite_1e6].
    now apply count_nonneg. }
  assert (Nw : nonneg (w / 1e6 * cache_write p)).
  { apply mul_nonneg; [|exact Pw]. apply div_nonneg; [|exact posFinite_1e6].
    now apply count_nonneg. }
  assert (Nr : nonneg (r / 1e6 * cache_read p)).
  { apply mul_nonneg; [|exact Pr]. apply div_nonneg; [|exact posFinite_1e6].
    now apply count_nonneg. }
  apply le_add; [| exact No | | apply le_refl; now apply nonneg_not_nan].
  - repeat apply add_nonneg; assumption.
  - apply le_add; [|exact Nr| |].
    + now apply add_nonneg.
    + apply le_add; [exact N0 | exact Nw | |].
      * apply le_refl. now apply nonneg_not_nan.
      * apply le_mul; [|exact Pw|].
        -- apply div_nonneg; [|exact posFinite_1e6]. now apply count_nonneg.
        -- apply le_div; [now apply count_nonneg | exact posFinite_1e6 |].
           exact Lw.
    + apply le_mul; [|exact Pr|].
      * apply div_nonneg; [|exact posFinite_1e6]. now apply count_nonneg.
      * apply le_div; [now apply count_nonneg | exact posFinite_1e6 |].
        exact Lr.
Qed.

End CacheOrder.

(** The order of two costs, from the order of the formula. *)
Lemma calculateCost_le_cache (i o w w' r r' : option float) f :
  tokenCounts (mkUsage i o w r) = true ->
  tokenCounts (mkUsage i o w' r') = true ->
  le (JS.or0 w) (JS.or0 w') -> le (JS.or0 r) (JS.or0 r') ->
  (exact (JS.or0 i) <= exact (JS.or0 r) + exact (JS.or0 w))%Z ->
  le (calculateCost (mkUsage i o w r) (family_key f))
     (calculateCost (mkUsage i o w' r') (family_key f)).
Proof.
  intros Hu Hu' Lw Lr H.
  destruct (tokenCounts_fields _ Hu) as (Hi & Ho & Hw & Hr).
  destruct (tokenCounts_fields _ Hu') as (_ & _ & Hw' & Hr').
  destruct (posFinite_rates f) as (Pi & Po & Pr & Pw).
  cbn [input_tokens output_tokens cache_creation_input_tokens
       cache_read_input_tokens] in *.
  rewrite !calculateCost_round6.
  cbn [input_tokens output_tokens cache_creation_input_tokens
       cache_read_input_tokens].
  apply round6_le.
  - now apply costFormula_nonneg.
  - now apply costFormula_le_cache.
Qed.

Lemma tokenCounts_with u v :
  tokenCounts u = true -> tokenCount v = true ->
  tokenCounts (withInput u v) = true /\ tokenCounts (withOutput u v) = true /\
  tokenCounts (withCacheWrite u v) = true /\
  tokenCounts (withCacheRead u v) = true.
Proof.
  unfold tokenCounts. rewrite !andb_true_iff. intros [[[Hi Ho] Hw] Hr] Hv.
  unfold withInput, withOutput, withCacheWrite, withCacheRead.
  cbn [input_tokens output_tokens cache_creation_input_tokens
       cache_read_input_tokens countField].
  tauto.
Qed.

(** ** Whole token counts above the clamp *)

(** Above the clamp a cache-write token replaces an input token at a
    higher rate.  The two components are rounded, so the order of the sums
    needs a bound on the rounding: each division and each multiplication is
    within one unit of the last place of its result. *)

Local Open Scope Z_scope.

Lemma units_build m t :
  0 <= m -> t <= 971 ->
  SFfin (build false m t) = true /\ SFnonneg (build false m t) = true /\
  units (build false m t) = m * 2 ^ (t + 1074).
Proof.
  intros Hm Ht. unfold build. destruct m as [|p|p]; [now cbn|  | lia].
  change (emax - prec) with 971. destruct (Z.leb_spec t 971); [|lia].
  now cbn.
Qed.

Lemma units_canon m t :
  0 <= m <= 2 ^ 53 -> -1074 <= t <= 970 ->
  SFfin (canon false m t) = true /\ SFnonneg (canon false m t) = true /\
  units (canon false m t) = m * 2 ^ (t + 1074).
Proof.
  intros Hm Ht. unfold canon. destruct (Z.ltb_spec m (2 ^ 53)).
  - apply units_build; lia.
  - assert (m = 2 ^ 53) as -> by lia.
    destruct (units_build (2 ^ 52) (t + 1)) as (A & B & C); [lia | lia |].
    repeat split; try assumption. rewrite C.
    replace (t + 1 + 1074) with (1 + (t + 1074)) by lia.
    rewrite Z.pow_add_r by lia. change (2 ^ 53) with (2 ^ 52 * 2 ^ 1). lia.
Qed.

(** The result of a rounding is within one unit of its last place. *)
Lemma bra_error N D e :
  0 <= N -> 0 < D -> enough N D e -> target N D e <= 970 ->
  let t := target N D e in
  let r := bra false N D e in
  SFfin r = true /\ SFnonneg r = true /\
  (N - D * 2 ^ (t - e)) * 2 ^ (t + 1074) <= units r * (D * 2 ^ (t - e))
    <= (N + D * 2 ^ (t - e)) * 2 ^ (t + 1074).
Proof.
  intros HN HD He Ht t r. subst r. rewrite bra_enough by assumption. fold t.
  assert (Hte : 0 <= t - e) by (unfold enough in He; unfold t, target; lia).
  assert (Ht0 : -1074 <= t).
  { unfold t, target. rewrite fexp_eq. lia. }
  set (D' := D * 2 ^ (t - e)).
  assert (HD' : 0 < D').
  { unfold D'. apply Z.mul_pos_pos; [lia|]. apply Z.pow_pos_nonneg; lia. }
  pose proof (rne_below N D e HN HD He) as Hb. fold t in Hb. fold D' in Hb.
  pose proof (rne_bounds N D' HN HD') as Hr.
  destruct (units_canon (rne N D') t Hb) as (A & B & C); [lia|].
  repeat split; try assumption; rewrite C.
  - pose proof (Z.mul_succ_div_gt N D' HD').
    assert (0 < 2 ^ (t + 1074)) by (apply Z.pow_pos_nonneg; lia).
    nia.
  - pose proof (Z.mul_div_le N D' HD').
    assert (0 < 2 ^ (t + 1074)) by (apply Z.pow_pos_nonneg; lia).
    nia.
Qed.

Lemma target_le N D e k :
  0 <= N -> 0 < D -> e <= k -> N < D * 2 ^ (k - e) ->
  target N D e <= Z.max (k - 53) (-1074).
Proof.
  intros HN HD Hk H. unfold target. rewrite fexp_eq.
  assert (Zdigits2 (N / D) <= k - e); [|lia].
  apply Zdigits2_lt_pow2; [apply Z.div_pos; lia | lia |].
  apply Z.div_lt_upper_bound; lia.
Qed.

Lemma pow2_pos n : 0 <= n -> 0 < 2 ^ n.
Proof. intros. apply Z.pow_pos_nonneg; lia. Qed.

(** The quotient of two positive floats, within one unit of its last place. *)
Lemma SFdiv_error m1 e1 m2 e2 k :
  valid_binary (S754_finite false m1 e1) = true ->
  valid_binary (S754_finite false m2 e2) = true ->
  0 <= k <= 1023 ->
  let ux := Z.pos m1 * 2 ^ (e1 + 1074) in
  let uc := Z.pos m2 * 2 ^ (e2 + 1074) in
  ux < uc * 2 ^ k ->
  let q := SF64div (S754_finite false m1 e1) (S754_finite false m2 e2) in
  SFfin q = true /\ SFnonneg q = true /\
  ux * 2 ^ 1074 - uc * 2 ^ (k + 1021) <= units q * uc
    <= ux * 2 ^ 1074 + uc * 2 ^ (k + 1021).
Proof.
  intros V1 V2 Hk ux uc Hlt q.
  destruct (SFdiv_bra m1 e1 m2 e2 V1 V2) as (E & En & Be). cbv zeta in *.
  destruct (valid_finite _ _ _ V1) as (Hc1 & _ & He1 & Hm1).
  destruct (valid_finite _ _ _ V2) as (Hc2 & _ & He2 & Hm2).
  set (e' := div_exp m1 e1 m2 e2) in *.
  set (N := Z.pos m1 * 2 ^ (e1 - e2 - e')) in *.
  assert (Hpa : 0 < 2 ^ (e1 - e2 - e')) by (apply pow2_pos; lia).
  assert (HN : 0 <= N) by (subst N; nia).
  (* the digits of the quotient *)
  pose proof (Zdigits2_bounds (Z.pos m1) ltac:(lia)) as [L1 _].
  pose proof (Zdigits2_bounds (Z.pos m2) ltac:(lia)) as [_ U2].
  set (d1 := Zdigits2 (Z.pos m1)) in *. set (d2 := Zdigits2 (Z.pos m2)) in *.
  assert (D1 : 1 <= d1) by (subst d1; simpl; lia).
  assert (D2 : 1 <= d2) by (subst d2; simpl; lia).
  assert (Hd : d1 + e1 - d2 - e2 <= k).
  { assert (H : 2 ^ (d1 - 1 + (e1 + 1074)) < 2 ^ (d2 + (e2 + 1074) + k)).
    { rewrite (Z.pow_add_r 2 (d1 - 1) (e1 + 1074)),
        (Z.pow_add_r 2 (d2 + (e2 + 1074)) k),
        (Z.pow_add_r 2 d2 (e2 + 1074)) by lia.
      pose proof (pow2_pos (e1 + 1074) ltac:(lia)).
      pose proof (pow2_pos (e2 + 1074) ltac:(lia)).
      pose proof (pow2_pos k ltac:(lia)).
      subst ux uc.
      apply Z.le_lt_trans with (Z.pos m1 * 2 ^ (e1 + 1074)); [nia|].
      eapply Z.lt_le_trans; [exact Hlt|].
      apply Z.mul_le_mono_nonneg_r; [lia|].
      apply Z.mul_le_mono_nonneg_r; lia. }
    apply Z.pow_lt_mono_r_iff in H; lia. }
  assert (He'k : e' <= k).
  { subst e'. unfold div_exp. rewrite fexp_eq. fold d1 d2. lia. }
  assert (Hee : 0 <= e2 + e' + 2148) by lia.
  assert (HNlt : N < Z.pos m2 * 2 ^ (k - e')).
  { apply Z.mul_lt_mono_pos_r with (p := 2 ^ (e2 + e' + 2148));
      [apply pow2_pos; lia|].
    subst N. rewrite <- !Z.mul_assoc, <- !Z.pow_add_r by lia.
    replace (e1 - e2 - e' + (e2 + e' + 2148)) with (e1 + 1074 + 1074) by lia.
    replace (k - e' + (e2 + e' + 2148)) with (e2 + 1074 + k + 1074) by lia.
    rewrite (Z.pow_add_r 2 (e1 + 1074) 1074),
      (Z.pow_add_r 2 (e2 + 1074 + k) 1074),
      (Z.pow_add_r 2 (e2 + 1074) k) by lia. subst ux uc.
    pose proof (pow2_pos 1074 ltac:(lia)). nia. }
  pose proof (target_le N (Z.pos m2) e' k HN ltac:(lia) He'k HNlt) as Ht.
  set (t := target N (Z.pos m2) e') in *.
  assert (Ht0 : -1074 <= t) by (subst t; unfold target; rewrite fexp_eq; lia).
  assert (Hte : 0 <= t - e')
    by (unfold enough in En; subst t; unfold target; lia).
  destruct (bra_error N (Z.pos m2) e' HN ltac:(lia) En ltac:(fold t; lia))
    as (F & P & Lo & Hi).
  fold t in Lo, Hi. subst q. rewrite E. split; [exact F|]. split; [exact P|].
  set (u := units (bra false N (Z.pos m2) e')) in *.
  set (pa := 2 ^ (e1 - e2 - e')) in *.
  set (pb := 2 ^ (t + 1074)) in *.
  set (pd := 2 ^ (t - e')) in *.
  set (pc := 2 ^ (e2 + 1074)) in *.
  set (px := 2 ^ (e1 + 1074)) in *.
  set (U := 2 ^ 1074) in *.
  assert (Hid : pa * pb * pc = px * U * pd).
  { subst pa pb pc px U pd. rewrite <- !Z.pow_add_r by lia. f_equal. lia. }
  assert (Hpb : 0 < pb) by (apply pow2_pos; lia).
  assert (Hpc : 0 < pc) by (apply pow2_pos; lia).
  assert (Hpd : 0 < pd) by (apply pow2_pos; lia).
  assert (HB : pb <= 2 ^ (k + 1021)) by (apply Z.pow_le_mono_r; lia).
  subst ux uc N. fold px pc.
  assert (A1 : (Z.pos m1 * px * U - Z.pos m2 * pc * pb) * pd
               <= u * (Z.pos m2 * pc) * pd).
  { replace ((Z.pos m1 * px * U - Z.pos m2 * pc * pb) * pd)
      with (Z.pos m1 * (px * U * pd) - Z.pos m2 * pd * pb * pc) by ring.
    rewrite <- Hid.
    replace (Z.pos m1 * (pa * pb * pc) - Z.pos m2 * pd * pb * pc)
      with ((Z.pos m1 * pa - Z.pos m2 * pd) * pb * pc) by ring.
    replace (u * (Z.pos m2 * pc) * pd) with (u * (Z.pos m2 * pd) * pc) by ring.
    apply Z.mul_le_mono_nonneg_r; [lia | exact Lo]. }
  assert (A2 : u * (Z.pos m2 * pc) * pd
               <= (Z.pos m1 * px * U + Z.pos m2 * pc * pb) * pd).
  { replace ((Z.pos m1 * px * U + Z.pos m2 * pc * pb) * pd)
      with (Z.pos m1 * (px * U * pd) + Z.pos m2 * pd * pb * pc) by ring.
    rewrite <- Hid.
    replace (Z.pos m1 * (pa * pb * pc) + Z.pos m2 * pd * pb * pc)
      with ((Z.pos m1 * pa + Z.pos m2 * pd) * pb * pc) by ring.
    replace (u * (Z.pos m2 * pc) * pd) with (u * (Z.pos m2 * pd) * pc) by ring.
    apply Z.mul_le_mono_nonneg_r; [lia | exact Hi]. }
  apply Z.mul_le_mono_pos_r in A1, A2; try exact Hpd.
  assert (0 <= Z.pos m2 * pc * (2 ^ (k + 1021) - pb)) by nia.
  lia.
Qed.

(** The product of two positive floats, within one unit of its last place. *)
Lemma SFmul_error m1 e1 m2 e2 k :
  valid_binary (S754_finite false m1 e1) = true ->
  valid_binary (S754_finite false m2 e2) = true ->
  0 <= k <= 1023 ->
  let ux := Z.pos m1 * 2 ^ (e1 + 1074) in
  let uc := Z.pos m2 * 2 ^ (e2 + 1074) in
  ux * uc < 2 ^ k * 2 ^ 1074 * 2 ^ 1074 ->
  let r := SF64mul (S754_finite false m1 e1) (S754_finite false m2 e2) in
  SFfin r = true /\ SFnonneg r = true /\
  ux * uc - 2 ^ 1074 * 2 ^ (k + 1021) <= units r * 2 ^ 1074
    <= ux * uc + 2 ^ 1074 * 2 ^ (k + 1021).
Proof.
  intros V1 V2 Hk ux uc Hlt r.
  assert (Hkk : forall j, 0 <= j ->
                  2 ^ (k + j + 2148) = 2 ^ k * 2 ^ 1074 * 2 ^ 1074 * 2 ^ j).
  { intros j Hj. rewrite <- !Z.pow_add_r by lia. f_equal. lia. }
  assert (Hidt : forall t e,
             0 <= e + 2148 -> 0 <= t - e -> -1074 <= t ->
             2 ^ (e + 2148) * 2 ^ (t - e) = 2 ^ (t + 1074) * 2 ^ 1074).
  { intros t e H1 H2 H3. rewrite <- !Z.pow_add_r by lia. f_equal. lia. }
  pose proof (pow2_pos 1074 ltac:(lia)) as HU.
  set (U := 2 ^ 1074) in *. clearbody U.
  destruct (valid_finite _ _ _ V1) as (Hc1 & _ & He1 & Hm1).
  destruct (valid_finite _ _ _ V2) as (Hc2 & _ & He2 & Hm2).
  pose proof (enough_mul false m1 e1 false m2 e2 V1 V2) as En.
  assert (Er : r = bra false (Z.pos m1 * Z.pos m2) 1 (e1 + e2)).
  { subst r. unfold SF64mul, SFmul. cbn [xorb].
    now rewrite binary_round_aux_exact. }
  assert (Hprod : Z.pos m1 * Z.pos m2 * 2 ^ (e1 + e2 + 2148) = ux * uc).
  { subst ux uc. replace (e1 + e2 + 2148) with (e1 + 1074 + (e2 + 1074))
      by lia. rewrite Z.pow_add_r by lia. ring. }
  assert (HN : 0 < Z.pos m1 * Z.pos m2) by lia.
  assert (Hee : 0 <= e1 + e2 + 2148) by lia.
  set (N := Z.pos m1 * Z.pos m2) in *. set (e := e1 + e2) in *.
  clearbody N e ux uc. subst r. clear V1 V2 Hc1 Hc2 He1 He2 Hm1 Hm2.
  pose proof (pow2_pos (e + 2148) Hee) as Hpe.
  set (pe := 2 ^ (e + 2148)) in *.
  destruct (Z.le_gt_cases e k) as [Hek|Hek].
  2:{ (* the product is at least 2^e *)
    exfalso. assert (H : 2 ^ (k + 0 + 2148) <= pe)
      by (apply Z.pow_le_mono_r; lia).
    rewrite Hkk, Z.mul_1_r in H by lia.
    assert (pe <= N * pe) by nia. lia. }
  assert (HNlt : N < 1 * 2 ^ (k - e)).
  { apply Z.mul_lt_mono_pos_r with (p := pe); [exact Hpe|].
    rewrite Hprod, Z.mul_1_l. subst pe. rewrite <- Z.pow_add_r by lia.
    replace (k - e + (e + 2148)) with (k + 0 + 2148) by lia.
    rewrite Hkk, Z.mul_1_r by lia. exact Hlt. }
  pose proof (target_le N 1 e k ltac:(lia) ltac:(lia) Hek HNlt) as Ht.
  assert (Ht0 : -1074 <= target N 1 e)
    by (unfold target; rewrite fexp_eq; lia).
  assert (Hte : 0 <= target N 1 e - e)
    by (unfold enough in En; unfold target; lia).
  destruct (bra_error N 1 e ltac:(lia) ltac:(lia) En ltac:(lia))
    as (F & P & Lo & Hi).
  set (t := target N 1 e) in *. clearbody t. rewrite Er.
  split; [exact F|]. split; [exact P|].
  set (u := units (bra false N 1 e)) in *. clearbody u.
  rewrite <- Hprod. rewrite !Z.mul_1_l in Lo, Hi.
  assert (Hid : pe * 2 ^ (t - e) = 2 ^ (t + 1074) * U).
  { subst pe. apply Hidt; lia. }
  pose proof (pow2_pos (t + 1074) ltac:(lia)) as Hpb.
  pose proof (pow2_pos (t - e) Hte) as Hpd.
  assert (HB : 2 ^ (t + 1074) <= 2 ^ (k + 1021))
    by (apply Z.pow_le_mono_r; lia).
  set (pb := 2 ^ (t + 1074)) in *. set (pd := 2 ^ (t - e)) in *.
  set (B := 2 ^ (k + 1021)) in *.
  clearbody pe pb pd B. clear Hkk Hidt Hlt.
  (* multiply by pe, divide by pb *)
  assert (A1 : (N * pe - U * pb) * pb <= u * U * pb).
  { apply Z.le_trans with ((N - pd) * pb * pe).
    - apply Z.eq_le_incl.
      transitivity (N * pb * pe - pb * (pb * U)); [lia|].
      rewrite <- Hid. lia.
    - apply Z.le_trans with (u * pd * pe);
        [apply Z.mul_le_mono_nonneg_r; [lia | exact Lo]|].
      apply Z.eq_le_incl. transitivity (u * (pe * pd)); [lia|].
      rewrite Hid. lia. }
  assert (A2 : u * U * pb <= (N * pe + U * pb) * pb).
  { apply Z.le_trans with ((N + pd) * pb * pe).
    - apply Z.le_trans with (u * pd * pe);
        [|apply Z.mul_le_mono_nonneg_r; [lia | exact Hi]].
      apply Z.eq_le_incl. transitivity (u * (pe * pd)); [|lia].
      rewrite Hid. lia.
    - apply Z.eq_le_incl.
      transitivity (N * pb * pe + pb * (pb * U)); [|lia].
      rewrite <- Hid. lia. }
  apply Z.mul_le_mono_pos_r in A1, A2; try exact Hpb.
  assert (0 <= U * (B - pb)) by nia.
  lia.
Qed.

Lemma pow2_1042 : 2 ^ 1042 = 2 * 2 ^ 1041.
Proof.
  change 2 with (2 ^ 1) at 2. rewrite <- Z.pow_add_r by lia. reflexivity.
Qed.

Lemma pow2_1047 : 2 ^ 1047 = 32 * 2 ^ 1042.
Proof.
  change 32 with (2 ^ 5). rewrite <- Z.pow_add_r by lia. reflexivity.
Qed.

Lemma pow2_1071 : 2 ^ 1071 = 536870912 * 2 ^ 1042.
Proof.
  change 536870912 with (2 ^ 29). rewrite <- Z.pow_add_r by lia.
  reflexivity.
Qed.

Lemma pow2_1074 : 2 ^ 1074 = 4294967296 * 2 ^ 1042.
Proof.
  change 4294967296 with (2 ^ 32). rewrite <- Z.pow_add_r by lia.
  reflexivity.
Qed.

(** A whole number of tokens below 2^40, divided by [1e6]. *)
Lemma per_million_error x K :
  SFcount (Prim2SF x) = true -> 0 <= K < 2 ^ 40 -> exact x = K * 2 ^ 1074 ->
  let q := (x / 1e6)%float in
  SFcount (Prim2SF q) = true /\
  K * 2 ^ 1074 - 10 ^ 6 * 2 ^ 1042 <= 10 ^ 6 * exact q
    <= K * 2 ^ 1074 + 10 ^ 6 * 2 ^ 1042.
Proof.
  intros Hx HK Ex q. subst q. unfold exact in *. rewrite div_spec.
  pose proof (Prim2SF_valid x) as Vx.
  change (Prim2SF 1e6) with (S754_finite false 8589934592000000 (-33)).
  change (2 ^ 40) with 1099511627776 in HK. change (10 ^ 6) with 1000000.
  destruct (Prim2SF x) as [s|s| |[|] m e]; try discriminate.
  - change (SF64div (S754_zero s)
              (S754_finite false 8589934592000000 (-33)))
      with (S754_zero (xorb s false)).
    cbn [units SFcount]. cbn [units] in Ex.
    pose proof (pow2_pos 1042 ltac:(lia)) as HW. rewrite pow2_1074 in *.
    set (W := 2 ^ 1042) in *. clearbody W. split; [reflexivity | nia].
  - cbn [units cond_Zopp] in Ex.
    destruct (SFdiv_error m e 8589934592000000 (-33) 21 Vx eq_refl ltac:(lia))
      as (F & P & Lo & Hi).
    { cbv zeta. rewrite Ex. change (-33 + 1074) with 1041.
      rewrite pow2_1074, pow2_1042. change (2 ^ 21) with 2097152.
      pose proof (pow2_pos 1041 ltac:(lia)).
      set (V := 2 ^ 1041) in *. clearbody V. nia. }
    cbv zeta in Lo, Hi. rewrite Ex in Lo, Hi.
    set (u := units (SF64div (S754_finite false m e)
                       (S754_finite false 8589934592000000 (-33)))) in *.
    split.
    { destruct (SF64div _ _) as [s'|s'| |[|] m' e']; try discriminate;
        reflexivity. }
    clearbody u.
    change (-33 + 1074) with 1041 in Lo, Hi.
    change (21 + 1021) with 1042 in Lo, Hi.
    rewrite pow2_1074, pow2_1042 in *.
    pose proof (pow2_pos 1041 ltac:(lia)) as Hp.
    set (W := 2 ^ 1041) in *. clearbody W. nia.
Qed.

(** One component of the cost: a whole number of tokens below 2^40 at a
    rate below 32. *)
Lemma component_error x p K :
  SFcount (Prim2SF x) = true -> posFinite p = true ->
  0 <= K < 2 ^ 40 -> exact x = K * 2 ^ 1074 -> exact p < 2 ^ 5 * 2 ^ 1074 ->
  let g := (x / 1e6 * p)%float in
  SFcount (Prim2SF g) = true /\
  (K * 2 ^ 32 - 10 ^ 6) * exact p - 10 ^ 6 * 2 ^ 32 * 2 ^ 1047
    <= 10 ^ 6 * 2 ^ 32 * exact g
    <= (K * 2 ^ 32 + 10 ^ 6) * exact p + 10 ^ 6 * 2 ^ 32 * 2 ^ 1047.
Proof.
  intros Hx Hp HK Ex HP g.
  destruct (per_million_error x K Hx HK Ex) as (Cq & Lq & Uq).
  subst g. unfold exact in *. rewrite mul_spec.
  pose proof (Prim2SF_valid (x / 1e6)) as Vq.
  pose proof (Prim2SF_valid p) as Vp. unfold posFinite in Hp.
  set (q := Prim2SF (x / 1e6)) in *. clearbody q. clear Ex Hx.
  destruct (Prim2SF p) as [s|s| |[|] mp ep]; try discriminate.
  cbn [units cond_Zopp] in HP |- *.
  assert (HP0 : 0 < Z.pos mp * 2 ^ (ep + 1074)).
  { destruct (valid_finite _ _ _ Vp) as (_ & _ & He & _).
    pose proof (pow2_pos (ep + 1074) ltac:(lia)). nia. }
  change (10 ^ 6) with 1000000 in *. change (2 ^ 32) with 4294967296.
  change (2 ^ 40) with 1099511627776 in HK. change (2 ^ 5) with 32 in HP.
  destruct q as [s|s| |[|] mq eq]; try discriminate.
  - split; [now destruct s|].
    replace (units (SF64mul (S754_zero s) (S754_finite false mp ep))) with 0
      by now destruct s.
    cbn [units] in Lq, Uq. rewrite pow2_1047, pow2_1074 in *.
    pose proof (pow2_pos 1042 ltac:(lia)) as HW.
    set (P := Z.pos mp * 2 ^ (ep + 1074)) in *.
    set (W := 2 ^ 1042) in *. clearbody P W. nia.
  - cbn [units cond_Zopp] in Lq, Uq.
    assert (Hq0 : 0 <= Z.pos mq * 2 ^ (eq + 1074)).
    { destruct (valid_finite _ _ _ Vq) as (_ & _ & He & _).
      pose proof (pow2_pos (eq + 1074) ltac:(lia)). nia. }
    destruct (SFmul_error mq eq mp ep 26 Vq Vp ltac:(lia)) as (F & N & Lo & Hi).
    { cbv zeta. rewrite pow2_1074 in *. change (2 ^ 26) with 67108864.
      pose proof (pow2_pos 1042 ltac:(lia)) as HW.
      set (uq := Z.pos mq * 2 ^ (eq + 1074)) in *.
      set (P := Z.pos mp * 2 ^ (ep + 1074)) in *.
      set (W := 2 ^ 1042) in *. clearbody uq P W.
      assert (K * W <= 1099511627775 * W)
        by (apply Z.mul_le_mono_nonneg_r; lia).
      assert (uq < 2097152 * (4294967296 * W)) by lia.
      apply Z.lt_le_trans
        with (2097152 * (4294967296 * W) * (32 * (4294967296 * W))); [|lia].
      apply Z.mul_lt_mono_nonneg; lia. }
    cbv zeta in Lo, Hi.
    set (r := SF64mul (S754_finite false mq eq) (S754_finite false mp ep)) in *.
    split.
    { destruct r as [s'|s'| |[|] m' e']; try discriminate; reflexivity. }
    change (26 + 1021) with 1047 in Lo, Hi.
    set (ur := units r) in *.
    set (uq := Z.pos mq * 2 ^ (eq + 1074)) in *.
    set (P := Z.pos mp * 2 ^ (ep + 1074)) in *.
    rewrite pow2_1047, pow2_1074 in *.
    pose proof (pow2_pos 1042 ltac:(lia)) as HW.
    set (W := 2 ^ 1042) in *. clearbody ur uq P W.
    assert (M1 : (K * 4294967296 - 1000000) * W * P <= 1000000 * uq * P)
      by (apply Z.mul_le_mono_nonneg_r; lia).
    assert (M2 : 1000000 * uq * P <= (K * 4294967296 + 1000000) * W * P)
      by (apply Z.mul_le_mono_nonneg_r; lia).
    split.
    + apply Z.mul_le_mono_pos_r with (p := W); [exact HW|]. nia.
    + apply Z.mul_le_mono_pos_r with (p := W); [exact HW|]. nia.
Qed.

Lemma SFeqv_units a b :
  SFeqv a b -> units a = units b /\ SFfin a = SFfin b.
Proof.
  intros [->|(s & s' & -> & ->)]; split; reflexivity.
Qed.

Lemma units_opp x : units (SFopp x) = - units x.
Proof. destruct x as [s|s| |[|] m e]; cbn; lia. Qed.

Lemma SFfin_opp x : SFfin (SFopp x) = SFfin x.
Proof. now destruct x. Qed.

(** Whole numbers up to 2^52 in size are floats. *)
Lemma RNZ_exact_Z n :
  - 2 ^ 52 <= n <= 2 ^ 52 ->
  SFfin (RNZ (n * 2 ^ 1074)) = true /\
  units (RNZ (n * 2 ^ 1074)) = n * 2 ^ 1074.
Proof.
  intros Hn. destruct (Z.le_gt_cases 0 n) as [H|H].
  - apply RNZ_exact_int. lia.
  - destruct (RNZ_exact_int (- n) ltac:(lia)) as (F & E).
    pose proof (pow2_pos 1074 ltac:(lia)) as HU.
    destruct (n * 2 ^ 1074) as [|p|p] eqn:En; try nia.
    rewrite RNZ_neg, <- RNZ_pos. rewrite SFfin_opp, units_opp.
    replace (Z.pos p) with (- n * 2 ^ 1074) by lia. rewrite F, E.
    split; [reflexivity | lia].
Qed.

Lemma sub_exact a b Ka Kb :
  SFfin (Prim2SF a) = true -> SFfin (Prim2SF b) = true ->
  exact a = Ka * 2 ^ 1074 -> exact b = Kb * 2 ^ 1074 ->
  - 2 ^ 52 <= Ka - Kb <= 2 ^ 52 ->
  SFfin (Prim2SF (a - b)) = true /\ exact (a - b) = (Ka - Kb) * 2 ^ 1074.
Proof.
  intros Fa Fb Ea Eb H. unfold exact in *. rewrite sub_spec.
  destruct (SFeqv_units _ _ (SFsub_units _ _ (Prim2SF_valid a)
                               (Prim2SF_valid b) Fa Fb)) as (E & F).
  rewrite E, F, Ea, Eb, <- Z.mul_sub_distr_r. now apply RNZ_exact_Z.
Qed.

Lemma max0_exact x :
  SFfin (Prim2SF x) = true ->
  SFcount (Prim2SF (JS.Math_max 0 x)) = true /\
  exact (JS.Math_max 0 x) = Z.max 0 (exact x).
Proof.
  intros F. unfold exact. rewrite Math_max_0_spec
    by (destruct (Prim2SF x); discriminate || congruence).
  destruct (Prim2SF x) as [s|s| |[|] m e]; try discriminate; cbn;
    split; try reflexivity; lia.
Qed.

(** The normal input of whole counts is their difference, or 0. *)
Lemma normalInput_exact i r w Ki Kr Kw :
  SFcount (Prim2SF i) = true -> SFcount (Prim2SF r) = true ->
  SFcount (Prim2SF w) = true ->
  0 <= Ki < 2 ^ 40 -> 0 <= Kr < 2 ^ 40 -> 0 <= Kw < 2 ^ 40 ->
  exact i = Ki * 2 ^ 1074 -> exact r = Kr * 2 ^ 1074 ->
  exact w = Kw * 2 ^ 1074 ->
  SFcount (Prim2SF (JS.Math_max 0 (i - r - w))) = true /\
  exact (JS.Math_max 0 (i - r - w)) = Z.max 0 (Ki - Kr - Kw) * 2 ^ 1074.
Proof.
  intros Ci Cr Cw Hi Hr Hw Ei Er Ew.
  change (2 ^ 40) with 1099511627776 in *.
  destruct (sub_exact i r Ki Kr (count_fin _ Ci) (count_fin _ Cr) Ei Er)
    as (F1 & E1); [change (2 ^ 52) with 4503599627370496; lia|].
  destruct (sub_exact (i - r) w (Ki - Kr) Kw F1 (count_fin _ Cw) E1 Ew)
    as (F2 & E2); [change (2 ^ 52) with 4503599627370496; lia|].
  destruct (max0_exact (i - r - w) F2) as (C & E). split; [exact C|].
  rewrite E, E2. pose proof (pow2_pos 1074 ltac:(lia)).
  set (U := 2 ^ 1074) in *. clearbody U. nia.
Qed.

(** Above the clamp, a cache-write token replaces an input token: with
    whole counts below 2^40 and a cache-write rate at least 1/8 above the
    input rate, the price difference outweighs the rounding of the two
    components. *)
Lemma cacheWrite_sum_le i r w w' pi pw Ki Kr Kw Kw' :
  SFcount (Prim2SF i) = true -> SFcount (Prim2SF r) = true ->
  SFcount (Prim2SF w) = true -> SFcount (Prim2SF w') = true ->
  posFinite pi = true -> posFinite pw = true ->
  exact pi + 2 ^ 1071 <= exact pw -> exact pw < 2 ^ 5 * 2 ^ 1074 ->
  0 <= Ki < 2 ^ 40 -> 0 <= Kr < 2 ^ 40 -> 0 <= Kw -> Kw < Kw' ->
  Kw' < 2 ^ 40 ->
  exact i = Ki * 2 ^ 1074 -> exact r = Kr * 2 ^ 1074 ->
  exact w = Kw * 2 ^ 1074 -> exact w' = Kw' * 2 ^ 1074 ->
  le (JS.Math_max 0 (i - r - w) / 1e6 * pi + w / 1e6 * pw)
     (JS.Math_max 0 (i - r - w') / 1e6 * pi + w' / 1e6 * pw).
Proof.
  intros Ci Cr Cw Cw' Hpi Hpw Hgap Hpw32 HKi HKr HKw Hlt HKw' Ei Er Ew Ew'.
  destruct (normalInput_exact i r w Ki Kr Kw Ci Cr Cw HKi HKr ltac:(lia)
              Ei Er Ew) as (Cn & En).
  destruct (normalInput_exact i r w' Ki Kr Kw' Ci Cr Cw' HKi HKr ltac:(lia)
              Ei Er Ew') as (Cn' & En').
  set (n := JS.Math_max 0 (i - r - w)) in *.
  set (n' := JS.Math_max 0 (i - r - w')) in *.
  assert (Hpi0 : 0 <= exact pi).
  { unfold posFinite in Hpi. unfold exact.
    destruct (Prim2SF pi) as [s|s| |[|] m e]; try discriminate.
    cbn [units cond_Zopp]. pose proof (Z.pow_nonneg 2 (e + 1074)). nia. }
  assert (H71 : 0 < 2 ^ 1071) by (apply pow2_pos; lia).
  assert (Hpi32 : exact pi < 2 ^ 5 * 2 ^ 1074) by lia.
  destruct (component_error n pi (Z.max 0 (Ki - Kr - Kw)) Cn Hpi
              ltac:(lia) En Hpi32) as (CA & _ & HA).
  destruct (component_error n' pi (Z.max 0 (Ki - Kr - Kw')) Cn' Hpi
              ltac:(lia) En' Hpi32) as (CA' & LA' & _).
  destruct (component_error w pw Kw Cw Hpw ltac:(lia) Ew Hpw32)
    as (CB & _ & HB).
  destruct (component_error w' pw Kw' Cw' Hpw ltac:(lia) Ew' Hpw32)
    as (CB' & LB' & _).
  cbv zeta in *.
  apply le_spec. rewrite !add_spec.
  rewrite (SFleb_eqv _ _ _ _
             (SFadd_units _ _ (Prim2SF_valid _) (Prim2SF_valid _)
                (count_fin _ CA) (count_fin _ CB))
             (SFadd_units _ _ (Prim2SF_valid _) (Prim2SF_valid _)
                (count_fin _ CA') (count_fin _ CB'))).
  apply RNZ_mono. fold (exact (n / 1e6 * pi)) (exact (w / 1e6 * pw))
    (exact (n' / 1e6 * pi)) (exact (w' / 1e6 * pw)).
  set (uA := exact (n / 1e6 * pi)) in *.
  set (uB := exact (w / 1e6 * pw)) in *.
  set (uA' := exact (n' / 1e6 * pi)) in *.
  set (uB' := exact (w' / 1e6 * pw)) in *.
  set (Pi := exact pi) in *. set (Pw := exact pw) in *.
  set (Kn := Z.max 0 (Ki - Kr - Kw)) in *.
  set (Kn' := Z.max 0 (Ki - Kr - Kw')) in *.
  rewrite pow2_1071 in Hgap. rewrite pow2_1074 in Hpw32.
  rewrite pow2_1047 in *.
  pose proof (pow2_pos 1042 ltac:(lia)) as HW.
  set (W := 2 ^ 1042) in *.
  change (2 ^ 32) with 4294967296 in *. change (2 ^ 5) with 32 in *.
  change (10 ^ 6) with 1000000 in *.
  change (2 ^ 40) with 1099511627776 in *.
  clearbody uA uB uA' uB' Pi Pw W. clear H71.
  assert (Hd : (Kn - Kn') * Pi <= (Kw' - Kw) * Pi)
    by (apply Z.mul_le_mono_nonneg_r; [exact Hpi0 | subst Kn Kn'; lia]).
  assert (Hk : 1 * (Pw - Pi) <= (Kw' - Kw) * (Pw - Pi))
    by (apply Z.mul_le_mono_nonneg_r; lia).
  set (a := Kn * Pi) in *. set (a' := Kn' * Pi) in *.
  set (b := Kw * Pw) in *. set (b' := Kw' * Pw) in *.
  replace ((Kn * 4294967296 + 1000000) * Pi)
    with (4294967296 * a + 1000000 * Pi) in HA by (subst a; ring).
  replace ((Kn' * 4294967296 - 1000000) * Pi)
    with (4294967296 * a' - 1000000 * Pi) in LA' by (subst a'; ring).
  replace ((Kw * 4294967296 + 1000000) * Pw)
    with (4294967296 * b + 1000000 * Pw) in HB by (subst b; ring).
  replace ((Kw' * 4294967296 - 1000000) * Pw)
    with (4294967296 * b' - 1000000 * Pw) in LB' by (subst b'; ring).
  replace ((Kn - Kn') * Pi) with (a - a') in Hd by (subst a a'; ring).
  set (c := Kw' * Pi) in *. set (c0 := Kw * Pi) in *.
  replace ((Kw' - Kw) * Pi) with (c - c0) in Hd by (subst c c0; ring).
  replace ((Kw' - Kw) * (Pw - Pi)) with (b' - b - (c - c0)) in Hk
    by (subst b b' c c0; ring).
  lia.
Qed.

Local Close Scope Z_scope.

(** Two counts of the same value are read as the same Number. *)
Lemma or0_same v v' :
  tokenCount v = true -> tokenCount v' = true -> exact v = exact v' ->
  JS.or0 (Some v) = JS.or0 (Some v').
Proof.
  rewrite !tokenCount_spec. unfold exact, JS.or0, JS.truthy.
  rewrite !is_zero_spec, !is_nan_spec.
  pose proof (Prim2SF_valid v) as V. pose proof (Prim2SF_valid v') as V'.
  destruct (Prim2SF v) as [s|s| |[|] m e] eqn:E; try discriminate;
    destruct (Prim2SF v') as [s'|s'| |[|] m' e'] eqn:E'; try discriminate;
    intros _ _ H; cbn [orb negb].
  - reflexivity.
  - exfalso. cbn [units cond_Zopp] in H.
    destruct (valid_finite _ _ _ V') as (_ & _ & He & _).
    pose proof (Z.pow_pos_nonneg 2 (e' + 1074) ltac:(lia) ltac:(lia)).
    nia.
  - exfalso. cbn [units cond_Zopp] in H.
    destruct (valid_finite _ _ _ V) as (_ & _ & He & _).
    pose proof (Z.pow_pos_nonneg 2 (e + 1074) ltac:(lia) ltac:(lia)).
    nia.
  - apply Prim2SF_inj. rewrite E, E'.
    rewrite <- (RNZ_units _ _ _ V), <- (RNZ_units _ _ _ V'). now rewrite H.
Qed.

Lemma rates_gap f :
  (exact (input (rateOf f)) + 2 ^ 1071 <= exact (cache_write (rateOf f)))%Z /\
  (exact (cache_write (rateOf f)) < 2 ^ 5 * 2 ^ 1074)%Z.
Proof. destruct f; split; vm_compute; congruence. Qed.

Section CacheWriteOrder.

Variables (i o r : float) (p : rates).
Hypothesis Hi : SFcount (Prim2SF i) = true.
Hypothesis Ho : SFcount (Prim2SF o) = true.
Hypothesis Hr : SFcount (Prim2SF r) = true.
Hypothesis Pi : posFinite (input p) = true.
Hypothesis Po : posFinite (output p) = true.
Hypothesis Pr : posFinite (cache_read p) = true.
Hypothesis Pw : posFinite (cache_write p) = true.
Hypothesis Gap :
  (exact (input p) + 2 ^ 1071 <= exact (cache_write p))%Z.
Hypothesis Top : (exact (cache_write p) < 2 ^ 5 * 2 ^ 1074)%Z.

(** With whole counts below 2^40, the formula grows with the cache-write
    count, clamped or not. *)
Lemma costFormula_le_cacheWrite w w' Ki Kr Kw Kw' :
  SFcount (Prim2SF w) = true -> SFcount (Prim2SF w') = true ->
  wholeCount i Ki -> wholeCount r Kr -> wholeCount w Kw ->
  wholeCount w' Kw' -> (Kw < Kw')%Z ->
  le (costFormula i o w r p) (costFormula i o w' r p).
Proof.
  intros Hw Hw' [BKi Ei] [BKr Er] [BKw Ew] [BKw' Ew'] Hlt.
  unfold costFormula.
  assert (Nn : forall x, SFcount (Prim2SF x) = true ->
                         nonneg (JS.Math_max 0 (i - r - x) / 1e6 * input p)).
  { intros x Hx. apply mul_nonneg; [|exact Pi].
    apply div_nonneg; [|exact posFinite_1e6]. apply max0_nonneg.
    now apply (normal_not_nan x r). }
  assert (Nc : forall x c, SFcount (Prim2SF x) = true ->
                           posFinite c = true -> nonneg (x / 1e6 * c)).
  { intros x c Hx Hc. apply mul_nonneg; [|exact Hc].
    apply div_nonneg; [|exact posFinite_1e6]. now apply count_nonneg. }
  apply le_add;
    [| now apply Nc | | apply le_refl, nonneg_not_nan; now apply Nc].
  - repeat apply add_nonneg; auto.
  - apply le_add;
      [| now apply Nc | | apply le_refl, nonneg_not_nan; now apply Nc].
    + apply add_nonneg; auto.
    + apply (cacheWrite_sum_le i r w w' (input p) (cache_write p)
               Ki Kr Kw Kw'); try assumption; lia.
Qed.

End CacheWriteOrder.

Lemma calculateCost_le_cacheWrite u f v v' Ki Kr Kw Kw' :
  tokenCounts u = true -> tokenCount v = true -> tokenCount v' = true ->
  (v <=? v')%float = true ->
  wholeCount (JS.or0 (input_tokens u)) Ki ->
  wholeCount (JS.or0 (cache_read_input_tokens u)) Kr ->
  wholeCount v Kw -> wholeCount v' Kw' ->
  le (calculateCost (withCacheWrite u v) (family_key f))
     (calculateCost (withCacheWrite u v') (family_key f)).
Proof.
  intros Hu Hv Hv' H WKi WKr WKw WKw'.
  destruct (tokenCounts_fields u Hu) as (Hi & Ho & Hw & Hr).
  destruct (posFinite_rates f) as (Pi & Po & Pr & Pw).
  destruct (rates_gap f) as (Gap & Top).
  assert (Cv : SFcount (Prim2SF (JS.or0 (Some v))) = true)
    by (now apply (or0_count (Some v))).
  assert (Cv' : SFcount (Prim2SF (JS.or0 (Some v'))) = true)
    by (now apply (or0_count (Some v'))).
  rewrite !calculateCost_round6.
  cbn [withCacheWrite input_tokens output_tokens cache_creation_input_tokens
       cache_read_input_tokens].
  assert (Hle : (Kw <= Kw')%Z).
  { pose proof (exact_le v v') as L. rewrite <- !tokenCount_spec in L.
    specialize (L Hv Hv' H). destruct WKw as [_ E], WKw' as [_ E'].
    rewrite E, E' in L.
    pose proof (Z.pow_pos_nonneg 2 1074 ltac:(lia) ltac:(lia)). nia. }
  destruct (Z.eq_dec Kw Kw') as [->|Hne].
  - rewrite (or0_same v v' Hv Hv')
      by (destruct WKw as [_ ->], WKw' as [_ ->]; reflexivity).
    apply round6_le; [now apply costFormula_nonneg|].
    apply le_refl, nonneg_not_nan. now apply costFormula_nonneg.
  - apply round6_le; [now apply costFormula_nonneg|].
    apply (costFormula_le_cacheWrite _ _ _ _ Hi Ho Hr Pi Po Pr Pw Gap Top
             _ _ Ki Kr Kw Kw'); try assumption.
    + destruct WKw as [B E]. split; [exact B|]. now rewrite exact_or0.
    + destruct WKw' as [B E]. split; [exact B|]. now rewrite exact_or0.
    + lia.
Qed.

(** C5, as the code has it. For finite non-negative token counts, raising
    the input count or the output count with the other counts fixed never
    lowers the cost; neither does raising the cache-read count or the
    cache-write count, provided the input count does not exceed the two
    cache counts together; neither does raising the cache-write count when
    the input, cache-read and cache-write counts are whole numbers below
    2^40.  (Raising the cache-read count above the clamp, or the cache-write
    count of much larger counts, can lower the cost.) *)
Theorem calculateCost_monotone_fields :
  forall (u : Usage) (f : Family) (v v' : float),
    tokenCounts u = true -> tokenCount v = true -> tokenCount v' = true ->
    (v <=? v')%float = true ->
    (calculateCost (withInput u v) (family_key f)
     <=? calculateCost (withInput u v') (family_key f))%float = true /\
    (calculateCost (withOutput u v) (family_key f)
     <=? calculateCost (withOutput u v') (family_key f))%float = true /\
    ((exact (JS.or0 (input_tokens u))
      <= exact v + exact (JS.or0 (cache_creation_input_tokens u)))%Z ->
     (calculateCost (withCacheRead u v) (family_key f)
      <=? calculateCost (withCacheRead u v') (family_key f))%float = true) /\
    ((exact (JS.or0 (input_tokens u))
      <= exact (JS.or0 (cache_read_input_tokens u)) + exact v)%Z ->
     (calculateCost (withCacheWrite u v) (family_key f)
      <=? calculateCost (withCacheWrite u v') (family_key f))%float = true) /\
    (forall Ki Kr Kw Kw' : Z,
        wholeCount (JS.or0 (input_tokens u)) Ki ->
        wholeCount (JS.or0 (cache_read_input_tokens u)) Kr ->
        wholeCount v Kw -> wholeCount v' Kw' ->
        (calculateCost (withCacheWrite u v) (family_key f)
         <=? calculateCost (withCacheWrite u v') (family_key f))%float = true).
Proof.
  intros u f v v' Hu Hv Hv' H.
  pose proof (calculateCost_le_cacheWrite u f v v') as Whole.
  destruct (tokenCounts_fields u Hu) as (Hi & Ho & Hw & Hr).
  destruct (posFinite_rates f) as (Pi & Po & Pr & Pw).
  assert (Cv : SFcount (Prim2SF (JS.or0 (Some v))) = true)
    by (now apply (or0_count (Some v))).
  assert (Cv' : SFcount (Prim2SF (JS.or0 (Some v'))) = true)
    by (now apply (or0_count (Some v'))).
  pose proof (le_or0 v v' Hv Hv' H) as Hle.
  destruct (tokenCounts_with u v Hu Hv) as (_ & _ & Uw & Ur).
  destruct (tokenCounts_with u v' Hu Hv') as (_ & _ & Uw' & Ur').
  split; [|split; [|split; [|split]]].
  - rewrite !calculateCost_round6. cbn [withInput input_tokens
      output_tokens cache_creation_input_tokens cache_read_input_tokens].
    apply round6_le; [now apply costFormula_nonneg|].
    now apply costFormula_le_input.
  - rewrite !calculateCost_round6. cbn [withOutput input_tokens
      output_tokens cache_creation_input_tokens cache_read_input_tokens].
    apply round6_le; [now apply costFormula_nonneg|].
    now apply costFormula_le_output.
  - intros Hc. unfold withCacheRead in *.
    apply calculateCost_le_cache; try assumption.
    + apply le_refl. apply nonneg_not_nan. now apply count_nonneg.
    + now rewrite exact_or0.
  - intros Hc. unfold withCacheWrite in *.
    apply calculateCost_le_cache; try assumption.
    + apply le_refl. apply nonneg_not_nan. now apply count_nonneg.
    + now rewrite exact_or0.
  - intros Ki Kr Kw Kw' WKi WKr WKw WKw'.
    now apply (Whole Ki Kr Kw Kw').
Qed.

Lemma calculateCost_monotone_fields_witness :
  let u := mkUsage (Some 100%float) (Some 10%float) (Some 50%float) None in
  (calculateCost (withCacheRead u 80) "claude-sonnet-4"
   <=? calculateCost (withCacheRead u 90) "claude-sonnet-4")%float = true /\
  (calculateCost (withCacheWrite u 80) "claude-sonnet-4"
   <=? calculateCost (withCacheWrite u 90) "claude-sonnet-4")%float = true.
Proof.
  intros u.
  pose proof (calculateCost_monotone_fields u Sonnet4 80%float 90%float
                eq_refl eq_refl eq_refl eq_refl) as (_ & _ & R & _ & W).
  split.
  - apply R. vm_compute. discriminate.
  - apply (W 100%Z 0%Z 80%Z 90%Z); (split; [lia | vm_compute; reflexivity]).
Defined.

(** ** The cost of cache tokens alone *)

Lemma pos_le a b :
  (0 <? a)%float = true -> le a b -> (0 <? b)%float = true.
Proof.
  unfold le. rewrite !FloatAxioms.ltb_spec, FloatAxioms.leb_spec.
  change (Prim2SF 0) with (S754_zero false).
  destruct (Prim2SF a) as [sa|[|]| |[|] ma ea]; try discriminate;
    destruct (Prim2SF b) as [sb|[|]| |[|] mb eb]; try discriminate;
    reflexivity.
Qed.

Lemma zero_of_le c :
  nonneg c -> le c 0 -> (c =? 0)%float = true.
Proof.
  unfold le, nonneg. rewrite FloatAxioms.eqb_spec, FloatAxioms.leb_spec.
  change (Prim2SF 0) with (S754_zero false).
  destruct (Prim2SF c) as [s|[|]| |[|] m e]; try discriminate; reflexivity.
Qed.

Lemma or0_zero x : (JS.or0 x =? 0)%float = true -> JS.or0 x = 0%float.
Proof.
  intros H. apply Prim2SF_inj. rewrite FloatAxioms.eqb_spec in H.
  destruct (or0_shape x) as [Hz _].
  change (Prim2SF 0) with (S754_zero false) in *.
  destruct (Prim2SF (JS.or0 x)) as [[|]|[|]| |[|] m e]; try discriminate;
    congruence.
Qed.

Lemma defaulted_counts u :
  tokenCounts u = true ->
  tokenCounts (mkUsage (Some (JS.or0 (input_tokens u)))
                       (Some (JS.or0 (output_tokens u)))
                       (Some (JS.or0 (cache_creation_input_tokens u)))
                       (Some (JS.or0 (cache_read_input_tokens u)))) = true.
Proof.
  intros Hu. destruct (tokenCounts_fields u Hu) as (Hi & Ho & Hw & Hr).
  unfold tokenCounts. cbn [input_tokens output_tokens
    cache_creation_input_tokens cache_read_input_tokens countField].
  now rewrite !tokenCount_spec, Hi, Ho, Hw, Hr.
Qed.

(** The cost of a usage without input and output tokens against the cost
    of given cache counts. *)
Lemma cache_cost_above u f w r :
  tokenCounts u = true ->
  (JS.or0 (input_tokens u) =? 0)%float = true ->
  (JS.or0 (output_tokens u) =? 0)%float = true ->
  tokenCount w = true -> tokenCount r = true ->
  le w (JS.or0 (cache_creation_input_tokens u)) ->
  le r (JS.or0 (cache_read_input_tokens u)) ->
  le (calculateCost (mkUsage (Some 0%float) (Some 0%float) (Some w) (Some r))
                    (family_key f))
     (calculateCost u (family_key f)).
Proof.
  intros Hu Hi Ho Hw Hr Lw Lr.
  rewrite <- (calculateCost_defaulted u).
  rewrite (or0_zero _ Hi), (or0_zero _ Ho).
  pose proof (defaulted_counts u Hu) as Hd.
  rewrite (or0_zero _ Hi), (or0_zero _ Ho) in Hd.
  destruct (tokenCounts_fields u Hu) as (_ & _ & Cw & Cr).
  assert (Cw0 : SFcount (Prim2SF (JS.or0 (Some w))) = true)
    by now apply (or0_count (Some w)).
  assert (Cr0 : SFcount (Prim2SF (JS.or0 (Some r))) = true)
    by now apply (or0_count (Some r)).
  apply calculateCost_le_cache.
  - unfold tokenCounts. cbn [input_tokens output_tokens
      cache_creation_input_tokens cache_read_input_tokens countField].
    now rewrite Hw, Hr.
  - exact Hd.
  - rewrite or0_or0. assert (E : SFeqv (Prim2SF (JS.or0 (Some w))) (Prim2SF w))
      by now apply or0_eqv.
    apply le_spec. apply le_spec in Lw.
    now rewrite (SFleb_eqv _ _ _ _ E (SFeqv_refl _)).
  - rewrite or0_or0. assert (E : SFeqv (Prim2SF (JS.or0 (Some r))) (Prim2SF r))
      by now apply or0_eqv.
    apply le_spec. apply le_spec in Lr.
    now rewrite (SFleb_eqv _ _ _ _ E (SFeqv_refl _)).
  - change (exact (JS.or0 (Some 0%float))) with 0%Z.
    pose proof (exact_nonneg _ Cw0). pose proof (exact_nonneg _ Cr0). lia.
Qed.

Lemma cache_cost_below u f w r :
  tokenCounts u = true ->
  (JS.or0 (input_tokens u) =? 0)%float = true ->
  (JS.or0 (output_tokens u) =? 0)%float = true ->
  tokenCount w = true -> tokenCount r = true ->
  le (JS.or0 (cache_creation_input_tokens u)) w ->
  le (JS.or0 (cache_read_input_tokens u)) r ->
  le (calculateCost u (family_key f))
     (calculateCost (mkUsage (Some 0%float) (Some 0%float) (Some w) (Some r))
                    (family_key f)).
Proof.
  intros Hu Hi Ho Hw Hr Lw Lr.
  rewrite <- (calculateCost_defaulted u).
  rewrite (or0_zero _ Hi), (or0_zero _ Ho).
  pose proof (defaulted_counts u Hu) as Hd.
  rewrite (or0_zero _ Hi), (or0_zero _ Ho) in Hd.
  destruct (tokenCounts_fields u Hu) as (_ & _ & Cw & Cr).
  apply calculateCost_le_cache.
  - exact Hd.
  - unfold tokenCounts. cbn [input_tokens output_tokens
      cache_creation_input_tokens cache_read_input_tokens countField].
    now rewrite Hw, Hr.
  - rewrite or0_or0. assert (E : SFeqv (Prim2SF (JS.or0 (Some w))) (Prim2SF w))
      by now apply or0_eqv.
    apply le_spec. apply le_spec in Lw.
    now rewrite (SFleb_eqv _ _ _ _ (SFeqv_refl _) E).
  - rewrite or0_or0. assert (E : SFeqv (Prim2SF (JS.or0 (Some r))) (Prim2SF r))
      by now apply or0_eqv.
    apply le_spec. apply le_spec in Lr.
    now rewrite (SFleb_eqv _ _ _ _ (SFeqv_refl _) E).
  - change (exact (JS.or0 (Some 0%float))) with 0%Z.
    rewrite !or0_or0.
    pose proof (exact_nonneg _ Cw). pose proof (exact_nonneg _ Cr). lia.
Qed.

Lemma is_zero_or0 x :
  is_zero_number x = true -> (JS.or0 x =? 0)%float = true.
Proof.
  destruct x as [v|]; [|discriminate]. cbn [is_zero_number JS.or0].
  intros H. destruct (JS.truthy v); [exact H | reflexivity].
Qed.

Lemma le_zero_count x : SFcount (Prim2SF x) = true -> le 0 x.
Proof.
  intros H. unfold le. rewrite leb_zero_spec. now apply SFcount_nonneg.
Qed.

(** Without input and output tokens, cache tokens cost something from 1
    cache-write token or from [paidCacheReads] cache-read tokens on, and
    nothing up to [freeCacheReads] cache-read tokens alone. *)
Lemma cache_cost_sign u f :
  tokenCounts u = true ->
  (JS.or0 (input_tokens u) =? 0)%float = true ->
  (JS.or0 (output_tokens u) =? 0)%float = true ->
  ((1 <=? JS.or0 (cache_creation_input_tokens u))%float = true \/
   (paidCacheReads f <=? JS.or0 (cache_read_input_tokens u))%float = true ->
   (0 <? calculateCost u (family_key f))%float = true) /\
  ((JS.or0 (cache_creation_input_tokens u) =? 0)%float = true ->
   (JS.or0 (cache_read_input_tokens u) <=? freeCacheReads f)%float = true ->
   (calculateCost u (family_key f) =? 0)%float = true).
Proof.
  intros Hu Hi Ho.
  destruct (tokenCounts_fields u Hu) as (_ & _ & Cw & Cr).
  split.
  - intros [H|H].
    + apply (pos_le (calculateCost
                       (mkUsage (Some 0%float) (Some 0%float) (Some 1%float)
                                (Some 0%float)) (family_key f))).
      * now destruct f.
      * apply cache_cost_above; try assumption; try reflexivity.
        now apply le_zero_count.
    + apply (pos_le (calculateCost
                       (mkUsage (Some 0%float) (Some 0%float) (Some 0%float)
                                (Some (paidCacheReads f))) (family_key f))).
      * now destruct f.
      * apply cache_cost_above; try assumption; try reflexivity.
        -- now destruct f.
        -- now apply le_zero_count.
  - intros Hw H. apply zero_of_le; [now apply calculateCost_nonneg|].
    assert (E : calculateCost
                  (mkUsage (Some 0%float) (Some 0%float) (Some 0%float)
                           (Some (freeCacheReads f))) (family_key f)
                = 0%float) by now destruct f.
    rewrite <- E. apply cache_cost_below; try assumption; try reflexivity.
    + now destruct f.
    + rewrite (or0_zero _ Hw). reflexivity.
Qed.

(** C10, as the code has it. A session whose aggregate has zero total input
    and zero total output tokens is classified as empty and its step sends no
    request, whatever its cache totals are, in a dry run as in a real one.
    The calculator prices such an aggregate, for finite token counts, at a
    strictly positive cost as soon as it has 1 cache-write token, or 1
    cache-read token at the rates of the opus families and of the default
    row, 2 at those of claude-sonnet-4, 7 at those of claude-haiku-4.5; with
    no cache-write token and fewer cache-read tokens than that, the cost is
    0.  So a session with 1000 cache-read tokens of claude-sonnet-4, which
    cost 0.0003, is never uploaded. *)
Theorem cache_only_session_never_uploaded :
  (forall dry machine home remote synced dir st f,
      let a := parseSessionFile (file_lines f) in
      is_zero_number (input_tokens (totalUsage a)) = true ->
      is_zero_number (output_tokens (totalUsage a)) = true ->
      emptySession a = true /\
      posts (world (syncFile dry machine home remote synced dir st f)) =
      posts (world st)) /\
  (forall (u : Usage) (f : Family),
      tokenCounts u = true ->
      (JS.or0 (input_tokens u) =? 0)%float = true ->
      (JS.or0 (output_tokens u) =? 0)%float = true ->
      ((1 <=? JS.or0 (cache_creation_input_tokens u))%float = true \/
       (paidCacheReads f <=? JS.or0 (cache_read_input_tokens u))%float = true ->
       (0 <? calculateCost u (family_key f))%float = true) /\
      ((JS.or0 (cache_creation_input_tokens u) =? 0)%float = true ->
       (JS.or0 (cache_read_input_tokens u) <=? freeCacheReads f)%float = true ->
       (calculateCost u (family_key f) =? 0)%float = true)) /\
  (forall dry machine home remote synced dir st f fam,
      let a := parseSessionFile (file_lines f) in
      tokenCounts (totalUsage a) = true ->
      is_zero_number (input_tokens (totalUsage a)) = true ->
      is_zero_number (output_tokens (totalUsage a)) = true ->
      (1 <=? JS.or0 (cache_creation_input_tokens (totalUsage a)))%float = true
      \/ (paidCacheReads fam
          <=? JS.or0 (cache_read_input_tokens (totalUsage a)))%float = true ->
      posts (world (syncFile dry machine home remote synced dir st f)) =
      posts (world st) /\
      (0 <? calculateCost (totalUsage a) (family_key fam))%float = true) /\
  (let a := parseSessionFile (file_lines (cacheOnlyFile 1000)) in
   emptySession a = true /\
   cache_read_input_tokens (totalUsage a) = Some 1000%float /\
   calculateCost (totalUsage a) (primaryModel a) = 0.0003%float /\
   totalCost a = 0.0003%float).
Proof.
  assert (D : forall dry machine home remote synced dir st f,
             let a := parseSessionFile (file_lines f) in
             is_zero_number (input_tokens (totalUsage a)) = true ->
             is_zero_number (output_tokens (totalUsage a)) = true ->
             emptySession a = true /\
             posts (world (syncFile dry machine home remote synced dir st f)) =
             posts (world st)).
  { intros dry machine home remote synced dir st f a Hi Ho.
    assert (He : emptySession a = true)
      by (unfold emptySession; now rewrite Hi, Ho).
    split; [exact He|]. unfold syncFile. fold a. rewrite He.
    destruct (isSynced synced _); [reflexivity|]. now destruct dry. }
  split; [exact D|]. split; [|split].
  - intros u f Hu Hi Ho. now apply cache_cost_sign.
  - intros dry machine home remote synced dir st f fam a Hu Hi Ho H.
    split; [now apply D|].
    apply cache_cost_sign; try assumption; now apply is_zero_or0.
  - vm_compute. repeat split.
Qed.

Lemma cache_only_session_never_uploaded_witness :
  posts (world (syncFile false "mac-home" ["home"; "dev"] accepting ∅
                         "-home-dev-work-claudescope"
                         (mkRunState freshWorld 0 0 0%float)
                         (cacheOnlyFile 1000))) = [] /\
  (0 <? calculateCost
          (totalUsage (parseSessionFile (file_lines (cacheOnlyFile 1000))))
          (family_key Sonnet4))%float = true.
Proof.
  refine (proj1 (proj2 (proj2 cache_only_session_never_uploaded))
                false "mac-home" ["home"; "dev"] accepting ∅
                "-home-dev-work-claudescope"
                (mkRunState freshWorld 0 0 0%float) (cacheOnlyFile 1000)
                Sonnet4 _ _ _ _).
  - reflexivity.
  - reflexivity.
  - reflexivity.
  - right. reflexivity.
Defined.

(** ** The resolver and the pricing table *)

(** X17. Every family the resolver returns has a row in the pricing
    table, so the fallback to the default row is never taken on a resolved
    family.  Resolving is not idempotent: every family key resolves to itself
    except [claude-opus-4.6], which resolves to [claude-opus-4]. *)
Theorem resolved_family_is_priced :
  (forall s : string,
      prop PRICING (getModelFamily s) =
      Some (rateOf (first_match family_patterns s))) /\
  (forall f : Family,
      getModelFamily (family_key f) = family_key f <-> f <> Opus46) /\
  getModelFamily (family_key Opus46) = family_key Opus4.
Proof.
  split; [|split].
  - intros s. rewrite getModelFamily_first_match.
    now destruct (first_match family_patterns s).
  - intros f. destruct f; vm_compute; split; congruence.
  - reflexivity.
Qed.

(** * Further properties: the pricing sync *)

(** ** The pricing sync: one row per family, the first one *)

Lemma prop_snoc {V} (evs : list (string * V)) k v id :
  prop (evs ++ [(k, v)]) id =
  match prop evs id with
  | Some x => Some x
  | None => if String.eqb k id then Some v else None
  end.
Proof.
  induction evs as [|[k' v'] evs IH]; simpl; [reflexivity|].
  now destruct (String.eqb k' id).
Qed.

Lemma firstIds_In {V} (evs : list (string * V)) k :
  In k (firstIds evs) <-> In k (map fst evs).
Proof.
  induction evs as [|[k' v] evs IH]; simpl; [tauto|].
  rewrite List.filter_In, IH, negb_true_iff, String.eqb_neq.
  destruct (String.eqb_spec k' k); tauto.
Qed.

Lemma existsb_eqb_In k (l : list string) :
  existsb (String.eqb k) l = true <-> In k l.
Proof.
  rewrite existsb_exists. split.
  - intros (x & Hx & E). apply String.eqb_eq in E. now subst.
  - intros H. exists k. split; [exact H | apply String.eqb_refl].
Qed.

Lemma acceptedRows_snoc data key val :
  acceptedRows (data ++ [(key, val)]) =
  (acceptedRows data ++
   if SyncPricing.isDirectClaudeModel key val
   then [(SyncPricing.getModelFamily key, SyncPricing.modelOf key val)]
   else [])%list.
Proof.
  unfold acceptedRows. rewrite List.filter_app, map_app. simpl.
  now destruct (SyncPricing.isDirectClaudeModel key val).
Qed.

Lemma fetch_loop data :
  let st := foldl SyncPricing.fetchStep (∅, []) data in
  let rows := acceptedRows data in
  (forall fam, fam ∈ fst st <-> In fam (firstIds rows)) /\
  map SyncPricing.model_family (snd st) = firstIds rows /\
  map Some (snd st) = map (prop rows) (firstIds rows).
Proof.
  induction data as [|[key val] data IH] using rev_ind.
  - simpl. repeat split; try reflexivity; intros H;
      [now apply elem_of_empty in H | destruct H].
  - cbv zeta in *. rewrite foldl_app, acceptedRows_snoc. cbn [foldl].
    destruct IH as (Hseen & Hfam & Hrows).
    set (st := foldl SyncPricing.fetchStep (∅, []) data) in *.
    set (rows := acceptedRows data) in *.
    unfold SyncPricing.fetchStep.
    destruct (SyncPricing.isDirectClaudeModel key val); cbn [negb].
    2:{ rewrite app_nil_r. repeat split; assumption || apply Hseen. }
    rewrite firstIds_snoc.
    assert (Hold : forall fam, In fam (firstIds rows) ->
               prop (rows ++ [(SyncPricing.getModelFamily key,
                               SyncPricing.modelOf key val)]) fam =
               prop rows fam).
    { intros fam Hin. rewrite prop_snoc.
      apply firstIds_In, prop_is_Some in Hin. now destruct Hin as [x ->]. }
    assert (Hmap : map (prop (rows ++ [(SyncPricing.getModelFamily key,
                                        SyncPricing.modelOf key val)]))
                       (firstIds rows) = map (prop rows) (firstIds rows)).
    { apply map_ext_in. exact Hold. }
    destruct (existsb (String.eqb (SyncPricing.getModelFamily key))
                      (firstIds rows)) eqn:E.
    + rewrite bool_decide_eq_true_2
        by now apply Hseen, existsb_eqb_In.
      rewrite app_nil_r, Hmap. repeat split; assumption || apply Hseen.
    + assert (Hnew : ~ In (SyncPricing.getModelFamily key) (firstIds rows)).
      { intros H. apply existsb_eqb_In in H. congruence. }
      rewrite bool_decide_eq_false_2 by (intros H; now apply Hnew, Hseen).
      cbn [fst snd]. rewrite !map_app, Hfam, Hrows, Hmap. cbn [map].
      repeat split.
      * intros H. apply elem_of_union in H as [H|H].
        -- apply elem_of_singleton in H. subst. apply in_or_app.
           right. now left.
        -- apply in_or_app. left. now apply Hseen.
      * intros H. apply in_app_or in H as [H|[<-|[]]].
        -- apply elem_of_union. right. now apply Hseen.
        -- apply elem_of_union. left. now apply elem_of_singleton.
      * f_equal. f_equal. rewrite prop_snoc.
        destruct (prop rows _) as [x|] eqn:Ex.
        -- elim Hnew. apply firstIds_In, prop_is_Some. eauto.
        -- now rewrite String.eqb_refl.
Qed.

(** X18. [fetchPricing] throws when the response is not ok.  Otherwise
    it returns one row per family among the entries the filter accepts, in
    the order in which the families first appear, each row made from the
    first accepted entry of its family (keep-first); no two rows share a
    family. *)
Theorem fetchPricing_keeps_first_per_family :
  SyncPricing.fetchPricing None = None /\
  (forall data : list (string * SyncPricing.Val),
      exists models,
        SyncPricing.fetchPricing (Some data) = Some models /\
        let rows := acceptedRows data in
        map SyncPricing.model_family models = firstIds rows /\
        List.NoDup (map SyncPricing.model_family models) /\
        map Some models = map (prop rows) (firstIds rows)).
Proof.
  split; [reflexivity|]. intros data. eexists. split; [reflexivity|].
  destruct (fetch_loop data) as (_ & Hfam & Hrows). cbv zeta in *.
  split; [exact Hfam|]. split; [|exact Hrows].
  rewrite Hfam. apply firstIds_NoDup.
Qed.

(** ** The pricing sync: rates per million *)

Lemma posFinite_10000 : posFinite 10000 = true.
Proof. reflexivity. Qed.

(** X19. [toPerMillion] of a missing price is 0; on non-negative prices
    it is non-negative and monotone: the scaling and the rounding to 4
    decimals never reverse the order of two prices. *)
Theorem toPerMillion_nonneg_monotone :
  SyncPricing.toPerMillion None = 0%float /\
  (forall p p' : float,
      (0 <=? p)%float = true -> (p <=? p')%float = true ->
      (0 <=? SyncPricing.toPerMillion (Some p))%float = true /\
      (SyncPricing.toPerMillion (Some p)
       <=? SyncPricing.toPerMillion (Some p'))%float = true).
Proof.
  split; [reflexivity|]. intros p p' Hp Hle.
  rewrite leb_zero_spec in *. fold (nonneg p) in Hp.
  fold (le p p') in Hle. unfold SyncPricing.toPerMillion.
  assert (H1 : nonneg (p * 1e6 * 10000)).
  { apply mul_nonneg; [|exact posFinite_10000].
    apply mul_nonneg; [exact Hp | exact posFinite_1e6]. }
  split.
  - apply div_nonneg; [|exact posFinite_10000]. now apply Math_round_nonneg.
  - apply le_div; [now apply Math_round_nonneg | exact posFinite_10000 |].
    apply le_round; [exact H1|].
    apply le_mul; [|exact posFinite_10000|].
    + apply mul_nonneg; [exact Hp | exact posFinite_1e6].
    + apply le_mul; [exact Hp | exact posFinite_1e6 | exact Hle].
Qed.

(** ** The pricing sync: the family of a model key *)

Lemma stripDate_cons c r :
  SyncPricing.stripDate (String c r) =
  if SyncPricing.isDateSuffix (String c r) then ""
  else String c (SyncPricing.stripDate r).
Proof. reflexivity. Qed.

Lemma stripDate_date base d :
  isDate d = true -> SyncPricing.stripDate (base ++ "-" ++ d) = base.
Proof.
  intros Hd. induction base as [|c base IH].
  - change ("" ++ "-" ++ d) with (String "-" d). rewrite stripDate_cons.
    cbn [SyncPricing.isDateSuffix]. unfold isDate in Hd.
    apply andb_true_iff in Hd as [Hl Hf].
    now rewrite Ascii.eqb_refl, Hl, Hf.
  - change (String c base ++ "-" ++ d) with (String c (base ++ "-" ++ d)).
    rewrite stripDate_cons, IH. cbn [SyncPricing.isDateSuffix].
    rewrite length_append.
    change ("-" ++ d) with (String "-" d). cbn [String.length].
    unfold isDate in Hd. apply andb_true_iff in Hd as [Hl _].
    apply Nat.eqb_eq in Hl. rewrite Hl.
    replace (String.length base + 9 =? 8)%nat with false
      by (symmetry; apply Nat.eqb_neq; lia).
    now rewrite andb_false_r.
Qed.

Lemma stripDate_nodate s :
  (forall base d, s = base ++ "-" ++ d -> isDate d = false) ->
  SyncPricing.stripDate s = s.
Proof.
  induction s as [|c s IH]; intros H; [reflexivity|].
  rewrite stripDate_cons.
  destruct (SyncPricing.isDateSuffix (String c s)) eqn:E.
  - cbn [SyncPricing.isDateSuffix] in E.
    apply andb_true_iff in E as [E Hd]. apply andb_true_iff in E as [Hc Hl].
    apply Ascii.eqb_eq in Hc. subst c.
    specialize (H "" s eq_refl). unfold isDate in H.
    now rewrite Hl, Hd in H.
  - f_equal. apply IH. intros base d ->. apply (H (String c base) d).
    reflexivity.
Qed.

Lemma dotVersion_cons c r :
  SyncPricing.dotVersion (String c r) =
  if versionHere (String c r)
  then match r with
       | String a (String _ (String b rest)) =>
           String "-" (String a (String "." (String b rest)))
       | _ => ""
       end
  else String c (SyncPricing.dotVersion r).
Proof.
  now destruct r as [|a [|c' [|b rest]]].
Qed.

Lemma dotVersion_leftmost p a b q :
  SyncPricing.isDigit a = true -> SyncPricing.isDigit b = true ->
  (forall p1 p2 c, p = p1 ++ String c p2 ->
     versionHere (String c p2 ++
                  String "-" (String a (String "-" (String b q)))) = false) ->
  SyncPricing.dotVersion
    (p ++ String "-" (String a (String "-" (String b q)))) =
  p ++ String "-" (String a (String "." (String b q))).
Proof.
  intros Ha Hb. induction p as [|c p IH]; intros H.
  - change ("" ++ ?x) with x. rewrite dotVersion_cons.
    cbn [versionHere]. now rewrite Ha, Hb.
  - change (String c p ++ ?x) with (String c (p ++ x)).
    rewrite dotVersion_cons.
    change (String c (p ++ ?x)) with (String c p ++ x) at 1.
    rewrite (H "" p c eq_refl). f_equal. apply IH.
    intros p1 p2 c0 ->. apply (H (String c p1) p2 c0). reflexivity.
Qed.

Lemma dotVersion_nomatch s :
  (forall p t, s = p ++ t -> versionHere t = false) ->
  SyncPricing.dotVersion s = s.
Proof.
  induction s as [|c s IH]; intros H; [reflexivity|].
  rewrite dotVersion_cons, (H "" (String c s) eq_refl). f_equal.
  apply IH. intros p t ->. apply (H (String c p) t). reflexivity.
Qed.

(** X20. The family of a model key: a trailing dash and 8 digits are
    removed once, a key without them is kept whole; then the leftmost dash,
    digit, dash, digit becomes dash, digit, dot, digit, and a key without
    such a place is unchanged.  The two examples of the source comments
    hold. *)
Theorem pricing_family_of_a_key :
  (forall base d : string,
      isDate d = true ->
      SyncPricing.getModelFamily (base ++ "-" ++ d) =
      SyncPricing.dotVersion base) /\
  (forall s : string,
      (forall base d, s = base ++ "-" ++ d -> isDate d = false) ->
      SyncPricing.getModelFamily s = SyncPricing.dotVersion s) /\
  (forall (p q : string) (a b : ascii),
      SyncPricing.isDigit a = true -> SyncPricing.isDigit b = true ->
      (forall p1 p2 c, p = p1 ++ String c p2 ->
         versionHere (String c p2 ++
                      String "-" (String a (String "-" (String b q))))
         = false) ->
      SyncPricing.dotVersion
        (p ++ String "-" (String a (String "-" (String b q)))) =
      p ++ String "-" (String a (String "." (String b q)))) /\
  (forall s : string,
      (forall p t, s = p ++ t -> versionHere t = false) ->
      SyncPricing.dotVersion s = s) /\
  SyncPricing.getModelFamily "claude-sonnet-4-20250514" = "claude-sonnet-4" /\
  SyncPricing.getModelFamily "claude-3-5-haiku-20241022" = "claude-3.5-haiku".
Proof.
  split; [|split; [|split; [|split; [|split]]]].
  - intros base d Hd. unfold SyncPricing.getModelFamily.
    now rewrite stripDate_date.
  - intros s H. unfold SyncPricing.getModelFamily.
    now rewrite stripDate_nodate.
  - intros p q a b. apply dotVersion_leftmost.
  - exact dotVersion_nomatch.
  - reflexivity.
  - reflexivity.
Qed.

(** * Further instances *)

Lemma session_totals_nonneg_witness :
  (0 <=? totalCost (parseSessionFile (file_lines busyFile)))%float = true.
Proof.
  apply (session_totals_nonneg (file_lines busyFile)).
  repeat constructor.
Defined.

Lemma emptySession_iff_no_input_output_witness :
  emptySession (parseSessionFile (file_lines (cacheOnlyFile 1000))) = true.
Proof.
  rewrite (emptySession_iff_no_input_output (file_lines (cacheOnlyFile 1000))).
  - reflexivity.
  - repeat constructor.
Defined.

(** * Further properties: from one run to the next *)

(** X21. A session whose upload fails is sent again by the next run: when a
    session file is pending, and no session file of the tree with its id is
    empty or accepted by the remote store, the session does not count as
    synced after a real run, and its record is among those the next run has
    to send. *)
Theorem failed_upload_is_retried :
  forall (MACHINE_ID : string) (homedir : list string)
         (remote_ok : list Upload.t -> Upload.t -> bool)
         (projects : list DirEntry) (w : World) (d : DirEntry) (f : File),
    In d projects -> isDirectory d = true -> In f (sessionFiles d) ->
    let sid := basename (file_name f) ".jsonl" in
    isSynced (ledger_file w) sid = false ->
    (forall d' g,
        In d' projects -> isDirectory d' = true -> In g (sessionFiles d') ->
        basename (file_name g) ".jsonl" = sid ->
        emptySession (parseSessionFile (file_lines g)) = false /\
        forall history,
          remote_ok history (buildRecord MACHINE_ID homedir (dir_name d') g)
          = false) ->
    let r := syncAll false MACHINE_ID homedir remote_ok (Some projects) w in
    isSynced (ledger_file (world r)) sid = false /\
    In (buildRecord MACHINE_ID homedir (dir_name d) f)
       (pendingRecords MACHINE_ID homedir (ledger_file (world r)) projects).
Proof.
  intros MACHINE_ID homedir remote_ok projects w d f Hd Hdir Hf sid Hs Hall r.
  assert (Hr : isSynced (ledger_file (world r)) sid = false).
  { destruct (isSynced (ledger_file (world r)) sid) eqn:E; [|reflexivity].
    apply synced_after_run in E
      as [E|(d' & g & Hd' & Hdir' & Hg & Hsid & _ & [He|[history Hok]])].
    - congruence.
    - destruct (Hall d' g Hd' Hdir' Hg Hsid) as [He' _]. congruence.
    - destruct (Hall d' g Hd' Hdir' Hg Hsid) as [_ Hno].
      rewrite Hno in Hok. discriminate. }
  split; [exact Hr|].
  unfold pendingRecords. apply in_flat_map. exists d. split; [exact Hd|].
  rewrite Hdir. apply in_map. unfold pending. apply List.filter_In.
  split; [exact Hf|]. fold sid. rewrite Hr.
  now destruct (Hall d f Hd Hdir Hf eq_refl) as [-> _].
Qed.

Lemma failed_upload_is_retried_witness :
  In (buildRecord "mac-home" ["home"; "dev"] "-home-dev-work-claudescope"
                  busyFile)
     (pendingRecords "mac-home" ["home"; "dev"]
        (ledger_file
           (world (syncAll false "mac-home" ["home"; "dev"] rejecting
                           (Some sampleTree) freshWorld)))
        sampleTree).
Proof.
  refine (proj2 (failed_upload_is_retried
                   "mac-home" ["home"; "dev"] rejecting sampleTree freshWorld
                   (mkDirEntry "-home-dev-work-claudescope" true
                               [busyFile; idleFile])
                   busyFile _ _ _ _ _)).
  - now left.
  - reflexivity.
  - now left.
  - reflexivity.
  - intros d' g [<-|[]] _ [<-|[<-|[]]] Hsid.
    + split; reflexivity.
    + discriminate Hsid.
Defined.

(** A session file whose id is a name every object inherits is skipped, as
    if the ledger held it: with an empty ledger and a remote store that
    accepts everything, a real run over [constructor.jsonl], a session with a
    billed request, and [toString.jsonl], an empty one, sends nothing, writes
    nothing and counts both files as skipped. *)
Example inherited_names_are_skipped :
  let tree :=
    [mkDirEntry "-home-dev-work-claudescope" true
       [mkFile "constructor.jsonl" sampleStat (file_lines busyFile);
        mkFile "toString.jsonl" sampleStat (file_lines idleFile)]] in
  let r := syncAll false "mac-home" ["home"; "dev"] accepting (Some tree)
                   freshWorld in
  world r = freshWorld /\ uploaded r = 0 /\ skipped r = 2.
Proof. vm_compute. repeat split. Qed.
